(** * Kademlia-DHT: the bencoding codec and the DHT node, embedded in Rocq

    The development follows the C++ sources:
    - [src/bencode_parser.cpp], [include/bencode_parser.hpp] : [BencodedValue],
      [parseInt], [parseString], [parseList], [parseDict], [parseValue], [parse];
    - [src/bencode_encoder.cpp] : [encodeInt], [encodeString], [encode];
    - [src/dht_bootstrap.cpp], [include/dht_bootstrap.hpp] : [xor_distance],
      [add_to_routing_table], [find_closest_nodes], [encode_peers],
      [encode_nodes], the four query handlers and one turn of [run].

    Conventions.  A [std::string] is a list of 8-bit characters.  [size_t]
    and [int64_t] values are integers of [Z]; the places where the source
    relies on unsigned wrap-around go through [to_size_t].  A C++ exception
    is the [Throw] outcome of [result]; recursion that the source does not
    bound is bounded here by a fuel argument, and running out of it is the
    [Diverge] outcome.  Undefined behaviour (reading past an array, using an
    uninitialised integer) is [None] in the functions of the DHT part. *)

From Stdlib Require Import Ascii String.
From Stdlib Require Import List ZArith NArith Bool Lia.
From Stdlib Require Import Permutation Sorted.
Import ListNotations.

Set Warnings "-register-all".
Open Scope Z_scope.

(* ------------------------------------------------------------------ *)
(** ** Outcomes of a computation that may throw *)

Inductive exn : Type :=
| runtime_error (what : string)
| invalid_argument (what : string)
| out_of_range (what : string).

Inductive result (A : Type) : Type :=
| Ret (a : A)
| Throw (e : exn)
| Diverge.

Arguments Ret {A} a.
Arguments Throw {A} e.
Arguments Diverge {A}.

Definition bind {A B : Type} (m : result A) (k : A -> result B) : result B :=
  match m with
  | Ret a => k a
  | Throw e => Throw e
  | Diverge => Diverge
  end.

Declare Scope result_scope.
Delimit Scope result_scope with result.
Notation "x <- m ;; k" := (bind m (fun x => k))
  (at level 61, m at next level, right associativity) : result_scope.
Notation "' p <- m ;; k" := (bind m (fun p => k))
  (at level 61, p pattern, m at next level, right associativity) : result_scope.

(* ------------------------------------------------------------------ *)
(** ** std::string *)

Module Str.

Definition cstring : Type := list ascii.

Definition lit (s : string) : cstring := list_ascii_of_string s.

Definition code (c : ascii) : Z := Z.of_N (N_of_ascii c).

Definition size (s : cstring) : Z := Z.of_nat (length s).

(** [size_t] is 64 bits wide. *)
Definition SIZE_MOD : Z := 2 ^ 64.
Definition npos : Z := SIZE_MOD - 1.
Definition to_size_t (z : Z) : Z := z mod SIZE_MOD.

Definition INT64_MIN : Z := - 2 ^ 63.
Definition INT64_MAX : Z := 2 ^ 63 - 1.

(** [s[pos]] *)
Definition at_ (s : cstring) (pos : Z) : ascii := nth (Z.to_nat pos) s zero.

(** [find_in c s i]: first position of [c] in [s], whose head has index [i]. *)
Fixpoint find_in (c : ascii) (s : cstring) (i : Z) : Z :=
  match s with
  | [] => npos
  | x :: s' => if Ascii.eqb x c then i else find_in c s' (i + 1)
  end.

(** [s.find(c, pos)] *)
Definition find (s : cstring) (c : ascii) (pos : Z) : Z :=
  find_in c (skipn (Z.to_nat pos) s) pos.

(** [s.substr(pos, n)]: throws when [pos > size()], otherwise the
    [min(n, size() - pos)] characters from [pos]. *)
Definition substr (s : cstring) (pos n : Z) : result cstring :=
  if size s <? pos then Throw (out_of_range "basic_string::substr")
  else Ret (firstn (Z.to_nat (Z.min n (size s - pos))) (skipn (Z.to_nat pos) s)).

(** Three-way comparison of strings: bytes compared as unsigned values,
    a proper prefix is smaller ([std::string::compare], and
    [operator<] of [std::array<uint8_t, N>]). *)
Fixpoint compare (a b : cstring) : comparison :=
  match a, b with
  | [], [] => Eq
  | [], _ :: _ => Lt
  | _ :: _, [] => Gt
  | x :: a', y :: b' =>
      match N.compare (N_of_ascii x) (N_of_ascii y) with
      | Eq => compare a' b'
      | Lt => Lt
      | Gt => Gt
      end
  end.

Definition ltb (a b : cstring) : bool :=
  match compare a b with Lt => true | _ => false end.

Definition eqb (a b : cstring) : bool :=
  match compare a b with Eq => true | _ => false end.

(** *** std::to_string on integers *)

Definition digit_char (d : Z) : ascii := ascii_of_N (Z.to_N (48 + d)).

(** Decimal digits of a non-negative [n], most significant first,
    put in front of [acc]. *)
Fixpoint to_digits (fuel : nat) (n : Z) (acc : cstring) : cstring :=
  match fuel with
  | O => acc
  | S fuel' =>
      let acc' := digit_char (n mod 10) :: acc in
      if n <? 10 then acc' else to_digits fuel' (n / 10) acc'
  end.

Definition digits_fuel (n : Z) : nat := S (Z.to_nat (Z.log2 n)).

Definition to_string (z : Z) : cstring :=
  if z <? 0 then "-"%char :: to_digits (digits_fuel (- z)) (- z) []
  else to_digits (digits_fuel z) z [].

(** *** std::stoll: strtoll in base 10, with the two exceptions of stoll *)

Definition isspace (c : ascii) : bool :=
  let n := code c in ((9 <=? n) && (n <=? 13)) || (n =? 32).

Definition isdigit (c : ascii) : bool :=
  let n := code c in (48 <=? n) && (n <=? 57).

Definition digit_val (c : ascii) : Z := code c - 48.

Fixpoint skip_spaces (s : cstring) : cstring :=
  match s with
  | c :: s' => if isspace c then skip_spaces s' else s
  | [] => []
  end.

(** The longest prefix of digits: its value on top of [acc], and how many
    digits were read. *)
Fixpoint read_digits (s : cstring) (acc : Z) (count : nat) : Z * nat :=
  match s with
  | c :: s' =>
      if isdigit c then read_digits s' (acc * 10 + digit_val c) (S count)
      else (acc, count)
  | [] => (acc, count)
  end.

Definition stoll (s : cstring) : result Z :=
  let s1 := skip_spaces s in
  let '(negative, s2) :=
    match s1 with
    | c :: s' =>
        if Ascii.eqb c "-" then (true, s')
        else if Ascii.eqb c "+" then (false, s')
        else (false, s1)
    | [] => (false, s1)
    end in
  let '(magnitude, count) := read_digits s2 0 O in
  match count with
  | O => Throw (invalid_argument "stoll")
  | S _ =>
      let v := if negative then - magnitude else magnitude in
      if (v <? INT64_MIN) || (INT64_MAX <? v) then Throw (out_of_range "stoll")
      else Ret v
  end.

End Str.

Import Str.

(* ------------------------------------------------------------------ *)
(** ** std::map with std::string keys

    A [std::map<std::string, V>] is kept as the list of its entries in key
    order, which is the order in which the container is iterated.  The
    container's invariant (keys strictly ascending) is [StdMap.ordered]. *)

Module StdMap.

Section Operations.
Variable V : Type.

Definition t : Type := list (cstring * V).

(** [m[k] = v] *)
Fixpoint assign (k : cstring) (v : V) (m : t) : t :=
  match m with
  | [] => [(k, v)]
  | (k', v') :: m' =>
      match Str.compare k k' with
      | Lt => (k, v) :: m
      | Eq => (k', v) :: m'
      | Gt => (k', v') :: assign k v m'
      end
  end.

(** [m.insert({k, v})]: an entry already present under [k] is kept. *)
Fixpoint emplace (k : cstring) (v : V) (m : t) : t :=
  match m with
  | [] => [(k, v)]
  | (k', v') :: m' =>
      match Str.compare k k' with
      | Lt => (k, v) :: m
      | Eq => m
      | Gt => (k', v') :: emplace k v m'
      end
  end.

(** [m.find(k)], [None] for [m.end()] *)
Fixpoint find (k : cstring) (m : t) : option V :=
  match m with
  | [] => None
  | (k', v') :: m' =>
      match Str.compare k k' with
      | Eq => Some v'
      | _ => find k m'
      end
  end.

(** Construction from a range or an initializer list. *)
Definition of_range (l : list (cstring * V)) : t :=
  fold_left (fun m kv => emplace (fst kv) (snd kv) m) l [].

(** [m.at(k)] *)
Definition at_key (k : cstring) (m : t) : result V :=
  match find k m with
  | Some v => Ret v
  | None => Throw (out_of_range "map::at")
  end.

Definition keys (m : t) : list cstring := map fst m.
End Operations.

Arguments assign {V} k v m.
Arguments emplace {V} k v m.
Arguments find {V} k m.
Arguments of_range {V} l.
Arguments at_key {V} k m.
Arguments keys {V} m.

(** Strictly ascending keys, as a test. *)
Fixpoint ascending (ks : list cstring) : bool :=
  match ks with
  | k1 :: ((k2 :: _) as rest) => Str.ltb k1 k2 && ascending rest
  | _ => true
  end.

Definition ordered {V : Type} (m : t V) : bool := ascending (keys m).

End StdMap.

(* ------------------------------------------------------------------ *)
(** ** BencodedValue (include/bencode_parser.hpp) *)

Inductive BencodedValue : Type :=
| BInt (n : Z)
| BString (s : cstring)
| BList (l : list BencodedValue)
| BDict (d : list (cstring * BencodedValue)).

Definition BencodedList : Type := list BencodedValue.
Definition BencodedDict : Type := StdMap.t BencodedValue.

Definition asInt (v : BencodedValue) : result Z :=
  match v with BInt n => Ret n | _ => Throw (runtime_error "Not an integer") end.
Definition asString (v : BencodedValue) : result cstring :=
  match v with BString s => Ret s | _ => Throw (runtime_error "Not a string") end.
Definition asList (v : BencodedValue) : result BencodedList :=
  match v with BList l => Ret l | _ => Throw (runtime_error "Not a list") end.
Definition asDict (v : BencodedValue) : result BencodedDict :=
  match v with BDict d => Ret d | _ => Throw (runtime_error "Not a dictionary") end.

(** The values a C++ [BencodedValue] can hold: integers are 64-bit, and
    every dictionary satisfies the invariant of [std::map]. *)
Fixpoint value_ok (v : BencodedValue) : bool :=
  match v with
  | BInt n => (INT64_MIN <=? n) && (n <=? INT64_MAX)
  | BString _ => true
  | BList l => forallb value_ok l
  | BDict d =>
      StdMap.ascending (map fst d) && forallb (fun kv => value_ok (snd kv)) d
  end.

(* ------------------------------------------------------------------ *)
(** ** BencodeEncoder (src/bencode_encoder.cpp) *)

Definition encodeInt (value : Z) : cstring :=
  lit "i" ++ to_string value ++ lit "e".

Definition encodeString (value : cstring) : cstring :=
  to_string (size value) ++ lit ":" ++ value.

(** [encodeDict] first copies the dictionary into the map [ordered] and
    then walks that copy.  The copy looks at keys only, so the embedding
    encodes each entry's value where it stands and lets the copy carry the
    encoded bytes ([of_range_map] below shows the two orders agree). *)
Fixpoint encode (value : BencodedValue) : cstring :=
  match value with
  | BInt n => encodeInt n
  | BString s => encodeString s
  | BList l => lit "l" ++ concat (map encode l) ++ lit "e"
  | BDict d =>
      let ordered := StdMap.of_range (map (fun kv => (fst kv, encode (snd kv))) d) in
      lit "d" ++ concat (map (fun kv => encodeString (fst kv) ++ snd kv) ordered)
              ++ lit "e"
  end.

Definition encodeList (l : BencodedList) : cstring := encode (BList l).
Definition encodeDict (d : BencodedDict) : cstring := encode (BDict d).

(* ------------------------------------------------------------------ *)
(** ** BencodeParser (src/bencode_parser.cpp)

    Every function takes the input and the cursor [pos] and gives back the
    parsed value with the new cursor. *)

Local Open Scope result_scope.

Definition parseInt (data : cstring) (pos : Z) : result (Z * Z) :=
  let pos := to_size_t (pos + 1) in
  let endPos := find data "e" pos in
  if endPos =? npos then Throw (runtime_error "Invalid integer format")
  else
    numberStr <- substr data pos (to_size_t (endPos - pos)) ;;
    let pos := to_size_t (endPos + 1) in
    match stoll numberStr with
    | Ret n => Ret (n, pos)
    | Throw _ => Throw (runtime_error "Invalid integer value")
    | Diverge => Diverge
    end.

Definition parseString (data : cstring) (pos : Z) : result (cstring * Z) :=
  let colonPos := find data ":" pos in
  if colonPos =? npos then Throw (runtime_error "Invalid string format")
  else
    lengthStr <- substr data pos (to_size_t (colonPos - pos)) ;;
    length <- stoll lengthStr ;;
    let pos := to_size_t (colonPos + 1) in
    if size data <? to_size_t (pos + length)
    then Throw (runtime_error "String length exceeds input size")
    else
      str <- substr data pos (to_size_t length) ;;
      Ret (str, to_size_t (pos + length)).

Section Loops.
(** The recursive call of the two loops. *)
Variable parseValue : cstring -> Z -> result (BencodedValue * Z).

Fixpoint parseList_loop (iters : nat) (data : cstring) (pos : Z)
    (acc : BencodedList) : result (BencodedList * Z) :=
  match iters with
  | O => Diverge
  | S iters' =>
      if (pos <? size data) && negb (Ascii.eqb (at_ data pos) "e") then
        '(v, pos') <- parseValue data pos ;;
        parseList_loop iters' data pos' (acc ++ [v])
      else if (size data <=? pos) || negb (Ascii.eqb (at_ data pos) "e") then
        Throw (runtime_error "Invalid list format")
      else Ret (acc, to_size_t (pos + 1))
  end.

Definition parseList (iters : nat) (data : cstring) (pos : Z)
    : result (BencodedList * Z) :=
  parseList_loop iters data (to_size_t (pos + 1)) [].

Fixpoint parseDict_loop (iters : nat) (data : cstring) (pos : Z)
    (acc : BencodedDict) : result (BencodedDict * Z) :=
  match iters with
  | O => Diverge
  | S iters' =>
      if (pos <? size data) && negb (Ascii.eqb (at_ data pos) "e") then
        '(key, pos1) <- parseString data pos ;;
        '(value, pos2) <- parseValue data pos1 ;;
        parseDict_loop iters' data pos2 (StdMap.assign key value acc)
      else if (size data <=? pos) || negb (Ascii.eqb (at_ data pos) "e") then
        Throw (runtime_error "Invalid dictionary format")
      else Ret (acc, to_size_t (pos + 1))
  end.

Definition parseDict (iters : nat) (data : cstring) (pos : Z)
    : result (BencodedDict * Z) :=
  parseDict_loop iters data (to_size_t (pos + 1)) [].
End Loops.

(** [fuel] bounds both the nesting depth and the number of turns of each
    loop. *)
Fixpoint parseValue (fuel : nat) (data : cstring) (pos : Z)
    : result (BencodedValue * Z) :=
  match fuel with
  | O => Diverge
  | S fuel' =>
      if size data <=? pos then Throw (runtime_error "Unexpected end of input")
      else
        let ch := at_ data pos in
        if Ascii.eqb ch "i" then
          '(n, pos') <- parseInt data pos ;; Ret (BInt n, pos')
        else if Ascii.eqb ch "l" then
          '(l, pos') <- parseList (parseValue fuel') fuel' data pos ;;
          Ret (BList l, pos')
        else if Ascii.eqb ch "d" then
          '(d, pos') <- parseDict (parseValue fuel') fuel' data pos ;;
          Ret (BDict d, pos')
        else if isdigit ch then
          '(s, pos') <- parseString data pos ;; Ret (BString s, pos')
        else Throw (runtime_error "Invalid bencoded format")
  end.

Definition parse (fuel : nat) (data : cstring) : result BencodedValue :=
  '(v, _) <- parseValue fuel data 0 ;; Ret v.

(* ------------------------------------------------------------------ *)
(** ** The bencoding grammar

    A well-formed input is the rendering of a syntax tree: an integer in
    decimal without leading zeros (and no negative zero), a byte string
    behind its decimal length, a list and a dictionary of rendered items.
    The entries of a dictionary are kept in the order of the input, and a
    key may occur more than once. *)

Inductive wire : Type :=
| WInt (n : Z)
| WStr (s : cstring)
| WList (items : list wire)
| WDict (entries : list (cstring * wire)).

(** A byte string on the wire: decimal length, colon, the bytes. *)
Definition render_key (k : cstring) : cstring := to_string (size k) ++ lit ":" ++ k.

Fixpoint render (w : wire) : cstring :=
  match w with
  | WInt n => lit "i" ++ to_string n ++ lit "e"
  | WStr s => render_key s
  | WList items => lit "l" ++ concat (map render items) ++ lit "e"
  | WDict entries =>
      lit "d"
      ++ concat (map (fun kv => render_key (fst kv) ++ render (snd kv)) entries)
      ++ lit "e"
  end.

(** Integers fit [int64_t]. *)
Fixpoint wire_ok (w : wire) : bool :=
  match w with
  | WInt n => (INT64_MIN <=? n) && (n <=? INT64_MAX)
  | WStr _ => true
  | WList items => forallb wire_ok items
  | WDict entries => forallb (fun kv => wire_ok (snd kv)) entries
  end.

(** The keys of every dictionary are strictly ascending. *)
Fixpoint wire_sorted (w : wire) : bool :=
  match w with
  | WInt _ | WStr _ => true
  | WList items => forallb wire_sorted items
  | WDict entries =>
      StdMap.ascending (map fst entries)
      && forallb (fun kv => wire_sorted (snd kv)) entries
  end.

(** The value a syntax tree stands for; a dictionary is filled entry by
    entry, in input order. *)
Fixpoint denote (w : wire) : BencodedValue :=
  match w with
  | WInt n => BInt n
  | WStr s => BString s
  | WList items => BList (map denote items)
  | WDict entries =>
      BDict (fold_left (fun m kv => StdMap.assign (fst kv) (snd kv) m)
                       (map (fun kv => (fst kv, denote (snd kv))) entries) [])
  end.

(** The syntax tree of a value: its dictionaries entry by entry. *)
Fixpoint wire_of (v : BencodedValue) : wire :=
  match v with
  | BInt n => WInt n
  | BString s => WStr s
  | BList l => WList (map wire_of l)
  | BDict d => WDict (map (fun kv => (fst kv, wire_of (snd kv))) d)
  end.

(** Fuel that is enough to parse the rendering of a tree. *)
Fixpoint weight (w : wire) : nat :=
  match w with
  | WInt _ | WStr _ => 1
  | WList items => 2 + list_sum (map (fun x => S (weight x)) items)
  | WDict entries => 2 + list_sum (map (fun kv => S (weight (snd kv))) entries)
  end%nat.

(* ------------------------------------------------------------------ *)
(** ** Notions used to state the codec laws *)

(** The characters of an unsigned numeral. *)
Definition numeral_char (c : ascii) : Prop := isdigit c = true.

(** The input fits a [std::string]. *)
Definition fits (data : cstring) : Prop := size data < 2 ^ 63.

(** [pv] reads the rendering of [w] wherever it stands in the input. *)
Definition parses_at (pv : cstring -> Z -> result (BencodedValue * Z)) (w : wire) : Prop :=
  forall pre rest,
    fits (pre ++ render w ++ rest) ->
    pv (pre ++ render w ++ rest) (size pre)
    = Ret (denote w, size pre + size (render w)).

(** One entry of a dictionary: on the wire, as [parseDict] stores it, and
    as a pair of key and value. *)
Definition render_entry (kv : cstring * wire) : cstring :=
  render_key (fst kv) ++ render (snd kv).

Definition assign_entry (m : BencodedDict) (kv : cstring * BencodedValue) : BencodedDict :=
  StdMap.assign (fst kv) (snd kv) m.

Definition denote_entry (kv : cstring * wire) : cstring * BencodedValue :=
  (fst kv, denote (snd kv)).

(** [pv'] agrees with [pv] wherever [pv] comes to an end. *)
Definition refines (pv pv' : cstring -> Z -> result (BencodedValue * Z)) : Prop :=
  forall data pos, pv data pos <> Diverge -> pv' data pos = pv data pos.

(** What decoding an input comes to, whatever the fuel beyond some point. *)
Definition decode_fails (data : cstring) : Prop :=
  exists fuel0 e, forall fuel, (fuel0 <= fuel)%nat -> parse fuel data = Throw e.

Definition decodes_to (data : cstring) (v : BencodedValue) : Prop :=
  exists fuel0, forall fuel, (fuel0 <= fuel)%nat -> parse fuel data = Ret v.

(** A value and a protocol message, used in the checks below. *)
Definition sample_value : BencodedValue :=
  BDict [(lit "a", BInt (-7));
         (lit "b", BList [BString (lit "spam"); BDict []]);
         (lit "ba", BDict [(lit "x", BInt 0)])].

Definition sample_wire : wire :=
  WDict [(lit "a", WDict [(lit "id", WStr (lit "abcdefghij0123456789"))]);
         (lit "q", WStr (lit "ping"));
         (lit "t", WStr (lit "aa"));
         (lit "y", WStr (lit "q"))].

(* ------------------------------------------------------------------ *)
(** ** The DHT node (include/dht_bootstrap.hpp, src/dht_bootstrap.cpp) *)

Module DHT.

Definition NODE_ID_SIZE : nat := 20.
Definition K : nat := 8.

(** [std::array<uint8_t, NODE_ID_SIZE>] *)
Definition NodeID : Type := list ascii.

Definition valid_id (i : NodeID) : bool := (length i =? NODE_ID_SIZE)%nat.

Record Node : Type := mkNode { id : NodeID; ip : cstring; port : Z }.

(** [Node::operator==] *)
Definition node_eqb (a b : Node) : bool :=
  Str.eqb (id a) (id b) && Str.eqb (ip a) (ip b) && (port a =? port b).

Definition Bucket : Type := list Node.

Definition byte_xor (a b : ascii) : ascii :=
  ascii_of_N (N.lxor (N_of_ascii a) (N_of_ascii b)).

Definition xor_distance (a b : NodeID) : NodeID :=
  map (fun i => byte_xor (nth i a zero) (nth i b zero)) (seq 0 NODE_ID_SIZE).

(** [distance[bucket_index / 8] & (1 << (bucket_index % 8))], as a truth
    value; [None] when the byte lies past the end of the array. *)
Definition distance_bit (distance : NodeID) (bucket_index : nat) : option bool :=
  match nth_error distance (bucket_index / 8) with
  | Some byte =>
      Some (negb (N.eqb (N.land (N_of_ascii byte)
                                (N.shiftl 1 (N.of_nat (bucket_index mod 8)))) 0))
  | None => None
  end.

(** The [while] loop of [add_to_routing_table]; [remaining] is
    [routing_table_.size() - bucket_index]. *)
Fixpoint bucket_scan (remaining : nat) (distance : NodeID) (bucket_index : nat)
    : option nat :=
  match remaining with
  | O => Some bucket_index
  | S remaining' =>
      match distance_bit distance bucket_index with
      | None => None
      | Some true => bucket_scan remaining' distance (S bucket_index)
      | Some false => Some bucket_index
      end
  end.

(** [std::find(bucket.begin(), bucket.end(), node)]: the entries before the
    first one equal to [node], that entry, and the entries after it. *)
Fixpoint std_find (node : Node) (bucket : Bucket) : option (Bucket * Node * Bucket) :=
  match bucket with
  | [] => None
  | x :: rest =>
      if node_eqb x node then Some ([], x, rest)
      else match std_find node rest with
           | Some (before, y, after) => Some (x :: before, y, after)
           | None => None
           end
  end.

(** [v[i] = x] for [i < v.size()] *)
Fixpoint set_nth {A : Type} (i : nat) (x : A) (v : list A) : list A :=
  match v, i with
  | [], _ => []
  | _ :: v', O => x :: v'
  | y :: v', S i' => y :: set_nth i' x v'
  end.

(** The bucket after the insertion of [node]; [pong] is the outcome of
    [ping(oldest_node)], asked for only when the bucket is full. *)
Definition bucket_insert (pong : bool) (node : Node) (bucket : Bucket) : option Bucket :=
  match std_find node bucket with
  | Some (before, it, after) =>
      (* std::rotate(it, it + 1, bucket.end()) *)
      Some (before ++ after ++ [it])
  | None =>
      if (length bucket <? K)%nat then Some (bucket ++ [node])
      else match bucket with
           | oldest_node :: rest =>
               if pong then Some (rest ++ [oldest_node])
               else Some (node :: rest)
           | [] => None
           end
  end.

Definition add_to_routing_table (my_node_id : NodeID) (pong : bool)
    (routing_table : list Bucket) (node : Node) : option (list Bucket) :=
  let distance := xor_distance my_node_id (id node) in
  match bucket_scan (length routing_table) distance 0 with
  | None => None
  | Some bucket_index =>
      let routing_table :=
        if (length routing_table <=? bucket_index)%nat
        then routing_table ++ [[]] else routing_table in
      match bucket_insert pong node (nth bucket_index routing_table []) with
      | Some bucket => Some (set_nth bucket_index bucket routing_table)
      | None => None
      end
  end.

(** A run of insertions, each with the outcome its ping would have. *)
Fixpoint add_all (my_node_id : NodeID) (routing_table : list Bucket)
    (arrivals : list (Node * bool)) : option (list Bucket) :=
  match arrivals with
  | [] => Some routing_table
  | (node, pong) :: rest =>
      match add_to_routing_table my_node_id pong routing_table node with
      | Some routing_table' => add_all my_node_id routing_table' rest
      | None => None
      end
  end.

(** The table the constructor leaves: one empty bucket. *)
Definition initial_table : list Bucket := [[]].

(** [std::sort] with the comparison [lt]: here by insertion.  The proofs
    below use only what the standard promises of [std::sort], namely that
    the outcome is a permutation in which no element is smaller than one
    before it. *)
Section Sort.
Variable A : Type.
Variable lt : A -> A -> bool.

Fixpoint sort_insert (x : A) (l : list A) : list A :=
  match l with
  | [] => [x]
  | y :: l' => if lt x y then x :: l else y :: sort_insert x l'
  end.

Definition std_sort (l : list A) : list A := fold_right sort_insert [] l.

(** [x] may stand before [y]: [y] is not smaller than [x]. *)
Definition not_after (x y : A) : Prop := lt y x = false.
End Sort.

Arguments sort_insert {A} lt x l.
Arguments std_sort {A} lt l.
Arguments not_after {A} lt x y.

Definition closer (target_id : NodeID) (a b : Node) : bool :=
  Str.ltb (xor_distance (id a) target_id) (xor_distance (id b) target_id).

Definition find_closest_nodes (routing_table : list Bucket) (target_id : NodeID)
    (k : nat) : list Node :=
  let closest_nodes := concat routing_table in
  let closest_nodes := std_sort (closer target_id) closest_nodes in
  if (k <? length closest_nodes)%nat then firstn k closest_nodes else closest_nodes.

(** *** Socket addresses and the compact forms *)

(** [sockaddr_in]: the four address bytes and the two port bytes as they
    lie in memory, in network byte order. *)
Record sockaddr_in : Type :=
  mkAddr { sin_addr : ascii * ascii * ascii * ascii; sin_port : ascii * ascii }.

Definition byte_of (z : Z) : ascii := ascii_of_N (Z.to_N (z mod 256)).

Definition ntohs (p : ascii * ascii) : Z := 256 * code (fst p) + code (snd p).
Definition htons (v : Z) : ascii * ascii := (byte_of (v / 256), byte_of v).

(** [inet_ntoa]: dotted decimal. *)
Definition inet_ntoa (a : ascii * ascii * ascii * ascii) : cstring :=
  let '(a0, a1, a2, a3) := a in
  to_string (code a0) ++ lit "." ++ to_string (code a1) ++ lit "."
  ++ to_string (code a2) ++ lit "." ++ to_string (code a3).

(** [inet_pton(AF_INET, ...)]: four decimal octets of at most 255 without
    leading zeros, separated by dots; [None] when the text is refused and
    the destination is left as it was. *)
Fixpoint inet_pton_loop (s : cstring) (octets : list Z) (cur : Z) (saw_digit : bool)
    : option (list Z) :=
  match s with
  | [] => if saw_digit && (length octets =? 3)%nat then Some (octets ++ [cur]) else None
  | c :: s' =>
      if isdigit c then
        let new := cur * 10 + digit_val c in
        if saw_digit && (cur =? 0) then None
        else if 255 <? new then None
        else inet_pton_loop s' octets new true
      else if Ascii.eqb c "." && saw_digit then
        if (3 <=? length octets)%nat then None
        else inet_pton_loop s' (octets ++ [cur]) 0 false
      else None
  end.

Definition inet_pton (s : cstring) : option (ascii * ascii * ascii * ascii) :=
  match inet_pton_loop s [] 0 false with
  | Some [a0; a1; a2; a3] => Some (byte_of a0, byte_of a1, byte_of a2, byte_of a3)
  | _ => None
  end.

Definition addr_bytes (a : ascii * ascii * ascii * ascii) : cstring :=
  let '(a0, a1, a2, a3) := a in [a0; a1; a2; a3].
Definition port_bytes (p : ascii * ascii) : cstring := [fst p; snd p].

(** The first [NODE_ID_SIZE] bytes of an identifier, as a string. *)
Definition id_string (i : NodeID) : cstring := firstn NODE_ID_SIZE i.

(** [encode_peers]: [None] when some address is not dotted decimal, since
    [ip_binary] is then appended without ever having been written. *)
Fixpoint encode_peers (peers : list Node) : option cstring :=
  match peers with
  | [] => Some []
  | peer :: rest =>
      match inet_pton (ip peer), encode_peers rest with
      | Some ip_binary, Some tail =>
          Some (addr_bytes ip_binary ++ port_bytes (htons (port peer)) ++ tail)
      | _, _ => None
      end
  end.

Fixpoint encode_nodes (nodes : list Node) : option cstring :=
  match nodes with
  | [] => Some []
  | node :: rest =>
      match inet_pton (ip node), encode_nodes rest with
      | Some ip_binary, Some tail =>
          Some (id_string (id node) ++ addr_bytes ip_binary
                ++ port_bytes (htons (port node)) ++ tail)
      | _, _ => None
      end
  end.

Definition string_to_node_id (str : cstring) : result NodeID :=
  if negb (length str =? NODE_ID_SIZE)%nat
  then Throw (runtime_error "Invalid string length for NodeID")
  else Ret (firstn NODE_ID_SIZE str).

(** [std::memcpy(target_id.data(), str.data(), NODE_ID_SIZE)]: [None] when
    the string holds fewer bytes than are copied. *)
Definition memcpy_node_id (str : cstring) : option NodeID :=
  if (length str <? NODE_ID_SIZE)%nat then None else Some (firstn NODE_ID_SIZE str).

(** *** The engine: state, query handlers, one turn of [run] *)

Record DHTBootstrap : Type := mkDHT {
  my_node_id_ : NodeID;
  routing_table_ : list Bucket;
  bootstrap_nodes_ : list Node;
  peer_store_ : StdMap.t (list Node)
}.

(** What [sendto] is given: the payload and the destination. *)
Definition datagram : Type := (cstring * sockaddr_in)%type.

(** The constructor: one empty bucket, nothing else. *)
Definition new_engine (my_node_id : NodeID) : DHTBootstrap :=
  mkDHT my_node_id initial_table [] [].

(** The message every handler builds before sending: [response["t"]],
    [response["y"]], [response["r"]] assigned in this order, then encoded;
    [r] is the initializer list of the inner dictionary. *)
Definition response_str (transaction_id : cstring)
    (r : list (cstring * BencodedValue)) : cstring :=
  let response : BencodedDict := [] in
  let response := StdMap.assign (lit "t") (BString transaction_id) response in
  let response := StdMap.assign (lit "y") (BString (lit "r")) response in
  let response := StdMap.assign (lit "r") (BDict (StdMap.of_range r)) response in
  encode (BDict response).

(** [request.asDict().at("t").asString()] *)
Definition transaction_of (request : BencodedValue) : result cstring :=
  d <- asDict request ;; t <- StdMap.at_key (lit "t") d ;; asString t.

(** [request.asDict().at("a").asDict().at(field).asString()] *)
Definition argument_of (field : cstring) (request : BencodedValue) : result cstring :=
  d <- asDict request ;; a <- StdMap.at_key (lit "a") d ;;
  ad <- asDict a ;; x <- StdMap.at_key field ad ;; asString x.

(** A handler gives the engine afterwards and the datagrams it sent; an
    exception is caught inside the handler, which then sends nothing.
    [None] stands for undefined behaviour. *)
Definition handled : Type := option (DHTBootstrap * list datagram).

Definition handle_ping (st : DHTBootstrap) (request : BencodedValue)
    (sender_addr : sockaddr_in) : handled :=
  match transaction_of request with
  | Ret transaction_id =>
      Some (st, [(response_str transaction_id
                    [(lit "id", BString (id_string (my_node_id_ st)))],
                  sender_addr)])
  | Throw _ => Some (st, [])
  | Diverge => None
  end.

Definition handle_find_node (st : DHTBootstrap) (request : BencodedValue)
    (sender_addr : sockaddr_in) : handled :=
  match (transaction_id <- transaction_of request ;;
         target_id_str <- argument_of (lit "target") request ;;
         Ret (transaction_id, target_id_str)) with
  | Ret (transaction_id, target_id_str) =>
      match memcpy_node_id target_id_str with
      | None => None
      | Some target_id =>
          match encode_nodes (find_closest_nodes (routing_table_ st) target_id K) with
          | None => None
          | Some nodes =>
              Some (st, [(response_str transaction_id
                            [(lit "id", BString (id_string (my_node_id_ st)));
                             (lit "nodes", BString nodes)],
                          sender_addr)])
          end
      end
  | Throw _ => Some (st, [])
  | Diverge => None
  end.

Definition handle_get_peers (st : DHTBootstrap) (request : BencodedValue)
    (sender_addr : sockaddr_in) : handled :=
  match (transaction_id <- transaction_of request ;;
         infohash <- argument_of (lit "info_hash") request ;;
         Ret (transaction_id, infohash)) with
  | Ret (transaction_id, infohash) =>
      match StdMap.find infohash (peer_store_ st) with
      | Some peers =>
          match encode_peers peers with
          | None => None
          | Some values =>
              Some (st, [(response_str transaction_id
                            [(lit "id", BString (id_string (my_node_id_ st)));
                             (lit "values", BString values)],
                          sender_addr)])
          end
      | None =>
          match memcpy_node_id infohash with
          | None => None
          | Some target_id =>
              match encode_nodes (find_closest_nodes (routing_table_ st) target_id K) with
              | None => None
              | Some nodes =>
                  Some (st, [(response_str transaction_id
                                [(lit "id", BString (id_string (my_node_id_ st)));
                                 (lit "nodes", BString nodes)],
                              sender_addr)])
              end
          end
      end
  | Throw _ => Some (st, [])
  | Diverge => None
  end.

(** [peer_store_[infohash].push_back(peer)] *)
Definition store_peer (infohash : cstring) (peer : Node)
    (peer_store : StdMap.t (list Node)) : StdMap.t (list Node) :=
  match StdMap.find infohash peer_store with
  | Some peers => StdMap.assign infohash (peers ++ [peer]) peer_store
  | None => StdMap.assign infohash [peer] peer_store
  end.

(** [peer_id] stands for the bytes that the field [peer.id], which the
    handler never writes, happens to hold. *)
Definition handle_announce_peer (peer_id : NodeID) (st : DHTBootstrap)
    (request : BencodedValue) (sender_addr : sockaddr_in) : handled :=
  match argument_of (lit "info_hash") request with
  | Ret infohash =>
      let peer := mkNode peer_id (inet_ntoa (sin_addr sender_addr))
                         (ntohs (sin_port sender_addr)) in
      let st := mkDHT (my_node_id_ st) (routing_table_ st) (bootstrap_nodes_ st)
                      (store_peer infohash peer (peer_store_ st)) in
      (* the log line converts the infohash; the reply comes after it *)
      match (_ <- string_to_node_id infohash ;; transaction_of request) with
      | Ret transaction_id =>
          Some (st, [(response_str transaction_id
                        [(lit "id", BString (id_string (my_node_id_ st)))],
                      sender_addr)])
      | Throw _ => Some (st, [])
      | Diverge => None
      end
  | Throw _ => Some (st, [])
  | Diverge => None
  end.

(** [message.asDict().at("y").asString()] and
    [message.asDict().at("q").asString()] *)
Definition message_type_of (message : BencodedValue) : result cstring :=
  d <- asDict message ;; y <- StdMap.at_key (lit "y") d ;; asString y.

Definition query_type_of (message : BencodedValue) : result cstring :=
  d <- asDict message ;; q <- StdMap.at_key (lit "q") d ;; asString q.

(** The part of a turn of [run] that follows a successful parse. *)
Definition dispatch (peer_id : NodeID) (st : DHTBootstrap)
    (message : BencodedValue) (sender_addr : sockaddr_in) : handled :=
  match message_type_of message with
  | Ret message_type =>
      if Str.eqb message_type (lit "q") then
        match query_type_of message with
        | Ret query_type =>
            if Str.eqb query_type (lit "ping") then
              handle_ping st message sender_addr
            else if Str.eqb query_type (lit "find_node") then
              handle_find_node st message sender_addr
            else if Str.eqb query_type (lit "get_peers") then
              handle_get_peers st message sender_addr
            else if Str.eqb query_type (lit "announce_peer") then
              handle_announce_peer peer_id st message sender_addr
            else Some (st, [])
        | Throw _ => Some (st, [])
        | Diverge => None
        end
      else Some (st, [])
  | Throw _ => Some (st, [])
  | Diverge => None
  end.

(** One turn of the loop of [run] on a received datagram.  [None] also
    when the parser does not come back within [fuel]. *)
Definition run_once (fuel : nat) (peer_id : NodeID) (st : DHTBootstrap)
    (message_str : cstring) (sender_addr : sockaddr_in) : handled :=
  match parse fuel message_str with
  | Ret message => dispatch peer_id st message sender_addr
  | Throw _ => Some (st, [])
  | Diverge => None
  end.

End DHT.

Import DHT.

(* ------------------------------------------------------------------ *)
(** ** Notions used to state the laws of the node *)

(** Bit [i] of a distance when its bits are numbered from the most
    significant bit of each byte, as the specification words it. *)
Definition bit_msb_first (distance : NodeID) (i : nat) : option bool :=
  match nth_error distance (i / 8) with
  | Some byte => Some (N.testbit (N_of_ascii byte) (N.of_nat (7 - i mod 8)))
  | None => None
  end.

(** Bit [i] when the bits of each byte are numbered from the least
    significant one. *)
Definition bit_lsb_first (distance : NodeID) (i : nat) : option bool :=
  match nth_error distance (i / 8) with
  | Some byte => Some (N.testbit (N_of_ascii byte) (N.of_nat (i mod 8)))
  | None => None
  end.

(** The scan of the specification: advance while bit [i], most significant
    first, is set and [i] is below the bucket count. *)
Fixpoint msb_first_scan (remaining : nat) (distance : NodeID) (i : nat) : option nat :=
  match remaining with
  | O => Some i
  | S remaining' =>
      match bit_msb_first distance i with
      | None => None
      | Some true => msb_first_scan remaining' distance (S i)
      | Some false => Some i
      end
  end.

(** The identifier of twenty zero bytes. *)
Definition zero_id : NodeID := repeat zero NODE_ID_SIZE.

(** An identifier whose first byte is [b], the others zero. *)
Definition id_with_first_byte (b : N) : NodeID :=
  ascii_of_N b :: repeat zero (NODE_ID_SIZE - 1).

(** A node with such an identifier, used in the checks below. *)
Definition sample_node (first_byte : N) : Node :=
  mkNode (id_with_first_byte first_byte) (lit "10.0.0.1") 6881.

(** No bucket holds more than [K] nodes. *)
Definition bounded (routing_table : list Bucket) : Prop :=
  Forall (fun bucket => (length bucket <= K)%nat) routing_table.

(** [a] may stand before [b] in an answer: [b] is not closer to the target,
    and at equal distance [b]'s identifier is not the smaller one. *)
Definition in_order (target_id : NodeID) (a b : Node) : Prop :=
  closer target_id b a = false
  /\ (xor_distance (id a) target_id = xor_distance (id b) target_id ->
      Str.ltb (id b) (id a) = false).

(** The compact form of an endpoint: four address bytes, two port bytes. *)
Definition compact_peer (addr : sockaddr_in) : cstring :=
  addr_bytes (sin_addr addr) ++ port_bytes (sin_port addr).

(** Every stored peer has its address in dotted decimal. *)
Definition peers_ok (peers : list Node) : Prop :=
  Forall (fun peer => inet_pton (ip peer) <> None) peers.

(** The same of every list of the peer store. *)
Definition store_ok (peer_store : StdMap.t (list Node)) : Prop :=
  Forall (fun entry => peers_ok (snd entry)) peer_store.

(** The address [9.9.9.9:1234], an infohash and two queries for it. *)
Definition sample_sender : sockaddr_in :=
  mkAddr ("009"%char, "009"%char, "009"%char, "009"%char) ("004"%char, "210"%char).

Definition sample_infohash : cstring := lit "abcdefghij0123456789".

Definition sample_announce : BencodedValue :=
  BDict [(lit "a", BDict [(lit "id", BString (lit "01234567890123456789"));
                          (lit "info_hash", BString sample_infohash)]);
         (lit "q", BString (lit "announce_peer"));
         (lit "t", BString (lit "aa"));
         (lit "y", BString (lit "q"))].

Definition sample_get_peers : BencodedValue :=
  BDict [(lit "a", BDict [(lit "id", BString (lit "01234567890123456789"));
                          (lit "info_hash", BString sample_infohash)]);
         (lit "q", BString (lit "get_peers"));
         (lit "t", BString (lit "bb"));
         (lit "y", BString (lit "q"))].

(** An [announce_peer] datagram whose [info_hash] has three bytes. *)
Definition short_announce : cstring :=
  lit "d1:ad2:id20:012345678901234567899:info_hash3:abce1:q13:announce_peer1:t2:aa1:y1:qe".

(* ------------------------------------------------------------------ *)
(** ** The DHT node, continued: the client side (src/dht_bootstrap.cpp) *)

(** [inet_ntop(AF_INET, ...)] writes the same dotted decimal as
    [inet_ntoa]. *)
Definition inet_ntop (a : ascii * ascii * ascii * ascii) : cstring := inet_ntoa a.

(** One 26-byte entry of a compact node list, read at the front of
    [entry]: 20 bytes of identifier, 4 of address, 2 of port. *)
Definition compact_entry (entry : cstring) : Node :=
  mkNode (firstn NODE_ID_SIZE entry)
         (inet_ntop (nth 20 entry zero, nth 21 entry zero,
                     nth 22 entry zero, nth 23 entry zero))
         (ntohs (nth 24 entry zero, nth 25 entry zero)).

(** [parse_compact_nodes(compact, nodes)]: the nodes of the
    [compact.size() / 26] whole entries are appended to [nodes]; entry [i]
    starts at [data + i * 26]. *)
Definition parse_compact_nodes (compact : cstring) (nodes : list Node) : list Node :=
  let num_nodes := (length compact / 26)%nat in
  nodes ++ map (fun i => compact_entry (skipn (i * 26) compact)) (seq 0 num_nodes).

(** The request that [send_find_node_request] encodes and sends. *)
Definition find_node_request (my_node_id target_id : NodeID) : cstring :=
  let query : BencodedDict := [] in
  let query := StdMap.assign (lit "id") (BString (id_string my_node_id)) query in
  let query := StdMap.assign (lit "target") (BString (id_string target_id)) query in
  let message : BencodedDict := [] in
  let message := StdMap.assign (lit "t") (BString (lit "aa")) message in
  let message := StdMap.assign (lit "y") (BString (lit "q")) message in
  let message := StdMap.assign (lit "q") (BString (lit "find_node")) message in
  let message := StdMap.assign (lit "a") (BDict query) message in
  encode (BDict message).

(** The message that [ping] encodes and sends. *)
Definition ping_request (my_node_id : NodeID) : cstring :=
  let query : BencodedDict := [] in
  let query := StdMap.assign (lit "id") (BString (id_string my_node_id)) query in
  let message : BencodedDict := [] in
  let message := StdMap.assign (lit "t") (BString (lit "pp")) message in
  let message := StdMap.assign (lit "y") (BString (lit "q")) message in
  let message := StdMap.assign (lit "q") (BString (lit "ping")) message in
  let message := StdMap.assign (lit "a") (BDict query) message in
  encode (BDict message).

(** What [recvfrom] leaves in a buffer of [buffer_size] bytes when
    [datagram] arrives: its first [buffer_size] bytes. *)
Definition recvfrom (buffer_size : nat) (datagram : cstring) : cstring :=
  firstn buffer_size datagram.

(** [r.at("r").asDict().at("nodes").asString()] of a response whose
    ["y"] is ["r"], parsed as a compact node list; no nodes otherwise. *)
Definition nodes_of_response (response : BencodedValue) : result (list Node) :=
  response_dict <- asDict response ;;
  y <- StdMap.at_key (lit "y") response_dict ;;
  message_type <- asString y ;;
  if Str.eqb message_type (lit "r") then
    r <- StdMap.at_key (lit "r") response_dict ;;
    r_dict <- asDict r ;;
    nodes <- StdMap.at_key (lit "nodes") r_dict ;;
    nodes_str <- asString nodes ;;
    Ret (parse_compact_nodes nodes_str [])
  else Ret [].

(** The second half of [send_find_node_request]: what it returns for what
    [recvfrom] gave, [None] standing for a failed or timed-out receive.
    Every exception is caught and leaves the list empty.  The outcome is
    [None] when the parser does not come back within [fuel]. *)
Definition find_node_response (fuel : nat) (received : option cstring)
    : option (list Node) :=
  match received with
  | None | Some [] => Some []
  | Some data =>
      match parse fuel data with
      | Ret response =>
          match nodes_of_response response with
          | Ret nodes => Some nodes
          | Throw _ => Some []
          | Diverge => None
          end
      | Throw _ => Some []
      | Diverge => None
      end
  end.

(** [ping]: whether any byte came back. *)
Definition ping_result (received : option cstring) : bool :=
  match received with
  | Some (_ :: _) => true
  | _ => false
  end.

(** The arrivals of one answer: node [i] with the outcome [pong i] of the
    ping its insertion may ask for. *)
Definition with_pongs (pong : nat -> bool) (nodes : list Node) : list (Node * bool) :=
  combine nodes (map pong (seq 0 (length nodes))).

(** [bootstrap]: every seed is asked for the nodes near the local
    identifier and every node of its answer is inserted.  [answer i] is
    what [recvfrom] gives for seed [i], [pong i j] the outcome of the ping
    that the insertion of its node [j] may ask for. *)
Fixpoint bootstrap_from (fuel : nat) (answer : nat -> option cstring)
    (pong : nat -> nat -> bool) (my_node_id : NodeID) (i : nat)
    (seeds : list Node) (routing_table : list Bucket) : option (list Bucket) :=
  match seeds with
  | [] => Some routing_table
  | _ :: seeds' =>
      match find_node_response fuel (answer i) with
      | None => None
      | Some nodes =>
          match add_all my_node_id routing_table (with_pongs (pong i) nodes) with
          | None => None
          | Some routing_table' =>
              bootstrap_from fuel answer pong my_node_id (S i) seeds' routing_table'
          end
      end
  end.

Definition bootstrap (fuel : nat) (answer : nat -> option cstring)
    (pong : nat -> nat -> bool) (st : DHTBootstrap) : option DHTBootstrap :=
  match bootstrap_from fuel answer pong (my_node_id_ st) 0 (bootstrap_nodes_ st)
                       (routing_table_ st) with
  | Some routing_table =>
      Some (mkDHT (my_node_id_ st) routing_table (bootstrap_nodes_ st) (peer_store_ st))
  | None => None
  end.

(** [node_id_to_hex]: two lower-case hexadecimal digits for every byte. *)
Definition hex_digit (n : N) : ascii := nth (N.to_nat n) (lit "0123456789abcdef") zero.

Definition node_id_to_hex (i : NodeID) : cstring :=
  concat (map (fun byte => [hex_digit (N_of_ascii byte / 16);
                            hex_digit (N_of_ascii byte mod 16)]) i).

(** A node as a compact entry holds it: 20 bytes of identifier, an
    address in dotted decimal, a 16-bit port. *)
Definition wire_node (n : Node) : Prop :=
  length (id n) = NODE_ID_SIZE
  /\ (exists a, ip n = inet_ntoa a)
  /\ 0 <= port n < 65536.

(** A value of the C++ type, as a proposition on the results of a parser. *)
Definition result_ok (r : result (BencodedValue * Z)) : Prop :=
  forall v pos, r = Ret (v, pos) -> value_ok v = true.

(** A bucket of [K] nodes. *)
Definition full_bucket : Bucket :=
  map (fun b => sample_node (N.of_nat b)) [2; 4; 6; 8; 10; 12; 14; 16]%nat.

(** The peer that [handle_announce_peer] stores for a datagram's source. *)
Definition announced_peer (peer_id : NodeID) (sender_addr : sockaddr_in) : Node :=
  mkNode peer_id (inet_ntoa (sin_addr sender_addr)) (ntohs (sin_port sender_addr)).

(** The message of [send_find_node_request] and of [ping], as values. *)
Definition find_node_query (my_node_id target_id : NodeID) : BencodedValue :=
  BDict [(lit "a", BDict [(lit "id", BString (id_string my_node_id));
                          (lit "target", BString (id_string target_id))]);
         (lit "q", BString (lit "find_node"));
         (lit "t", BString (lit "aa"));
         (lit "y", BString (lit "q"))].

Definition ping_query (my_node_id : NodeID) : BencodedValue :=
  BDict [(lit "a", BDict [(lit "id", BString (id_string my_node_id))]);
         (lit "q", BString (lit "ping"));
         (lit "t", BString (lit "pp"));
         (lit "y", BString (lit "q"))].

(** The response that carries a compact node list, as a value. *)
Definition nodes_reply (transaction_id : cstring) (my_node_id : NodeID)
    (nodes : cstring) : BencodedValue :=
  BDict [(lit "r", BDict [(lit "id", BString (id_string my_node_id));
                          (lit "nodes", BString nodes)]);
         (lit "t", BString transaction_id);
         (lit "y", BString (lit "r"))].

(** [add_bootstrap_node(ip, port)]: a node with the freshly drawn
    identifier [random_id] joins the seed list. *)
Definition add_bootstrap_node (random_id : NodeID) (ip : cstring) (port : Z)
    (st : DHTBootstrap) : DHTBootstrap :=
  mkDHT (my_node_id_ st) (routing_table_ st)
        (bootstrap_nodes_ st ++ [mkNode random_id ip port]) (peer_store_ st).

(** The engines that the public interface can produce: the constructor,
    then [add_bootstrap_node], [bootstrap] and the turns of [run], in any
    order, as long as no step is undefined. *)
Inductive reachable : DHTBootstrap -> Prop :=
| reachable_new (my_node_id : NodeID) : reachable (new_engine my_node_id)
| reachable_seed (st : DHTBootstrap) (random_id : NodeID) (ip : cstring) (port : Z) :
    reachable st -> reachable (add_bootstrap_node random_id ip port st)
| reachable_bootstrap (st st' : DHTBootstrap) (fuel : nat)
    (answer : nat -> option cstring) (pong : nat -> nat -> bool) :
    reachable st -> bootstrap fuel answer pong st = Some st' -> reachable st'
| reachable_run (st st' : DHTBootstrap) (fuel : nat) (peer_id : NodeID)
    (message_str : cstring) (sender_addr : sockaddr_in) (sent : list datagram) :
    reachable st -> run_once fuel peer_id st message_str sender_addr = Some (st', sent) ->
    reachable st'.

(** The invariant of the engine. *)
Definition engine_ok (st : DHTBootstrap) : Prop :=
  bounded (routing_table_ st)
  /\ Forall (@NoDup Node) (routing_table_ st)
  /\ Forall wire_node (concat (routing_table_ st))
  /\ store_ok (peer_store_ st).


(** An engine that has bootstrapped from one seed, whose answer held the
    nodes [sample_node 1] and [sample_node 3]. *)
Definition sample_seed_answer : cstring :=
  match encode_nodes [sample_node 1; sample_node 3] with
  | Some nodes => encode (nodes_reply (lit "aa") zero_id nodes)
  | None => []
  end.

Definition sample_engine : DHTBootstrap :=
  mkDHT zero_id [[]; [sample_node 1]; [sample_node 3]]
        [mkNode zero_id (lit "67.215.246.10") 6881] [].


(* ------------------------------------------------------------------ *)
(** ** TorrentFileParser (src/torrent_file_parser.cpp) *)

Module Torrent.

Record TorrentFile : Type := mkTorrentFile {
  announce : cstring;
  comment : cstring;
  creationDate : Z;
  name : cstring;
  pieceLength : Z;
  numPieces : Z;
  infoHash : list ascii;
  pieces : list cstring;
  files : list (cstring * Z)
}.

Definition key_error (what : string) (key : cstring) : exn :=
  runtime_error (what ++ string_of_list_ascii key)%string.

(** The callers hand over a [BencodedDict], which converts to a
    [BencodedValue] that holds it. *)
Definition extractString (dict : BencodedValue) (key : cstring) : result cstring :=
  match dict with
  | BDict map =>
      match StdMap.find key map with
      | None => Ret []
      | Some (BString s) => Ret s
      | Some _ => Throw (key_error "Expected a string for key: " key)
      end
  | _ => Throw (runtime_error "Expected a dictionary")
  end.

Definition extractInt (dict : BencodedValue) (key : cstring) : result Z :=
  match dict with
  | BDict map =>
      match StdMap.find key map with
      | None => Ret 0
      | Some (BInt n) => Ret n
      | Some _ => Throw (key_error "Expected an integer for key: " key)
      end
  | _ => Throw (runtime_error "Expected a dictionary")
  end.

(** [for (size_t i = 0; i + 20 <= piecesStr.size(); i += 20)
       pieces.push_back(piecesStr.substr(i, 20));]
    [fuel] bounds the number of turns. *)
Fixpoint split_pieces (fuel : nat) (piecesStr : cstring) (i : nat)
    (pieces : list cstring) : list cstring :=
  match fuel with
  | O => pieces
  | S fuel' =>
      if (i + 20 <=? length piecesStr)%nat
      then split_pieces fuel' piecesStr (i + 20)
                        (pieces ++ [firstn 20 (skipn i piecesStr)])
      else pieces
  end.

Definition extractPieces (dict : BencodedValue) : result (list cstring) :=
  match dict with
  | BDict map =>
      match StdMap.find (lit "pieces") map with
      | None => Throw (runtime_error "Missing 'pieces' key in info dictionary")
      | Some (BString piecesStr) =>
          Ret (split_pieces (length piecesStr) piecesStr 0 [])
      | Some _ => Throw (runtime_error "Expected a string for 'pieces'")
      end
  | _ => Throw (runtime_error "Expected a dictionary")
  end.

(** The inner loop of [extractFiles]: the components are appended to
    [path], with a ["/"] before each one that finds [path] non-empty. *)
Fixpoint join_path (pathList : list BencodedValue) (path : cstring) : result cstring :=
  match pathList with
  | [] => Ret path
  | BString component :: rest =>
      let path := match path with [] => path | _ => path ++ lit "/" end in
      join_path rest (path ++ component)
  | _ :: _ => Throw (runtime_error "Expected a string for path component")
  end.

Definition file_entry (fileDict : BencodedValue) : result (cstring * Z) :=
  match fileDict with
  | BDict fileMap =>
      length <- extractInt (BDict fileMap) (lit "length") ;;
      match StdMap.find (lit "path") fileMap with
      | None => Throw (runtime_error "Missing 'path' key in file entry")
      | Some (BList pathList) =>
          path <- join_path pathList [] ;;
          Ret (path, length)
      | Some _ => Throw (runtime_error "Expected a list for 'path'")
      end
  | _ => Throw (runtime_error "Expected a dictionary for file entry")
  end.

Fixpoint files_loop (filesList : list BencodedValue) (files : list (cstring * Z))
    : result (list (cstring * Z)) :=
  match filesList with
  | [] => Ret files
  | fileDict :: rest =>
      entry <- file_entry fileDict ;;
      files_loop rest (files ++ [entry])
  end.

Definition extractFiles (dict : BencodedValue) : result (list (cstring * Z)) :=
  match dict with
  | BDict map =>
      match StdMap.find (lit "files") map with
      | None => Throw (runtime_error "Missing 'files' key in info dictionary")
      | Some (BList filesList) => files_loop filesList []
      | Some _ => Throw (runtime_error "Expected a list for 'files'")
      end
  | _ => Throw (runtime_error "Expected a dictionary")
  end.

(** [totalFileSize += file.second] over the files; [None] when a sum
    leaves [int64_t], which is undefined. *)
Fixpoint sum_sizes (files : list (cstring * Z)) (totalFileSize : Z) : option Z :=
  match files with
  | [] => Some totalFileSize
  | file :: rest =>
      let total := totalFileSize + snd file in
      if (total <? INT64_MIN) || (INT64_MAX <? total) then None
      else sum_sizes rest total
  end.

(** The conversion of an [int64_t] to [int]. *)
Definition to_int (z : Z) : Z := (z + 2 ^ 31) mod 2 ^ 32 - 2 ^ 31.

(** [(total / pieceLength) + ((total % pieceLength) > 0 ? 1 : 0)], stored
    in an [int]; [None] when the division is undefined. *)
Definition count_pieces (totalFileSize pieceLength : Z) : option Z :=
  if pieceLength =? 0 then None
  else if (totalFileSize =? INT64_MIN) && (pieceLength =? -1) then None
  else Some (to_int (Z.quot totalFileSize pieceLength
                     + (if 0 <? Z.rem totalFileSize pieceLength then 1 else 0))).

(** What [parse] has extracted when it comes to count the pieces. *)
Record extracted : Type := mkExtracted {
  x_announce : cstring;
  x_comment : cstring;
  x_creationDate : Z;
  x_name : cstring;
  x_pieceLength : Z;
  x_pieces : list cstring;
  x_files : list (cstring * Z);
  x_total : option Z;
  x_info : BencodedDict
}.

Definition extract (parsedData : BencodedValue) : result extracted :=
  match parsedData with
  | BDict rootDict =>
      match StdMap.find (lit "info") rootDict with
      | Some (BDict infoDict) =>
          announce <- extractString (BDict rootDict) (lit "announce") ;;
          comment <- extractString (BDict rootDict) (lit "comment") ;;
          creationDate <- extractInt (BDict rootDict) (lit "creation date") ;;
          name <- extractString (BDict infoDict) (lit "name") ;;
          pieceLength <- extractInt (BDict infoDict) (lit "piece length") ;;
          pieces <- extractPieces (BDict infoDict) ;;
          match StdMap.find (lit "length") infoDict with
          | Some _ =>
              totalFileSize <- extractInt (BDict infoDict) (lit "length") ;;
              Ret (mkExtracted announce comment creationDate name pieceLength pieces
                               [(name, totalFileSize)] (Some totalFileSize) infoDict)
          | None =>
              files <- extractFiles (BDict infoDict) ;;
              Ret (mkExtracted announce comment creationDate name pieceLength pieces
                               files (sum_sizes files 0) infoDict)
          end
      | _ => Throw (runtime_error "Invalid .torrent file format: Missing 'info' dictionary")
      end
  | _ => Throw (runtime_error "Invalid .torrent file format: Root is not a dictionary")
  end.

Section Parse.

(** [computeSHA1] hands the bytes to OpenSSL's [SHA1]. *)
Variable computeSHA1 : cstring -> list ascii.

(** [parse]: [file] is the content of the file at [filePath], [None] when
    it cannot be opened.  The outcome is [None] when the behaviour is
    undefined. *)
Definition parse (fuel : nat) (file : option cstring) : option (result TorrentFile) :=
  match file with
  | None => Some (Throw (runtime_error "Failed to open .torrent file"))
  | Some data =>
      match (parsedData <- parse fuel data ;; extract parsedData) with
      | Ret x =>
          match x_total x with
          | None => None
          | Some totalFileSize =>
              match count_pieces totalFileSize (x_pieceLength x) with
              | None => None
              | Some numPieces =>
                  let encodedInfo := encode (BDict (x_info x)) in
                  Some (Ret (mkTorrentFile (x_announce x) (x_comment x)
                                           (x_creationDate x) (x_name x)
                                           (x_pieceLength x) numPieces
                                           (computeSHA1 encodedInfo)
                                           (x_pieces x) (x_files x)))
              end
          end
      | Throw e => Some (Throw e)
      | Diverge => Some Diverge
      end
  end.

End Parse.

End Torrent.

(** The components of a path joined by ["/"], as the specification of a
    path, and a list of components without its leading empty ones. *)
Fixpoint joined (components : list cstring) : cstring :=
  match components with
  | [] => []
  | [component] => component
  | component :: rest => component ++ lit "/" ++ joined rest
  end.

Fixpoint without_leading_empty (components : list cstring) : list cstring :=
  match components with
  | [] :: rest => without_leading_empty rest
  | _ => components
  end.

(** A single-file torrent in canonical form, and a hash that returns its
    input. *)
Definition sample_info : wire :=
  WDict [(lit "length", WInt 50); (lit "name", WStr (lit "a.txt"));
         (lit "piece length", WInt 16);
         (lit "pieces", WStr (lit "0123456789abcdefghij0123456789ABCDEFGHIJ"))].

Definition sample_torrent : wire :=
  WDict [(lit "announce", WStr (lit "http://t/a")); (lit "info", sample_info)].

(** The sum of the sizes of a file list. *)
Definition total_size (files : list (cstring * Z)) : Z :=
  fold_right (fun file total => snd file + total) 0 files.

(** The sample torrent without its piece length. *)
Definition sample_torrent_without_piece_length : wire :=
  WDict [(lit "announce", WStr (lit "http://t/a"));
         (lit "info",
          WDict [(lit "length", WInt 50); (lit "name", WStr (lit "a.txt"));
                 (lit "pieces", WStr (lit "0123456789abcdefghij"))])].

(** The value of a hexadecimal digit and the bytes that a hexadecimal
    string spells, two digits to a byte. *)
Definition hex_value (c : ascii) : N :=
  let n := N_of_ascii c in
  if (n <? 58)%N then (n - 48)%N else (n - 87)%N.

Fixpoint from_hex (s : cstring) : list ascii :=
  match s with
  | high :: low :: rest => ascii_of_N (16 * hex_value high + hex_value low) :: from_hex rest
  | _ => []
  end.

(* ================================================================== *)
(** * Properties *)

(** ** Checks on concrete inputs *)

Example to_string_ex1 : to_string 1234 = lit "1234".
Proof. reflexivity. Qed.

Example to_string_ex2 : to_string (-9223372036854775808) = lit "-9223372036854775808".
Proof. reflexivity. Qed.

Example to_string_ex3 : to_string 0 = lit "0".
Proof. reflexivity. Qed.

Example stoll_ex1 : stoll (lit "01") = Ret 1.
Proof. reflexivity. Qed.

Example stoll_ex2 : stoll (lit "-0") = Ret 0.
Proof. reflexivity. Qed.

Example stoll_ex3 : stoll (lit "X") = Throw (invalid_argument "stoll").
Proof. reflexivity. Qed.

Example stoll_ex4 : stoll (lit "9223372036854775808") = Throw (out_of_range "stoll").
Proof. reflexivity. Qed.

Example stoll_ex5 : stoll (lit " +12ab") = Ret 12.
Proof. reflexivity. Qed.

Example parse_ex1 :
  parse 5 (lit "li42e5:helloli1ei2eee")
  = Ret (BList [BInt 42; BString (lit "hello"); BList [BInt 1; BInt 2]]).
Proof. reflexivity. Qed.

Example parse_ex2 : parse 5 (lit "d3:keyi42ee") = Ret (BDict [(lit "key", BInt 42)]).
Proof. reflexivity. Qed.

(** Where a key is expected, a byte string with a negative length moves
    the cursor back: the length is added to the cursor as an unsigned
    number.  The parse may still come to an end, or never do so. *)
Example parse_ex3 :
  parse 5 (lit "d-2:i1ee") = Ret (BDict [(lit "i1ee", BString (lit "i1"))]).
Proof. reflexivity. Qed.

Example parse_ex4 : parse 50 (lit "d-4:") = Diverge.
Proof. reflexivity. Qed.

(** The run of insertions that reaches the read past the distance array:
    161 arrivals of the node whose distance has every bit set. *)
Example add_all_ex1 :
  let far := mkNode (repeat (ascii_of_N 255) NODE_ID_SIZE) (lit "10.0.0.2") 6881 in
  add_all zero_id initial_table (repeat (far, true) 160) <> None
  /\ add_all zero_id initial_table (repeat (far, true) 161) = None.
Proof. split; [vm_compute; discriminate | vm_compute; reflexivity]. Qed.

(** ** Strings, decimal numerals *)

Section StringFacts.

Lemma N_of_ascii_inj (x y : ascii) : N_of_ascii x = N_of_ascii y -> x = y.
Proof.
intros H. rewrite <- (ascii_N_embedding x), <- (ascii_N_embedding y).
now rewrite H.
Qed.

Lemma compare_refl (a : cstring) : Str.compare a a = Eq.
Proof.
induction a as [|x a IH]; simpl; [reflexivity|].
now rewrite N.compare_refl.
Qed.

Lemma compare_eq (a b : cstring) : Str.compare a b = Eq -> a = b.
Proof.
revert b; induction a as [|x a IH]; intros [|y b]; simpl; try discriminate; auto.
destruct (N.compare_spec (N_of_ascii x) (N_of_ascii y)) as [E|L|G];
  try discriminate.
intros H. apply N_of_ascii_inj in E. f_equal; auto.
Qed.

Lemma compare_eq_iff (a b : cstring) : Str.compare a b = Eq <-> a = b.
Proof. split; [apply compare_eq | intros ->; apply compare_refl]. Qed.

Lemma compare_antisym (a b : cstring) : Str.compare b a = CompOpp (Str.compare a b).
Proof.
revert b; induction a as [|x a IH]; intros [|y b]; simpl; auto.
rewrite (N.compare_antisym (N_of_ascii x) (N_of_ascii y)).
destruct (N.compare (N_of_ascii x) (N_of_ascii y)); simpl; auto.
Qed.

Lemma compare_lt_trans (a b c : cstring) :
Str.compare a b = Lt -> Str.compare b c = Lt -> Str.compare a c = Lt.
Proof.
revert b c; induction a as [|x a IH]; intros [|y b] [|z c]; simpl;
  try discriminate; auto.
destruct (N.compare_spec (N_of_ascii x) (N_of_ascii y)) as [E1|L1|G1];
  try discriminate;
  destruct (N.compare_spec (N_of_ascii y) (N_of_ascii z)) as [E2|L2|G2];
  try discriminate; intros H1 H2.
- rewrite E1, E2, N.compare_refl. eauto.
- rewrite E1. now apply N.compare_lt_iff in L2 as ->.
- rewrite <- E2. now apply N.compare_lt_iff in L1 as ->.
- assert (L : (N_of_ascii x < N_of_ascii z)%N) by lia.
  now apply N.compare_lt_iff in L as ->.
Qed.

Lemma ltb_lt (a b : cstring) : Str.ltb a b = true <-> Str.compare a b = Lt.
Proof. unfold Str.ltb. destruct (Str.compare a b); split; congruence. Qed.

Lemma eqb_eq (a b : cstring) : Str.eqb a b = true <-> a = b.
Proof.
unfold Str.eqb. rewrite <- compare_eq_iff.
destruct (Str.compare a b); split; congruence.
Qed.

Lemma eqb_refl (a : cstring) : Str.eqb a a = true.
Proof. now apply eqb_eq. Qed.

Lemma ltb_irrefl (a : cstring) : Str.ltb a a = false.
Proof. unfold Str.ltb. now rewrite compare_refl. Qed.

Lemma ltb_trans (a b c : cstring) :
Str.ltb a b = true -> Str.ltb b c = true -> Str.ltb a c = true.
Proof. rewrite !ltb_lt. apply compare_lt_trans. Qed.

Lemma size_app (a b : cstring) : size (a ++ b) = size a + size b.
Proof. unfold size. rewrite length_app. lia. Qed.

Lemma size_nonneg (a : cstring) : 0 <= size a.
Proof. unfold size. lia. Qed.

Lemma size_cons (c : ascii) (a : cstring) : size (c :: a) = 1 + size a.
Proof. unfold size. simpl length. lia. Qed.

Lemma to_size_t_small (z : Z) : 0 <= z < SIZE_MOD -> to_size_t z = z.
Proof. intros H. unfold to_size_t. now apply Z.mod_small. Qed.

(** *** Reading inside a concatenation *)

Lemma skipn_size_app (pre rest : cstring) :
skipn (Z.to_nat (size pre)) (pre ++ rest) = rest.
Proof.
unfold size. rewrite Nat2Z.id, skipn_app, skipn_all, Nat.sub_diag. reflexivity.
Qed.

Lemma at_app (pre : cstring) (c : ascii) (rest : cstring) :
at_ (pre ++ c :: rest) (size pre) = c.
Proof.
unfold at_, size. rewrite Nat2Z.id, app_nth2, Nat.sub_diag by lia. reflexivity.
Qed.

Lemma find_in_app (c : ascii) (mid rest : cstring) (i : Z) :
~ In c mid -> find_in c (mid ++ c :: rest) i = i + size mid.
Proof.
revert i; induction mid as [|x mid IH]; intros i Hn; simpl.
- rewrite Ascii.eqb_refl. unfold size; simpl; lia.
- destruct (Ascii.eqb x c) eqn:E.
  + apply Ascii.eqb_eq in E. exfalso. apply Hn. now left.
  + rewrite IH, size_cons; [lia|]. intros HIn. apply Hn. now right.
Qed.

Lemma find_app (c : ascii) (pre mid rest : cstring) :
~ In c mid ->
find (pre ++ mid ++ c :: rest) c (size pre) = size pre + size mid.
Proof.
intros Hn. unfold find. rewrite skipn_size_app. now apply find_in_app.
Qed.

Lemma substr_app (pre mid rest : cstring) :
substr (pre ++ mid ++ rest) (size pre) (size mid) = Ret mid.
Proof.
unfold substr. rewrite !size_app.
pose proof (size_nonneg mid). pose proof (size_nonneg rest).
destruct (Z.ltb_spec (size pre + (size mid + size rest)) (size pre)); [lia|].
rewrite skipn_size_app, Z.min_l by lia.
unfold size. rewrite Nat2Z.id, firstn_app, firstn_all, Nat.sub_diag. simpl.
now rewrite app_nil_r.
Qed.

(** *** Decimal numerals *)

Lemma digit_char_spec (d : Z) :
0 <= d < 10 -> isdigit (digit_char d) = true /\ digit_val (digit_char d) = d.
Proof.
intros H.
assert (C : d = 0 \/ d = 1 \/ d = 2 \/ d = 3 \/ d = 4 \/ d = 5 \/ d = 6
            \/ d = 7 \/ d = 8 \/ d = 9) by lia.
repeat (destruct C as [-> | C]; [split; reflexivity|]). subst; split; reflexivity.
Qed.

Lemma half_pow (n : Z) (f : nat) :
0 <= n < 2 ^ Z.of_nat (S f) -> 0 <= n / 10 < 2 ^ Z.of_nat f.
Proof.
intros [H0 H1]. split; [apply Z.div_pos; lia|].
rewrite Nat2Z.inj_succ, Z.pow_succ_r in H1 by lia.
apply Z.div_lt_upper_bound; lia.
Qed.

Lemma digits_fuel_enough (n : Z) : 0 <= n -> n < 2 ^ Z.of_nat (digits_fuel n).
Proof.
intros H. unfold digits_fuel.
rewrite Nat2Z.inj_succ, Z2Nat.id by apply Z.log2_nonneg.
destruct (Z.eq_dec n 0) as [->|Hn]; [reflexivity|].
apply Z.log2_spec. lia.
Qed.

Lemma to_digits_app (f : nat) (n : Z) (acc : cstring) :
to_digits f n acc = to_digits f n [] ++ acc.
Proof.
revert n acc; induction f as [|f IH]; intros n acc; simpl; [reflexivity|].
destruct (n <? 10); [reflexivity|].
rewrite (IH (n / 10) (_ :: acc)), (IH (n / 10) [_]), <- app_assoc. reflexivity.
Qed.

Lemma to_digits_all_digits (f : nat) (n : Z) (acc : cstring) :
0 <= n -> Forall numeral_char acc -> Forall numeral_char (to_digits f n acc).
Proof.
revert n acc; induction f as [|f IH]; intros n acc Hn Hacc; simpl; [assumption|].
assert (Hd : numeral_char (digit_char (n mod 10))).
{ apply digit_char_spec. apply Z.mod_pos_bound. lia. }
destruct (n <? 10); [now constructor|].
apply IH; [apply Z.div_pos; lia | now constructor].
Qed.

Lemma to_digits_read (f : nat) (n : Z) (acc : cstring) (c : nat) :
0 <= n < 2 ^ Z.of_nat (S f) ->
exists k, read_digits (to_digits (S f) n acc) 0 c = read_digits acc n (S (c + k)).
Proof.
revert n acc c; induction f as [|f IH]; intros n acc c Hn;
  cbn [to_digits];
  (destruct (digit_char_spec (n mod 10)) as [Hd Hv];
    [apply Z.mod_pos_bound; lia|]);
  destruct (Z.ltb_spec n 10) as [Hlt|Hge].
- exists O. cbn [read_digits]. rewrite Hd, Hv, Z.mod_small by lia.
  rewrite Nat.add_0_r. reflexivity.
- exfalso. change (2 ^ Z.of_nat 1) with 2 in Hn. lia.
- exists O. cbn [read_digits]. rewrite Hd, Hv, Z.mod_small by lia.
  rewrite Nat.add_0_r. reflexivity.
- destruct (IH (n / 10) (digit_char (n mod 10) :: acc) c) as [k Hk];
    [now apply half_pow|].
  exists (S k). cbn [to_digits] in Hk. rewrite Hk. cbn [read_digits].
  rewrite Hd, Hv.
  replace (n / 10 * 10 + n mod 10) with n
    by (pose proof (Z.div_mod n 10); lia).
  f_equal. lia.
Qed.

Lemma to_digits_nonempty (f : nat) (n : Z) :
exists c rest, to_digits (S f) n [] = c :: rest /\ isdigit c = true.
Proof.
destruct (to_digits (S f) n []) as [|c rest] eqn:E.
- exfalso. cbn [to_digits] in E. destruct (n <? 10); [discriminate|].
  rewrite to_digits_app in E. now destruct (to_digits f (n / 10) []).
- exists c, rest. split; [reflexivity|].
  assert (H : Forall numeral_char (to_digits (S f) (Z.abs n) [])).
  { apply to_digits_all_digits; [lia | constructor]. }
  cbn [to_digits] in E.
  destruct (n <? 10) eqn:E10.
  + injection E as <- <-.
    apply digit_char_spec, Z.mod_pos_bound. lia.
  + rewrite to_digits_app in E.
    destruct (Z.ltb_spec n 10); [discriminate|].
    assert (H' : Forall numeral_char (to_digits f (n / 10) [])).
    { apply to_digits_all_digits; [apply Z.div_pos; lia | constructor]. }
    destruct (to_digits f (n / 10) []) as [|c' r'].
    * simpl in E. injection E as <- <-.
      apply digit_char_spec, Z.mod_pos_bound. lia.
    * simpl in E. injection E as <- <-. now inversion H'.
Qed.

Lemma isdigit_code (c : ascii) : isdigit c = true <-> 48 <= code c <= 57.
Proof. unfold isdigit. rewrite andb_true_iff, !Z.leb_le. reflexivity. Qed.

Lemma isdigit_not_space (c : ascii) : isdigit c = true -> isspace c = false.
Proof.
rewrite isdigit_code. intros H. unfold isspace.
apply orb_false_iff. split.
- apply andb_false_iff. right. apply Z.leb_gt. lia.
- apply Z.eqb_neq. lia.
Qed.

Lemma isdigit_neq (c x : ascii) :
isdigit c = true -> isdigit x = false -> Ascii.eqb c x = false.
Proof.
intros Hc Hx. apply Ascii.eqb_neq. intros ->. congruence.
Qed.

Lemma to_string_nonneg (z : Z) :
0 <= z -> to_string z = to_digits (digits_fuel z) z [].
Proof. intros H. unfold to_string. destruct (Z.ltb_spec z 0); [lia|reflexivity]. Qed.

Lemma to_string_neg (z : Z) :
z < 0 -> to_string z = "-"%char :: to_digits (digits_fuel (- z)) (- z) [].
Proof. intros H. unfold to_string. destruct (Z.ltb_spec z 0); [reflexivity|lia]. Qed.

(** A numeral holds digits, behind a minus sign when negative. *)
Lemma to_string_chars (z : Z) :
Forall (fun c => isdigit c = true \/ c = "-"%char) (to_string z).
Proof.
assert (W : forall l, Forall numeral_char l ->
              Forall (fun c => isdigit c = true \/ c = "-"%char) l).
{ intros l Hl. eapply Forall_impl; [|exact Hl]. intros c Hc. now left. }
destruct (Z.ltb_spec z 0).
- rewrite to_string_neg by assumption. constructor; [now right|].
  apply W, to_digits_all_digits; [lia|constructor].
- rewrite to_string_nonneg by assumption.
  apply W, to_digits_all_digits; [lia|constructor].
Qed.

Lemma to_string_avoids (z : Z) (c : ascii) :
isdigit c = false -> c <> "-"%char -> ~ In c (to_string z).
Proof.
intros Hc Hm HIn. pose proof (to_string_chars z) as F.
rewrite Forall_forall in F. destruct (F c HIn) as [Hd| ->]; congruence.
Qed.

Lemma to_string_head_nonneg (z : Z) :
0 <= z -> exists c rest, to_string z = c :: rest /\ isdigit c = true.
Proof.
intros H. rewrite to_string_nonneg by assumption. apply to_digits_nonempty.
Qed.

(** [stoll] reads back what [to_string] wrote, and refuses what does not
  fit 64 bits. *)
Lemma stoll_to_string_any (z : Z) :
stoll (to_string z)
= if (z <? INT64_MIN) || (INT64_MAX <? z) then Throw (out_of_range "stoll")
  else Ret z.
Proof.
unfold stoll.
destruct (Z.ltb_spec z 0) as [Hneg|Hpos].
- rewrite to_string_neg by assumption.
  cbn [skip_spaces]. change (isspace "-") with false. cbv iota.
  change (Ascii.eqb "-" "-") with true. cbv iota.
  destruct (to_digits_read (Z.to_nat (Z.log2 (- z))) (- z) [] O) as [k Hk].
  { split; [lia|]. apply (digits_fuel_enough (- z)). lia. }
  unfold digits_fuel. rewrite Hk. cbn [read_digits].
  rewrite Z.opp_involutive. reflexivity.
- destruct (to_string_head_nonneg z Hpos) as (c & rest & E & Hd).
  pose proof (to_string_nonneg z Hpos) as E'.
  rewrite E. cbn [skip_spaces]. rewrite (isdigit_not_space _ Hd).
  rewrite (isdigit_neq c "-" Hd eq_refl), (isdigit_neq c "+" Hd eq_refl).
  rewrite <- E, E'.
  destruct (to_digits_read (Z.to_nat (Z.log2 z)) z [] O) as [k Hk].
  { split; [lia|]. now apply digits_fuel_enough. }
  unfold digits_fuel. rewrite Hk. cbn [read_digits]. reflexivity.
Qed.

Lemma stoll_to_string (z : Z) :
INT64_MIN <= z <= INT64_MAX -> stoll (to_string z) = Ret z.
Proof.
intros Hr. rewrite stoll_to_string_any.
replace ((z <? INT64_MIN) || (INT64_MAX <? z)) with false; [reflexivity|].
symmetry. apply orb_false_iff. split; apply Z.ltb_ge; lia.
Qed.

End StringFacts.

(** ** The parser on well-formed input *)

Section WireInduction.
Variable P : wire -> Prop.
Hypothesis HInt : forall n, P (WInt n).
Hypothesis HStr : forall s, P (WStr s).
Hypothesis HList : forall items, Forall P items -> P (WList items).
Hypothesis HDict :
  forall entries, Forall (fun kv => P (snd kv)) entries -> P (WDict entries).

Fixpoint wire_nested_ind (w : wire) : P w :=
  match w with
  | WInt n => HInt n
  | WStr s => HStr s
  | WList items =>
      HList items ((fix go (l : list wire) : Forall P l :=
                match l with
                | [] => Forall_nil _
                | x :: l' => @Forall_cons _ _ x l' (wire_nested_ind x) (go l')
                end) items)
  | WDict entries =>
      HDict entries ((fix go (l : list (cstring * wire))
                : Forall (fun kv => P (snd kv)) l :=
                match l with
                | [] => Forall_nil _
                | kv :: l' => @Forall_cons _ _ kv l' (wire_nested_ind (snd kv)) (go l')
                end) entries)
  end.
End WireInduction.

Section ValueInduction.
Variable P : BencodedValue -> Prop.
Hypothesis HInt : forall n, P (BInt n).
Hypothesis HStr : forall s, P (BString s).
Hypothesis HList : forall l, Forall P l -> P (BList l).
Hypothesis HDict : forall d, Forall (fun kv => P (snd kv)) d -> P (BDict d).

Fixpoint value_nested_ind (v : BencodedValue) : P v :=
  match v with
  | BInt n => HInt n
  | BString s => HStr s
  | BList l =>
      HList l ((fix go (l : list BencodedValue) : Forall P l :=
                match l with
                | [] => Forall_nil _
                | x :: l' => @Forall_cons _ _ x l' (value_nested_ind x) (go l')
                end) l)
  | BDict d =>
      HDict d ((fix go (l : list (cstring * BencodedValue))
                : Forall (fun kv => P (snd kv)) l :=
                match l with
                | [] => Forall_nil _
                | kv :: l' => @Forall_cons _ _ kv l' (value_nested_ind (snd kv)) (go l')
                end) d)
  end.
End ValueInduction.

Lemma fits_size_mod (data : cstring) : fits data -> size data < SIZE_MOD.
Proof. unfold fits, SIZE_MOD. lia. Qed.

(** Linear arithmetic with the constants of the 64-bit types spelled out. *)
Ltac bounds :=
  unfold fits, npos, SIZE_MOD, INT64_MIN, INT64_MAX in *;
  change (2 ^ 63) with 9223372036854775808 in *;
  change (2 ^ 64) with 18446744073709551616 in *;
  lia.

(** A rendering begins with its tag, which is never the terminator. *)
Lemma render_head (w : wire) :
  exists c r, render w = c :: r
    /\ (c = "i"%char \/ c = "l"%char \/ c = "d"%char \/ isdigit c = true).
Proof.
  destruct w as [n|s|items|entries]; simpl.
  - eexists _, _. split; [reflexivity|]. now left.
  - unfold render_key.
    destruct (to_string_head_nonneg (size s) (size_nonneg s)) as (c & r & E & Hd).
    rewrite E. simpl. eexists _, _. split; [reflexivity|]. now right; right; right.
  - eexists _, _. split; [reflexivity|]. now right; left.
  - eexists _, _. split; [reflexivity|]. now right; right; left.
Qed.

Lemma tag_not_e (c : ascii) :
  c = "i"%char \/ c = "l"%char \/ c = "d"%char \/ isdigit c = true ->
  Ascii.eqb c "e" = false.
Proof.
  intros [->|[->|[->|Hd]]]; try reflexivity. now apply isdigit_neq.
Qed.

Lemma parseInt_numeral (pre rest : cstring) (n : Z) :
  fits (pre ++ "i"%char :: to_string n ++ "e"%char :: rest) ->
  parseInt (pre ++ "i"%char :: to_string n ++ "e"%char :: rest) (size pre)
  = if (n <? INT64_MIN) || (INT64_MAX <? n)
    then Throw (runtime_error "Invalid integer value")
    else Ret (n, size pre + size ("i"%char :: to_string n ++ ["e"%char])).
Proof.
  intros Hfit. apply fits_size_mod in Hfit.
  set (num := to_string n) in *.
  assert (Hsz : size (pre ++ "i"%char :: num ++ "e"%char :: rest)
                = size pre + 1 + size num + 1 + size rest).
  { rewrite size_app, size_cons, size_app, size_cons. lia. }
  rewrite Hsz in Hfit.
  assert (Hdata : pre ++ "i"%char :: num ++ "e"%char :: rest
                  = (pre ++ ["i"%char]) ++ num ++ "e"%char :: rest).
  { now rewrite <- app_assoc. }
  rewrite Hdata.
  pose proof (size_nonneg pre). pose proof (size_nonneg num).
  pose proof (size_nonneg rest).
  assert (Hp : size (pre ++ ["i"%char]) = size pre + 1).
  { rewrite size_app. reflexivity. }
  unfold parseInt.
  rewrite (to_size_t_small (size pre + 1)) by lia.
  rewrite <- Hp, find_app
    by (apply to_string_avoids; [reflexivity | discriminate]).
  rewrite Hp.
  destruct (Z.eqb_spec (size pre + 1 + size num) npos) as [E|_];
    [unfold npos in E; lia|].
  replace (size pre + 1 + size num - (size pre + 1)) with (size num) by lia.
  rewrite (to_size_t_small (size num)) by lia.
  rewrite <- Hp.
  replace ((pre ++ ["i"%char]) ++ num ++ "e"%char :: rest)
    with ((pre ++ ["i"%char]) ++ num ++ ("e"%char :: rest)) by reflexivity.
  rewrite substr_app. cbn [bind]. rewrite Hp.
  unfold num at 1. rewrite stoll_to_string_any.
  destruct ((n <? INT64_MIN) || (INT64_MAX <? n)); [reflexivity|].
  rewrite to_size_t_small by lia.
  f_equal. f_equal. rewrite size_cons, size_app. change (size ["e"%char]) with 1. lia.
Qed.

Lemma parseInt_render (pre rest : cstring) (n : Z) :
  INT64_MIN <= n <= INT64_MAX ->
  fits (pre ++ "i"%char :: to_string n ++ "e"%char :: rest) ->
  parseInt (pre ++ "i"%char :: to_string n ++ "e"%char :: rest) (size pre)
  = Ret (n, size pre + size ("i"%char :: to_string n ++ ["e"%char])).
Proof.
  intros Hn Hfit. rewrite parseInt_numeral by assumption.
  replace ((n <? INT64_MIN) || (INT64_MAX <? n)) with false; [reflexivity|].
  symmetry. apply orb_false_iff. split; apply Z.ltb_ge; lia.
Qed.

Lemma parseString_render (pre rest s : cstring) :
  fits (pre ++ render_key s ++ rest) ->
  parseString (pre ++ render_key s ++ rest) (size pre)
  = Ret (s, size pre + size (render_key s)).
Proof.
  intros Hfit. unfold fits, render_key in *.
  set (num := to_string (size s)) in *.
  change (lit ":" ++ s) with (":"%char :: s) in *.
  assert (Hdata : pre ++ (num ++ ":"%char :: s) ++ rest
                  = pre ++ num ++ ":"%char :: (s ++ rest)).
  { now rewrite <- app_assoc. }
  assert (Hdata2 : pre ++ num ++ ":"%char :: (s ++ rest)
                  = (pre ++ num ++ [":"%char]) ++ s ++ rest).
  { now rewrite <- !app_assoc. }
  rewrite Hdata in *.
  pose proof (size_nonneg pre). pose proof (size_nonneg num).
  pose proof (size_nonneg rest). pose proof (size_nonneg s).
  assert (Hsz : size (pre ++ num ++ ":"%char :: s ++ rest)
                = size pre + size num + 1 + size s + size rest).
  { rewrite !size_app, size_cons, size_app. lia. }
  rewrite Hsz in Hfit.
  assert (Hp : size (pre ++ num ++ [":"%char]) = size pre + size num + 1).
  { rewrite !size_app. change (size [":"%char]) with 1. lia. }
  unfold parseString.
  rewrite find_app by (apply to_string_avoids; [reflexivity | discriminate]).
  destruct (Z.eqb_spec (size pre + size num) npos) as [E|_]; [bounds|].
  replace (size pre + size num - size pre) with (size num) by lia.
  rewrite (to_size_t_small (size num)) by bounds.
  rewrite substr_app. cbn [bind].
  unfold num at 1. rewrite stoll_to_string by bounds.
  cbn [bind].
  rewrite (to_size_t_small (size pre + size num + 1)) by bounds.
  rewrite (to_size_t_small (size pre + size num + 1 + size s)) by bounds.
  rewrite Hsz.
  destruct (Z.ltb_spec (size pre + size num + 1 + size s + size rest)
                       (size pre + size num + 1 + size s)); [lia|].
  rewrite (to_size_t_small (size s)) by bounds.
  rewrite Hdata2, <- Hp, substr_app. cbn [bind].
  rewrite Hp. f_equal. f_equal. rewrite size_app, size_cons. lia.
Qed.

Lemma render_key_head (k : cstring) :
  exists c r, render_key k = c :: r /\ isdigit c = true.
Proof.
  unfold render_key.
  destruct (to_string_head_nonneg (size k) (size_nonneg k)) as (c & r & E & Hd).
  rewrite E. simpl. eauto.
Qed.

Section LoopFacts.
Variable pv : cstring -> Z -> result (BencodedValue * Z).

Lemma loop_exit (pre rest : cstring) :
  fits (pre ++ "e"%char :: rest) ->
  (size pre <? size (pre ++ "e"%char :: rest))
    && negb (Ascii.eqb (at_ (pre ++ "e"%char :: rest) (size pre)) "e") = false
  /\ (size (pre ++ "e"%char :: rest) <=? size pre)
     || negb (Ascii.eqb (at_ (pre ++ "e"%char :: rest) (size pre)) "e") = false
  /\ to_size_t (size pre + 1) = size pre + 1.
Proof.
  intros Hfit. unfold fits in Hfit. rewrite at_app. simpl negb.
  rewrite size_app, size_cons in *.
  pose proof (size_nonneg pre). pose proof (size_nonneg rest).
  repeat split.
  - apply andb_false_r.
  - rewrite orb_false_r. apply Z.leb_gt. lia.
  - apply to_size_t_small. bounds.
Qed.

Lemma loop_enter (pre rest : cstring) (c : ascii) :
  Ascii.eqb c "e" = false ->
  (size pre <? size (pre ++ c :: rest))
    && negb (Ascii.eqb (at_ (pre ++ c :: rest) (size pre)) "e") = true.
Proof.
  intros Hc. rewrite at_app, Hc, size_app, size_cons.
  pose proof (size_nonneg rest).
  apply andb_true_iff. split; [apply Z.ltb_lt; lia | reflexivity].
Qed.

Lemma parseList_loop_render (items : list wire) :
  Forall (parses_at pv) items ->
  forall iters acc pre rest,
    (length items < iters)%nat ->
    fits (pre ++ concat (map render items) ++ "e"%char :: rest) ->
    parseList_loop pv iters (pre ++ concat (map render items) ++ "e"%char :: rest)
                   (size pre) acc
    = Ret (acc ++ map denote items,
           size pre + size (concat (map render items)) + 1).
Proof.
  induction 1 as [|w items Hw _ IH]; intros iters acc pre rest Hit Hfit;
    (destruct iters as [|iters]; [simpl in Hit; lia|]); cbn [parseList_loop].
  - cbn [map concat app] in *.
    destruct (loop_exit pre rest Hfit) as (E1 & E2 & E3).
    rewrite E1, E2, E3, app_nil_r. change (size []) with 0.
    now rewrite Z.add_0_r.
  - cbn [map concat] in *. rewrite <- app_assoc in *.
    destruct (render_head w) as (c & r & E & Htag).
    assert (Hcond := loop_enter pre (r ++ concat (map render items) ++ "e"%char :: rest)
                                c (tag_not_e c Htag)).
    rewrite E in *. cbn [app] in Hcond. rewrite <- !app_comm_cons.
    rewrite Hcond. rewrite !app_comm_cons, <- E in *.
    rewrite (Hw pre _ Hfit). cbn [bind].
    rewrite <- size_app.
    replace (pre ++ render w ++ concat (map render items) ++ "e"%char :: rest)
      with ((pre ++ render w) ++ concat (map render items) ++ "e"%char :: rest) in *
      by (now rewrite <- app_assoc).
    rewrite IH; [| simpl in Hit; lia | assumption].
    rewrite <- app_assoc. cbn [app]. f_equal. f_equal.
    rewrite !size_app. lia.
Qed.

Lemma parseDict_loop_render (entries : list (cstring * wire)) :
  Forall (fun kv => parses_at pv (snd kv)) entries ->
  forall iters acc pre rest,
    (length entries < iters)%nat ->
    fits (pre ++ concat (map render_entry entries) ++ "e"%char :: rest) ->
    parseDict_loop pv iters
                   (pre ++ concat (map render_entry entries) ++ "e"%char :: rest)
                   (size pre) acc
    = Ret (fold_left assign_entry (map denote_entry entries) acc,
           size pre + size (concat (map render_entry entries)) + 1).
Proof.
  induction 1 as [|[k w] entries Hw _ IH]; intros iters acc pre rest Hit Hfit;
    (destruct iters as [|iters]; [simpl in Hit; lia|]); cbn [parseDict_loop].
  - cbn [map concat app fold_left] in *.
    destruct (loop_exit pre rest Hfit) as (E1 & E2 & E3).
    rewrite E1, E2, E3. change (size []) with 0.
    now rewrite Z.add_0_r.
  - cbn [map concat fold_left] in *.
    change (render_entry (k, w)) with (render_key k ++ render w) in *.
    change (assign_entry acc (denote_entry (k, w)))
      with (StdMap.assign k (denote w) acc).
    cbn [fst snd] in *.
    rewrite <- !app_assoc in *.
    destruct (render_key_head k) as (c & r & E & Hd).
    assert (Hcond := loop_enter pre
              (r ++ render w ++ concat (map render_entry entries) ++ "e"%char :: rest)
              c (isdigit_neq c "e" Hd eq_refl)).
    rewrite E in *. cbn [app] in Hcond. rewrite <- !app_comm_cons.
    rewrite Hcond. rewrite !app_comm_cons, <- E in *.
    rewrite (parseString_render pre _ k Hfit). cbn [bind].
    rewrite <- size_app.
    replace (pre ++ render_key k ++ render w
                 ++ concat (map render_entry entries) ++ "e"%char :: rest)
      with ((pre ++ render_key k) ++ render w
                 ++ concat (map render_entry entries) ++ "e"%char :: rest) in *
      by (now rewrite <- app_assoc).
    rewrite (Hw (pre ++ render_key k) _ Hfit). cbn [bind].
    rewrite <- size_app.
    replace ((pre ++ render_key k) ++ render w
                 ++ concat (map render_entry entries) ++ "e"%char :: rest)
      with (((pre ++ render_key k) ++ render w)
                 ++ concat (map render_entry entries) ++ "e"%char :: rest) in *
      by (now rewrite <- !app_assoc).
    rewrite IH; [| simpl in Hit; lia | assumption].
    f_equal. f_equal. rewrite !size_app. lia.
Qed.
End LoopFacts.

Lemma render_list_eq (items : list wire) :
  render (WList items) = "l"%char :: concat (map render items) ++ ["e"%char].
Proof. reflexivity. Qed.

Lemma render_dict_eq (entries : list (cstring * wire)) :
  render (WDict entries) = "d"%char :: concat (map render_entry entries) ++ ["e"%char].
Proof. reflexivity. Qed.

Lemma denote_dict_eq (entries : list (cstring * wire)) :
  denote (WDict entries) = BDict (fold_left assign_entry (map denote_entry entries) []).
Proof. reflexivity. Qed.

Lemma weight_items (items : list wire) (x : wire) :
  In x items ->
  (weight x < list_sum (map (fun x => S (weight x)) items))%nat.
Proof.
  induction items as [|y items IH]; simpl; intros HIn; [contradiction|].
  destruct HIn as [->|HIn]; [lia|]. specialize (IH HIn). lia.
Qed.

Lemma weight_entries (entries : list (cstring * wire)) (kv : cstring * wire) :
  In kv entries ->
  (weight (snd kv) < list_sum (map (fun kv => S (weight (snd kv))) entries))%nat.
Proof.
  induction entries as [|y entries IH]; simpl; intros HIn; [contradiction|].
  destruct HIn as [->|HIn]; [lia|]. specialize (IH HIn). lia.
Qed.

Lemma length_le_sum {A : Type} (f : A -> nat) (l : list A) :
  (length l <= list_sum (map (fun x => S (f x)) l))%nat.
Proof. induction l as [|x l IH]; simpl; lia. Qed.

(** With fuel for its weight, [parseValue] reads a rendering back, at any
    place of the input, and stops right behind it. *)
Lemma parseValue_render (w : wire) :
  wire_ok w = true ->
  forall fuel, (weight w <= fuel)%nat -> parses_at (parseValue fuel) w.
Proof.
  induction w as [n|s|items IH|entries IH] using wire_nested_ind;
    intros Hok fuel Hfuel pre rest Hfit;
    (destruct fuel as [|fuel]; [simpl in Hfuel; lia|]);
    cbn [parseValue]; pose proof Hfit as Hsize; unfold fits in Hsize;
    pose proof (size_nonneg pre); pose proof (size_nonneg rest).
  - (* integer *)
    cbn [render] in *. change (lit "i" ++ to_string n ++ lit "e")
      with ("i"%char :: to_string n ++ ["e"%char]) in *.
    cbn [app] in *. rewrite <- app_assoc in *. cbn [app] in *.
    rewrite size_app, size_cons in Hsize.
    pose proof (size_nonneg (to_string n ++ "e"%char :: rest)).
    destruct (Z.leb_spec (size (pre ++ "i"%char :: to_string n ++ "e"%char :: rest))
                         (size pre)) as [Hle|_];
      [rewrite size_app, size_cons in Hle; lia|].
    rewrite at_app. cbn [Ascii.eqb Bool.eqb]. cbv iota.
    simpl in Hok. apply andb_true_iff in Hok. rewrite !Z.leb_le in Hok.
    rewrite parseInt_render by assumption. reflexivity.
  - (* byte string *)
    change (render (WStr s)) with (render_key s) in *.
    destruct (render_key_head s) as (c & r & E & Hd).
    destruct (Z.leb_spec (size (pre ++ render_key s ++ rest)) (size pre)) as [Hle|_].
    { rewrite E, size_app in Hle. cbn [app] in Hle. rewrite size_cons in Hle.
      pose proof (size_nonneg (r ++ rest)). lia. }
    assert (Hat : at_ (pre ++ render_key s ++ rest) (size pre) = c).
    { rewrite E. cbn [app]. apply at_app. }
    rewrite Hat.
    rewrite (isdigit_neq c "i" Hd eq_refl), (isdigit_neq c "l" Hd eq_refl),
            (isdigit_neq c "d" Hd eq_refl), Hd.
    rewrite parseString_render by assumption. reflexivity.
  - (* list *)
    rewrite render_list_eq in *. cbn [app] in *. rewrite <- app_assoc in *.
    cbn [app] in *.
    destruct (Z.leb_spec
                (size (pre ++ "l"%char :: concat (map render items) ++ "e"%char :: rest))
                (size pre)) as [Hle|_].
    { rewrite size_app, size_cons in Hle.
      pose proof (size_nonneg (concat (map render items) ++ "e"%char :: rest)). lia. }
    rewrite at_app. cbn [Ascii.eqb Bool.eqb]. cbv iota.
    unfold parseList.
    assert (Hp : size (pre ++ ["l"%char]) = size pre + 1).
    { rewrite size_app. reflexivity. }
    rewrite to_size_t_small
      by (rewrite size_app, size_cons in Hsize;
          pose proof (size_nonneg (concat (map render items) ++ "e"%char :: rest));
          bounds).
    rewrite <- Hp.
    replace (pre ++ "l"%char :: concat (map render items) ++ "e"%char :: rest)
      with ((pre ++ ["l"%char]) ++ concat (map render items) ++ "e"%char :: rest) in *
      by (now rewrite <- app_assoc).
    cbn [weight] in Hfuel. cbn [wire_ok] in Hok. rewrite forallb_forall in Hok.
    rewrite parseList_loop_render.
    + cbn [bind app]. rewrite Hp. f_equal. f_equal.
      rewrite size_cons, size_app. change (size ["e"%char]) with 1. lia.
    + rewrite Forall_forall in IH |- *. intros x Hx.
      apply IH; [assumption | now apply Hok |].
      pose proof (weight_items items x Hx). lia.
    + pose proof (length_le_sum weight items). lia.
    + assumption.
  - (* dictionary *)
    rewrite render_dict_eq, denote_dict_eq in *. cbn [app] in *.
    rewrite <- app_assoc in *. cbn [app] in *.
    destruct (Z.leb_spec
                (size (pre ++ "d"%char :: concat (map render_entry entries)
                           ++ "e"%char :: rest))
                (size pre)) as [Hle|_].
    { rewrite size_app, size_cons in Hle.
      pose proof (size_nonneg (concat (map render_entry entries) ++ "e"%char :: rest)).
      lia. }
    rewrite at_app. cbn [Ascii.eqb Bool.eqb]. cbv iota.
    unfold parseDict.
    assert (Hp : size (pre ++ ["d"%char]) = size pre + 1).
    { rewrite size_app. reflexivity. }
    rewrite to_size_t_small
      by (rewrite size_app, size_cons in Hsize;
          pose proof (size_nonneg (concat (map render_entry entries) ++ "e"%char :: rest));
          bounds).
    rewrite <- Hp.
    replace (pre ++ "d"%char :: concat (map render_entry entries) ++ "e"%char :: rest)
      with ((pre ++ ["d"%char]) ++ concat (map render_entry entries) ++ "e"%char :: rest)
      in * by (now rewrite <- app_assoc).
    cbn [weight] in Hfuel. cbn [wire_ok] in Hok. rewrite forallb_forall in Hok.
    rewrite parseDict_loop_render.
    + cbn [bind app]. rewrite Hp. f_equal. f_equal.
      rewrite size_cons, size_app. change (size ["e"%char]) with 1. lia.
    + rewrite Forall_forall in IH |- *. intros x Hx.
      apply IH; [assumption | now apply Hok |].
      pose proof (weight_entries entries x Hx). lia.
    + pose proof (length_le_sum (fun kv : cstring * wire => weight (snd kv)) entries). lia.
    + assumption.
Qed.

(** The top-level parse of a well-formed input. *)
Lemma parse_render (w : wire) (fuel : nat) :
  wire_ok w = true -> fits (render w) -> (weight w <= fuel)%nat ->
  parse fuel (render w) = Ret (denote w).
Proof.
  intros Hok Hfit Hfuel. unfold parse.
  pose proof (parseValue_render w Hok fuel Hfuel [] []) as H.
  cbn [app] in H. rewrite app_nil_r in H. change (size []) with 0 in H.
  rewrite H by assumption. reflexivity.
Qed.

(** ** std::map: entries in key order *)

Section MapFacts.
Variable V : Type.
Implicit Types (m acc : StdMap.t V) (k : cstring) (v : V).

Lemma ascending_tail k ks :
  StdMap.ascending (k :: ks) = true -> StdMap.ascending ks = true.
Proof.
  destruct ks as [|k2 ks]; [reflexivity|]. cbn [StdMap.ascending].
  intros H. now apply andb_true_iff in H.
Qed.

Lemma ascending_all_lt k ks :
  StdMap.ascending (k :: ks) = true -> Forall (fun x => Str.ltb k x = true) ks.
Proof.
  revert k; induction ks as [|k2 ks IH]; intros k H; [constructor|].
  cbn [StdMap.ascending] in H. apply andb_true_iff in H as [H1 H2].
  constructor; [assumption|].
  eapply Forall_impl; [|apply IH, H2].
  intros x Hx. cbn beta in Hx. eapply ltb_trans; eassumption.
Qed.

Lemma ascending_app_lt a k b :
  StdMap.ascending (a ++ k :: b) = true -> Forall (fun x => Str.ltb x k = true) a.
Proof.
  induction a as [|x a IH]; intros H; [constructor|].
  cbn [app] in H. constructor.
  - apply ascending_all_lt in H. rewrite Forall_forall in H.
    apply H, in_or_app. right. now left.
  - apply IH. eapply ascending_tail, H.
Qed.

Lemma assign_append k v m :
  Forall (fun x => Str.ltb x k = true) (map fst m) ->
  StdMap.assign k v m = m ++ [(k, v)].
Proof.
  induction m as [|[k' v'] m IH]; intros H; [reflexivity|].
  cbn [map fst] in H. inversion H as [|? ? Hlt Hrest]; subst.
  cbn [StdMap.assign app]. apply ltb_lt in Hlt.
  rewrite (compare_antisym k' k), Hlt. cbn [CompOpp].
  now rewrite IH.
Qed.

Lemma emplace_append k v m :
  Forall (fun x => Str.ltb x k = true) (map fst m) ->
  StdMap.emplace k v m = m ++ [(k, v)].
Proof.
  induction m as [|[k' v'] m IH]; intros H; [reflexivity|].
  cbn [map fst] in H. inversion H as [|? ? Hlt Hrest]; subst.
  cbn [StdMap.emplace app]. apply ltb_lt in Hlt.
  rewrite (compare_antisym k' k), Hlt. cbn [CompOpp].
  now rewrite IH.
Qed.

(** Filling a map with entries that come in key order keeps them as
    they come. *)
Lemma fold_assign_ascending (l : list (cstring * V)) acc :
  StdMap.ascending (map fst (acc ++ l)) = true ->
  fold_left (fun m kv => StdMap.assign (fst kv) (snd kv) m) l acc = acc ++ l.
Proof.
  revert acc; induction l as [|[k v] l IH]; intros acc H; cbn [fold_left fst snd].
  - now rewrite app_nil_r.
  - rewrite assign_append.
    + rewrite IH; rewrite <- app_assoc; [reflexivity | exact H].
    + rewrite map_app in H. cbn [map fst] in H. eapply ascending_app_lt, H.
Qed.

Lemma fold_emplace_ascending (l : list (cstring * V)) acc :
  StdMap.ascending (map fst (acc ++ l)) = true ->
  fold_left (fun m kv => StdMap.emplace (fst kv) (snd kv) m) l acc = acc ++ l.
Proof.
  revert acc; induction l as [|[k v] l IH]; intros acc H; cbn [fold_left fst snd].
  - now rewrite app_nil_r.
  - rewrite emplace_append.
    + rewrite IH; rewrite <- app_assoc; [reflexivity | exact H].
    + rewrite map_app in H. cbn [map fst] in H. eapply ascending_app_lt, H.
Qed.

Lemma of_range_ascending (l : list (cstring * V)) :
  StdMap.ascending (map fst l) = true -> StdMap.of_range l = l.
Proof. intros H. unfold StdMap.of_range. now rewrite fold_emplace_ascending. Qed.

(** Looking a key up after an assignment. *)
Lemma find_assign k k' v m :
  StdMap.find k (StdMap.assign k' v m)
  = if Str.eqb k k' then Some v else StdMap.find k m.
Proof.
  induction m as [|[k0 v0] m IH]; cbn [StdMap.assign StdMap.find].
  - unfold Str.eqb. destruct (Str.compare k k'); reflexivity.
  - destruct (Str.compare k' k0) eqn:E0; cbn [StdMap.find].
    + apply compare_eq in E0. subst k0. unfold Str.eqb.
      destruct (Str.compare k k'); reflexivity.
    + unfold Str.eqb. destruct (Str.compare k k'); reflexivity.
    + rewrite IH. unfold Str.eqb.
      destruct (Str.compare k k') eqn:E1; try reflexivity.
      apply compare_eq in E1. subst k'. now rewrite E0.
Qed.

Lemma find_fold_other k (l : list (cstring * V)) acc :
  ~ In k (map fst l) ->
  StdMap.find k (fold_left (fun m kv => StdMap.assign (fst kv) (snd kv) m) l acc)
  = StdMap.find k acc.
Proof.
  revert acc; induction l as [|[k' v'] l IH]; intros acc Hn; cbn [fold_left fst snd];
    [reflexivity|].
  rewrite IH by (intros HIn; apply Hn; now right).
  rewrite find_assign.
  destruct (Str.eqb k k') eqn:E; [|reflexivity].
  apply eqb_eq in E. exfalso. apply Hn. now left.
Qed.

(** The last entry written under a key is the one found. *)
Lemma find_fold_last k v (l1 l2 : list (cstring * V)) acc :
  ~ In k (map fst l2) ->
  StdMap.find k (fold_left (fun m kv => StdMap.assign (fst kv) (snd kv) m)
                           (l1 ++ (k, v) :: l2) acc)
  = Some v.
Proof.
  intros Hn. rewrite fold_left_app. cbn [fold_left fst snd].
  rewrite find_fold_other by assumption.
  now rewrite find_assign, eqb_refl.
Qed.

(** Assignment keeps the keys strictly ascending. *)
Lemma assign_keys_bound k v m x :
  Str.ltb x k = true ->
  Forall (fun y => Str.ltb x y = true) (map fst m) ->
  Forall (fun y => Str.ltb x y = true) (map fst (StdMap.assign k v m)).
Proof.
  intros Hk. induction m as [|[k0 v0] m IH]; intros H; cbn [StdMap.assign].
  - now repeat constructor.
  - cbn [map fst] in H. inversion H; subst.
    destruct (Str.compare k k0); cbn [map fst]; repeat constructor; auto.
Qed.

Lemma ascending_cons k ks :
  Forall (fun y => Str.ltb k y = true) ks -> StdMap.ascending ks = true ->
  StdMap.ascending (k :: ks) = true.
Proof.
  intros H1 H2. destruct ks as [|k2 ks]; [reflexivity|].
  cbn [StdMap.ascending]. inversion H1; subst.
  apply andb_true_iff. split; assumption.
Qed.

Lemma assign_ordered k v m :
  StdMap.ordered m = true -> StdMap.ordered (StdMap.assign k v m) = true.
Proof.
  unfold StdMap.ordered, StdMap.keys.
  induction m as [|[k0 v0] m IH]; intros H; cbn [StdMap.assign]; [reflexivity|].
  cbn [map fst] in H.
  destruct (Str.compare k k0) eqn:E; cbn [map fst].
  - exact H.
  - apply ascending_cons; [|exact H].
    constructor; [now apply ltb_lt|].
    eapply Forall_impl; [|apply ascending_all_lt, H].
    intros y Hy. cbn beta in Hy. eapply ltb_trans; [|exact Hy]. now apply ltb_lt.
  - apply ascending_cons.
    + apply assign_keys_bound; [|now apply ascending_all_lt].
      apply ltb_lt. rewrite (compare_antisym k k0), E. reflexivity.
    + apply IH. eapply ascending_tail, H.
Qed.

Lemma fold_assign_ordered (l : list (cstring * V)) acc :
  StdMap.ordered acc = true ->
  StdMap.ordered (fold_left (fun m kv => StdMap.assign (fst kv) (snd kv) m) l acc) = true.
Proof.
  revert acc; induction l as [|kv l IH]; intros acc H; cbn [fold_left]; [exact H|].
  apply IH, assign_ordered, H.
Qed.

(** In an ordered map a key has one entry at most. *)
Lemma ordered_find_unique k v m :
  StdMap.ordered m = true -> StdMap.find k m = Some v ->
  filter (fun kv => Str.eqb (fst kv) k) m = [(k, v)].
Proof.
  unfold StdMap.ordered, StdMap.keys.
  induction m as [|[k0 v0] m IH]; intros Ho Hf; [discriminate|].
  cbn [map fst] in Ho. cbn [StdMap.find] in Hf. cbn [filter fst].
  assert (Hall := ascending_all_lt _ _ Ho).
  destruct (Str.compare k k0) eqn:E.
  - apply compare_eq in E. subst k0. injection Hf as ->.
    rewrite eqb_refl. f_equal.
    clear IH Ho. induction m as [|[k1 v1] m IHm]; [reflexivity|].
    cbn [map fst] in Hall. inversion Hall as [|? ? Hlt Hrest]; subst.
    cbn [filter fst].
    replace (Str.eqb k1 k) with false; [now apply IHm|].
    symmetry. unfold Str.eqb. apply ltb_lt in Hlt.
    now rewrite (compare_antisym k k1), Hlt.
  - replace (Str.eqb k0 k) with false
      by (unfold Str.eqb; now rewrite (compare_antisym k k0), E).
    apply IH; [eapply ascending_tail, Ho | exact Hf].
  - replace (Str.eqb k0 k) with false
      by (unfold Str.eqb; now rewrite (compare_antisym k k0), E).
    apply IH; [eapply ascending_tail, Ho | exact Hf].
Qed.
End MapFacts.

(** The copy made by [encodeDict] looks at keys only: it commutes with a
    change of the values. *)
Lemma emplace_map {A B : Type} (f : A -> B) k (a : A) (m : StdMap.t A) :
  StdMap.emplace k (f a) (map (fun kv => (fst kv, f (snd kv))) m)
  = map (fun kv => (fst kv, f (snd kv))) (StdMap.emplace k a m).
Proof.
  induction m as [|[k0 a0] m IH]; cbn [StdMap.emplace map fst snd]; [reflexivity|].
  destruct (Str.compare k k0); cbn [map fst snd]; try reflexivity.
  now rewrite IH.
Qed.

Lemma of_range_map {A B : Type} (f : A -> B) (l : list (cstring * A)) :
  StdMap.of_range (map (fun kv => (fst kv, f (snd kv))) l)
  = map (fun kv => (fst kv, f (snd kv))) (StdMap.of_range l).
Proof.
  unfold StdMap.of_range.
  change (@nil (cstring * B)) with (map (fun kv : cstring * A => (fst kv, f (snd kv))) []).
  generalize (@nil (cstring * A)) as acc.
  induction l as [|[k a] l IH]; intros acc; cbn [map fold_left fst snd]; [reflexivity|].
  rewrite emplace_map. apply IH.
Qed.

(** ** Values and their syntax trees *)

Lemma pair_eta {A B : Type} (p : A * B) : (fst p, snd p) = p.
Proof. now destruct p. Qed.

Lemma map_id_in {A : Type} (f : A -> A) (l : list A) :
  (forall x, In x l -> f x = x) -> map f l = l.
Proof.
  intros H. rewrite <- (map_id l) at 2. now apply map_ext_in.
Qed.

Lemma value_ok_list (l : list BencodedValue) :
  value_ok (BList l) = true -> forall x, In x l -> value_ok x = true.
Proof. cbn [value_ok]. now rewrite forallb_forall. Qed.

Lemma value_ok_dict (d : list (cstring * BencodedValue)) :
  value_ok (BDict d) = true ->
  StdMap.ascending (map fst d) = true
  /\ forall kv, In kv d -> value_ok (snd kv) = true.
Proof. cbn [value_ok]. now rewrite andb_true_iff, forallb_forall. Qed.

Lemma wire_sorted_dict (entries : list (cstring * wire)) :
  wire_sorted (WDict entries) = true ->
  StdMap.ascending (map fst entries) = true
  /\ forall kv, In kv entries -> wire_sorted (snd kv) = true.
Proof. cbn [wire_sorted]. now rewrite andb_true_iff, forallb_forall. Qed.

Lemma map_fst_on_snd {A B : Type} (f : A -> B) (l : list (cstring * A)) :
  map fst (map (fun kv => (fst kv, f (snd kv))) l) = map fst l.
Proof. rewrite map_map. now apply map_ext. Qed.

(** On a value of the C++ type the encoder writes the rendering of the
    value's syntax tree. *)
Lemma encode_render (v : BencodedValue) :
  value_ok v = true -> encode v = render (wire_of v).
Proof.
  induction v as [n|s|l IH|d IH] using value_nested_ind; intros Hok;
    try reflexivity.
  - cbn [encode wire_of render]. rewrite map_map. do 3 f_equal.
    rewrite Forall_forall in IH. apply map_ext_in. intros x Hx.
    apply IH; [assumption|]. eapply value_ok_list; eassumption.
  - destruct (value_ok_dict d Hok) as [Hasc Hall].
    cbn [encode wire_of render].
    rewrite of_range_ascending by (now rewrite map_fst_on_snd).
    rewrite !map_map. cbn [fst snd]. do 3 f_equal.
    rewrite Forall_forall in IH. apply map_ext_in. intros kv Hkv.
    unfold encodeString. rewrite IH by auto. reflexivity.
Qed.

Lemma denote_wire_of (v : BencodedValue) :
  value_ok v = true -> denote (wire_of v) = v.
Proof.
  induction v as [n|s|l IH|d IH] using value_nested_ind; intros Hok;
    try reflexivity.
  - cbn [wire_of denote]. rewrite map_map. f_equal.
    rewrite Forall_forall in IH. apply map_id_in. intros x Hx.
    apply IH; [assumption|]. eapply value_ok_list; eassumption.
  - destruct (value_ok_dict d Hok) as [Hasc Hall].
    cbn [wire_of denote]. rewrite map_map. cbn [fst snd].
    rewrite Forall_forall in IH.
    rewrite (map_id_in (fun kv => (fst kv, denote (wire_of (snd kv)))) d).
    + now rewrite fold_assign_ascending.
    + intros kv Hkv. rewrite IH by auto. apply pair_eta.
Qed.

Lemma wire_of_denote (w : wire) :
  wire_sorted w = true -> wire_of (denote w) = w.
Proof.
  induction w as [n|s|items IH|entries IH] using wire_nested_ind; intros Hs;
    try reflexivity.
  - cbn [wire_of denote]. rewrite map_map. f_equal.
    rewrite Forall_forall in IH. apply map_id_in. intros x Hx.
    apply IH; [assumption|]. cbn [wire_sorted] in Hs.
    rewrite forallb_forall in Hs. now apply Hs.
  - destruct (wire_sorted_dict entries Hs) as [Hasc Hall].
    cbn [denote wire_of].
    rewrite fold_assign_ascending by (cbn [app]; now rewrite map_fst_on_snd).
    cbn [app]. rewrite map_map. cbn [fst snd]. f_equal.
    rewrite Forall_forall in IH. apply map_id_in. intros kv Hkv.
    rewrite IH by auto. apply pair_eta.
Qed.

Lemma wire_of_ok (v : BencodedValue) :
  value_ok v = true -> wire_ok (wire_of v) = true.
Proof.
  induction v as [n|s|l IH|d IH] using value_nested_ind; intros Hok;
    try assumption; try reflexivity.
  - cbn [wire_of wire_ok]. rewrite forallb_forall. intros x Hx.
    apply in_map_iff in Hx as (y & <- & Hy).
    rewrite Forall_forall in IH. apply IH; [assumption|].
    eapply value_ok_list; eassumption.
  - destruct (value_ok_dict d Hok) as [Hasc Hall].
    cbn [wire_of wire_ok]. rewrite forallb_forall. intros x Hx.
    apply in_map_iff in Hx as (y & <- & Hy). cbn [snd].
    rewrite Forall_forall in IH. apply IH; auto.
Qed.

Lemma denote_ok (w : wire) :
  wire_ok w = true -> wire_sorted w = true -> value_ok (denote w) = true.
Proof.
  induction w as [n|s|items IH|entries IH] using wire_nested_ind; intros Hok Hs;
    try assumption; try reflexivity.
  - cbn [denote value_ok]. rewrite forallb_forall. intros x Hx.
    apply in_map_iff in Hx as (y & <- & Hy).
    cbn [wire_ok wire_sorted] in Hok, Hs. rewrite forallb_forall in Hok, Hs.
    rewrite Forall_forall in IH. apply IH; auto.
  - destruct (wire_sorted_dict entries Hs) as [Hasc Hall].
    cbn [wire_ok] in Hok. rewrite forallb_forall in Hok.
    cbn [denote].
    rewrite fold_assign_ascending by (cbn [app]; now rewrite map_fst_on_snd).
    cbn [app value_ok]. rewrite map_fst_on_snd, Hasc. cbn [andb].
    rewrite forallb_forall. intros x Hx.
    apply in_map_iff in Hx as (y & <- & Hy). cbn [snd].
    rewrite Forall_forall in IH. apply IH; auto.
Qed.

(** ** The codec laws *)

(** C1.  For every value [v] of the C++ type -- integers of 64 bits, the
    keys of every dictionary, at every level, distinct and in ascending
    lexicographic order -- whose encoding fits a [std::string], decoding
    the encoding gives [v] back: [decode(encode(v)) == v].  Any fuel from
    the weight of the value on is enough for the parser to finish. *)
Theorem decode_encode (v : BencodedValue) (fuel : nat) :
  value_ok v = true ->
  fits (encode v) ->
  (weight (wire_of v) <= fuel)%nat ->
  parse fuel (encode v) = Ret v.
Proof.
  intros Hok Hfit Hfuel.
  rewrite encode_render in * by assumption.
  rewrite parse_render; auto using wire_of_ok.
  now rewrite denote_wire_of.
Qed.

Lemma decode_encode_witness : parse 20 (encode sample_value) = Ret sample_value.
Proof.
  apply (decode_encode sample_value 20).
  - reflexivity.
  - unfold fits. vm_compute. reflexivity.
  - vm_compute. lia.
Defined.

(** C2.  For every well-formed input [b] (the rendering of a syntax tree
    with 64-bit integers) whose dictionaries have their keys in strictly
    ascending lexicographic byte order, decoding succeeds and encoding the
    decoded value gives [b] back byte for byte: [encode(decode(b)) == b]. *)
Theorem encode_decode (w : wire) (fuel : nat) :
  wire_ok w = true ->
  wire_sorted w = true ->
  fits (render w) ->
  (weight w <= fuel)%nat ->
  exists v, parse fuel (render w) = Ret v /\ encode v = render w.
Proof.
  intros Hok Hs Hfit Hfuel. exists (denote w). split.
  - now apply parse_render.
  - rewrite encode_render by now apply denote_ok.
    now rewrite wire_of_denote.
Qed.

Lemma encode_decode_witness :
  render sample_wire = lit "d1:ad2:id20:abcdefghij0123456789e1:q4:ping1:t2:aa1:y1:qe"
  /\ exists v, parse 20 (render sample_wire) = Ret v /\ encode v = render sample_wire.
Proof.
  split; [reflexivity|].
  apply (encode_decode sample_wire 20).
  - reflexivity.
  - reflexivity.
  - unfold fits. vm_compute. reflexivity.
  - vm_compute. lia.
Defined.

(** C10.  For every well-formed dictionary input, whatever the order of its
    entries and however often a key is repeated, decoding succeeds, and a
    key [k] is mapped to the value of its last occurrence in the input
    (the entry [(k, w)] after which [k] does not occur again); the decoded
    dictionary holds this one entry for [k] and none of the earlier ones. *)
Theorem duplicate_key_last_wins
    (l1 l2 : list (cstring * wire)) (k : cstring) (w : wire) (fuel : nat) :
  let entries := l1 ++ (k, w) :: l2 in
  ~ In k (map fst l2) ->
  wire_ok (WDict entries) = true ->
  fits (render (WDict entries)) ->
  (weight (WDict entries) <= fuel)%nat ->
  exists m,
    parse fuel (render (WDict entries)) = Ret (BDict m)
    /\ StdMap.find k m = Some (denote w)
    /\ filter (fun kv => Str.eqb (fst kv) k) m = [(k, denote w)].
Proof.
  intros entries Hlast Hok Hfit Hfuel.
  exists (fold_left assign_entry (map denote_entry entries) []).
  assert (Hfind : StdMap.find k (fold_left assign_entry (map denote_entry entries) [])
                  = Some (denote w)).
  { unfold entries. rewrite map_app. cbn [map].
    change (denote_entry (k, w)) with (k, denote w).
    apply (find_fold_last BencodedValue).
    unfold denote_entry. now rewrite map_fst_on_snd. }
  split; [|split].
  - rewrite parse_render by assumption. reflexivity.
  - exact Hfind.
  - apply ordered_find_unique; [|exact Hfind].
    now apply (fold_assign_ordered BencodedValue).
Qed.

Lemma duplicate_key_last_wins_witness :
  exists m,
    parse 20 (lit "d1:ai1e1:b0:1:ai2ee") = Ret (BDict m)
    /\ StdMap.find (lit "a") m = Some (BInt 2)
    /\ filter (fun kv => Str.eqb (fst kv) (lit "a")) m = [(lit "a", BInt 2)].
Proof.
  apply (duplicate_key_last_wins
           [(lit "a", WInt 1); (lit "b", WStr [])] [] (lit "a") (WInt 2) 20).
  - intros [].
  - reflexivity.
  - unfold fits. vm_compute. reflexivity.
  - vm_compute. lia.
Defined.

(** ** More fuel never changes an outcome *)

Lemma bind_not_diverge {A B : Type} (m : result A) (k : A -> result B) :
  bind m k <> Diverge -> m <> Diverge.
Proof. destruct m; simpl; congruence. Qed.

Section LoopMono.
Variables pv pv' : cstring -> Z -> result (BencodedValue * Z).
Hypothesis Hpv : refines pv pv'.

Lemma parseList_loop_mono (iters iters' : nat) data pos acc :
  (iters <= iters')%nat ->
  parseList_loop pv iters data pos acc <> Diverge ->
  parseList_loop pv' iters' data pos acc = parseList_loop pv iters data pos acc.
Proof.
  revert iters' pos acc; induction iters as [|iters IH]; intros iters' pos acc Hle H.
  - now contradiction H.
  - destruct iters' as [|iters']; [lia|]. cbn [parseList_loop] in *.
    destruct ((pos <? size data) && negb (Ascii.eqb (at_ data pos) "e"));
      [|reflexivity].
    rewrite (Hpv data pos) by (eapply bind_not_diverge, H).
    destruct (pv data pos) as [[v pos']| |]; cbn [bind] in *; try reflexivity.
    apply IH; [lia | exact H].
Qed.

Lemma parseDict_loop_mono (iters iters' : nat) data pos acc :
  (iters <= iters')%nat ->
  parseDict_loop pv iters data pos acc <> Diverge ->
  parseDict_loop pv' iters' data pos acc = parseDict_loop pv iters data pos acc.
Proof.
  revert iters' pos acc; induction iters as [|iters IH]; intros iters' pos acc Hle H.
  - now contradiction H.
  - destruct iters' as [|iters']; [lia|]. cbn [parseDict_loop] in *.
    destruct ((pos <? size data) && negb (Ascii.eqb (at_ data pos) "e"));
      [|reflexivity].
    destruct (parseString data pos) as [[key pos1]| |]; cbn [bind] in *;
      try reflexivity.
    rewrite (Hpv data pos1) by (eapply bind_not_diverge, H).
    destruct (pv data pos1) as [[v pos2]| |]; cbn [bind] in *; try reflexivity.
    apply IH; [lia | exact H].
Qed.
End LoopMono.

Lemma parseValue_mono (fuel fuel' : nat) :
  (fuel <= fuel')%nat -> refines (parseValue fuel) (parseValue fuel').
Proof.
  revert fuel'; induction fuel as [|fuel IH]; intros fuel' Hle data pos H.
  - now contradiction H.
  - destruct fuel' as [|fuel']; [lia|]. cbn [parseValue] in *.
    destruct (size data <=? pos); [reflexivity|].
    destruct (Ascii.eqb (at_ data pos) "i"); [reflexivity|].
    destruct (Ascii.eqb (at_ data pos) "l").
    { unfold parseList in *.
      rewrite (parseList_loop_mono (parseValue fuel) (parseValue fuel'))
        with (iters := fuel);
        [reflexivity | apply IH; lia | lia | eapply bind_not_diverge, H]. }
    destruct (Ascii.eqb (at_ data pos) "d"); [|reflexivity].
    unfold parseDict in *.
    rewrite (parseDict_loop_mono (parseValue fuel) (parseValue fuel'))
      with (iters := fuel);
      [reflexivity | apply IH; lia | lia | eapply bind_not_diverge, H].
Qed.

Lemma parse_mono (fuel fuel' : nat) (data : cstring) :
  (fuel <= fuel')%nat -> parse fuel data <> Diverge ->
  parse fuel' data = parse fuel data.
Proof.
  intros Hle H. unfold parse in *.
  rewrite (parseValue_mono fuel fuel' Hle data 0); [reflexivity|].
  eapply bind_not_diverge, H.
Qed.

Lemma decode_fails_at (fuel0 : nat) (data : cstring) (e : exn) :
  parse fuel0 data = Throw e -> decode_fails data.
Proof.
  intros H. exists fuel0, e. intros fuel Hle.
  rewrite (parse_mono fuel0 fuel data Hle); [exact H|]. rewrite H. discriminate.
Qed.

Lemma decodes_to_at (fuel0 : nat) (data : cstring) (v : BencodedValue) :
  parse fuel0 data = Ret v -> decodes_to data v.
Proof.
  intros H. exists fuel0. intros fuel Hle.
  rewrite (parse_mono fuel0 fuel data Hle); [exact H|]. rewrite H. discriminate.
Qed.

Lemma decode_outcome_unique (data : cstring) (v : BencodedValue) :
  decodes_to data v -> ~ decode_fails data.
Proof.
  intros [f1 H1] (f2 & e & H2).
  specialize (H1 (Nat.max f1 f2) (Nat.le_max_l _ _)).
  specialize (H2 (Nat.max f1 f2) (Nat.le_max_r _ _)). congruence.
Qed.

(** ** Malformed input *)

Lemma parse_int_overflow (z : Z) (rest : cstring) :
  z < INT64_MIN \/ INT64_MAX < z ->
  fits (lit "i" ++ to_string z ++ lit "e" ++ rest) ->
  decode_fails (lit "i" ++ to_string z ++ lit "e" ++ rest).
Proof.
  intros Hz Hfit. apply decode_fails_at with (fuel0 := 1%nat)
                                           (e := runtime_error "Invalid integer value").
  change (lit "i" ++ to_string z ++ lit "e" ++ rest)
    with ([] ++ "i"%char :: to_string z ++ "e"%char :: rest) in *.
  unfold parse. cbn [parseValue].
  pose proof (parseInt_numeral [] rest z Hfit) as HP.
  change (size []) with 0 in HP.
  cbn [app] in *.
  rewrite size_cons.
  pose proof (size_nonneg (to_string z ++ "e"%char :: rest)).
  destruct (Z.leb_spec (1 + size (to_string z ++ "e"%char :: rest)) 0); [lia|].
  change (at_ ("i"%char :: to_string z ++ "e"%char :: rest) 0) with "i"%char.
  cbn [Ascii.eqb Bool.eqb]. cbv iota. rewrite HP.
  replace ((z <? INT64_MIN) || (INT64_MAX <? z)) with true; [reflexivity|].
  symmetry. apply orb_true_iff. rewrite !Z.ltb_lt. exact Hz.
Qed.

Lemma parse_short_string (n : Z) (s : cstring) :
  size s < n ->
  fits (to_string n ++ lit ":" ++ s) ->
  decode_fails (to_string n ++ lit ":" ++ s).
Proof.
  intros Hn Hfit. pose proof (size_nonneg s) as Hs.
  destruct (to_string_head_nonneg n ltac:(lia)) as (c & r & E & Hd).
  set (num := to_string n) in *.
  change (lit ":" ++ s) with (":"%char :: s) in *.
  pose proof (size_nonneg num) as Hnum.
  assert (Hsz : size (num ++ ":"%char :: s) = size num + 1 + size s).
  { rewrite size_app, size_cons. lia. }
  unfold fits in Hfit. rewrite Hsz in Hfit.
  assert (Hps : parseString (num ++ ":"%char :: s) 0
                = if INT64_MAX <? n then Throw (out_of_range "stoll")
                  else Throw (runtime_error "String length exceeds input size")).
  { assert (Hfind : find (num ++ ":"%char :: s) ":" 0 = size num).
    { apply (find_app ":" [] num s).
      apply to_string_avoids; [reflexivity | discriminate]. }
    assert (Hsub : substr (num ++ ":"%char :: s) 0 (size num) = Ret num).
    { apply (substr_app [] num (":"%char :: s)). }
    unfold parseString. rewrite Hfind.
    destruct (Z.eqb_spec (size num) npos) as [Eq|_]; [bounds|].
    rewrite Z.sub_0_r, (to_size_t_small (size num)) by bounds.
    rewrite Hsub. cbn [bind].
    unfold num at 1. rewrite stoll_to_string_any.
    replace (n <? INT64_MIN) with false
      by (symmetry; apply Z.ltb_ge; bounds).
    cbn [orb].
    destruct (Z.ltb_spec INT64_MAX n) as [Hbig|Hsmall]; [reflexivity|].
    cbn [bind]. rewrite Hsz.
    rewrite (to_size_t_small (size num + 1)) by bounds.
    rewrite (to_size_t_small (size num + 1 + n)) by bounds.
    destruct (Z.ltb_spec (size num + 1 + size s) (size num + 1 + n)); [reflexivity|lia]. }
  assert (Hpv : exists e, parse 1 (num ++ ":"%char :: s) = Throw e).
  { unfold parse. cbn [parseValue]. rewrite Hsz.
    destruct (Z.leb_spec (size num + 1 + size s) 0); [lia|].
    assert (Hat : at_ (num ++ ":"%char :: s) 0 = c) by (rewrite E; reflexivity).
    rewrite Hat.
    rewrite (isdigit_neq c "i" Hd eq_refl), (isdigit_neq c "l" Hd eq_refl),
            (isdigit_neq c "d" Hd eq_refl), Hd, Hps.
    destruct (INT64_MAX <? n); eexists; reflexivity. }
  destruct Hpv as [e He]. eapply decode_fails_at, He.
Qed.

Lemma parse_negative_length (n : Z) (s : cstring) :
  n < 0 -> decode_fails (to_string n ++ lit ":" ++ s).
Proof.
  intros Hn. apply decode_fails_at with (fuel0 := 1%nat)
                                        (e := runtime_error "Invalid bencoded format").
  rewrite to_string_neg by assumption. cbn [app].
  unfold parse. cbn [parseValue]. rewrite size_cons.
  set (tail := to_digits _ _ _ ++ _). pose proof (size_nonneg tail).
  destruct (Z.leb_spec (1 + size tail) 0); [lia|]. reflexivity.
Qed.

(** C3, as the code has it.  Decoding throws on the empty input, on
    [iXe], on [2:a], on [li1e], on [d1:ai1e], on [di1ei2ee], on an integer
    whose numeral lies outside [int64_t], on a byte string whose declared
    length exceeds the input that is left, and on a byte string at the top
    level whose declared length is negative.  [i01e] and [i-0e] are read
    by [std::stoll] and decode to [1] and [0]. *)
Theorem decode_rejects_malformed :
  decode_fails (lit "")
  /\ decode_fails (lit "iXe")
  /\ decode_fails (lit "2:a")
  /\ decode_fails (lit "li1e")
  /\ decode_fails (lit "d1:ai1e")
  /\ decode_fails (lit "di1ei2ee")
  /\ (forall z rest,
        z < INT64_MIN \/ INT64_MAX < z ->
        fits (lit "i" ++ to_string z ++ lit "e" ++ rest) ->
        decode_fails (lit "i" ++ to_string z ++ lit "e" ++ rest))
  /\ (forall n s,
        size s < n ->
        fits (to_string n ++ lit ":" ++ s) ->
        decode_fails (to_string n ++ lit ":" ++ s))
  /\ (forall n s, n < 0 -> decode_fails (to_string n ++ lit ":" ++ s))
  /\ decodes_to (lit "i01e") (BInt 1)
  /\ decodes_to (lit "i-0e") (BInt 0).
Proof.
  repeat split.
  - now apply decode_fails_at with (fuel0 := 1%nat)
                                   (e := runtime_error "Unexpected end of input").
  - now apply decode_fails_at with (fuel0 := 1%nat)
                                   (e := runtime_error "Invalid integer value").
  - now apply decode_fails_at with
      (fuel0 := 1%nat) (e := runtime_error "String length exceeds input size").
  - now apply decode_fails_at with (fuel0 := 3%nat)
                                   (e := runtime_error "Invalid list format").
  - now apply decode_fails_at with (fuel0 := 3%nat)
                                   (e := runtime_error "Invalid dictionary format").
  - now apply decode_fails_at with (fuel0 := 3%nat)
                                   (e := runtime_error "Invalid string format").
  - apply parse_int_overflow.
  - apply parse_short_string.
  - apply parse_negative_length.
  - now apply decodes_to_at with (fuel0 := 1%nat).
  - now apply decodes_to_at with (fuel0 := 1%nat).
Qed.

Lemma decode_rejects_malformed_witness :
  decode_fails (lit "i9223372036854775808e")
  /\ decode_fails (lit "5:abc")
  /\ decode_fails (lit "-1:a").
Proof.
  destruct decode_rejects_malformed
    as (_ & _ & _ & _ & _ & _ & Hover & Hshort & Hneg & _).
  split; [|split].
  - apply (Hover 9223372036854775808 []).
    + right. vm_compute. reflexivity.
    + unfold fits. vm_compute. reflexivity.
  - apply (Hshort 5 (lit "abc")).
    + vm_compute. reflexivity.
    + unfold fits. vm_compute. reflexivity.
  - apply (Hneg (-1) (lit "a")). lia.
Defined.

(** C3 as stated fails: [i01e] and [i-0e] are not rejected. *)
Lemma leading_zero_not_rejected :
  ~ decode_fails (lit "i01e") /\ ~ decode_fails (lit "i-0e").
Proof.
  split.
  - apply decode_outcome_unique with (v := BInt 1).
    now apply decodes_to_at with (fuel0 := 1%nat).
  - apply decode_outcome_unique with (v := BInt 0).
    now apply decodes_to_at with (fuel0 := 1%nat).
Qed.

(* ================================================================== *)
(** * The routing table *)

(** ** The bucket index *)

Lemma land_bit (x k : N) :
  negb (N.eqb (N.land x (N.shiftl 1 k)) 0) = N.testbit x k.
Proof.
  rewrite N.shiftl_1_l.
  destruct (N.testbit x k) eqn:Hb.
  - apply negb_true_iff, N.eqb_neq. intros H0.
    assert (Hk : N.testbit (N.land x (2 ^ k)) k = true).
    { rewrite N.land_spec, Hb, N.pow2_bits_true. reflexivity. }
    rewrite H0, N.bits_0 in Hk. discriminate.
  - apply negb_false_iff, N.eqb_eq. apply N.bits_inj. intros m.
    rewrite N.land_spec, N.bits_0, N.pow2_bits_eqb.
    destruct (N.eqb_spec k m) as [->|_]; [now rewrite Hb | apply andb_false_r].
Qed.

Lemma distance_bit_lsb (distance : NodeID) (i : nat) :
  distance_bit distance i = bit_lsb_first distance i.
Proof.
  unfold distance_bit, bit_lsb_first.
  destruct (nth_error distance (i / 8)); [|reflexivity].
  now rewrite land_bit.
Qed.

Lemma bucket_scan_spec (distance : NodeID) (remaining i idx : nat) :
  bucket_scan remaining distance i = Some idx ->
  (i <= idx <= i + remaining)%nat
  /\ (forall j, (i <= j < idx)%nat -> bit_lsb_first distance j = Some true)
  /\ ((idx < i + remaining)%nat -> bit_lsb_first distance idx = Some false).
Proof.
  revert i; induction remaining as [|remaining IH]; intros i H; cbn [bucket_scan] in H.
  - injection H as <-. repeat split; intros; lia.
  - rewrite distance_bit_lsb in H.
    destruct (bit_lsb_first distance i) as [[|]|] eqn:Hb; try discriminate.
    + destruct (IH _ H) as (Hr & Hones & Hstop). repeat split; try lia.
      * intros j Hj. destruct (Nat.eq_dec j i) as [->|Hne]; [assumption|].
        apply Hones. lia.
      * intros Hlt. apply Hstop. lia.
    + injection H as <-. repeat split; intros; try lia. assumption.
Qed.

Lemma bucket_insert_some_length (pong : bool) (node : Node) (bucket bucket' : Bucket) :
  bucket_insert pong node bucket = Some bucket' ->
  (length bucket <= length bucket' <= S (length bucket))%nat.
Proof.
  unfold bucket_insert.
  assert (Hfind : forall b before it after,
             std_find node b = Some (before, it, after) -> b = before ++ it :: after).
  { induction b as [|x b IHb]; intros before it after Hf; cbn [std_find] in Hf;
      [discriminate|].
    destruct (node_eqb x node).
    - now injection Hf as <- <- <-.
    - destruct (std_find node b) as [[[b1 y] b2]|]; [|discriminate].
      injection Hf as <- <- <-. cbn [app]. f_equal. now apply IHb. }
  destruct (std_find node bucket) as [[[before it] after]|] eqn:E.
  - intros [= <-]. rewrite (Hfind _ _ _ _ E), !length_app. cbn [length].
    rewrite ?length_app. cbn [length]. lia.
  - destruct (length bucket <? K)%nat.
    + intros [= <-]. rewrite length_app. cbn [length]. lia.
    + destruct bucket as [|oldest rest]; [discriminate|].
      destruct pong; intros [= <-]; [rewrite length_app|]; cbn [length]; lia.
Qed.

Lemma set_nth_length {A : Type} (i : nat) (x : A) (v : list A) :
  length (set_nth i x v) = length v.
Proof.
  revert i; induction v as [|y v IH]; intros [|i]; cbn [set_nth length]; auto.
Qed.

(** C4, as the code has it.  The bucket index of a node comes from the
    XOR distance [d = my_id ^ node.id] by a scan that takes the bytes of
    [d] from the first one on and the bits of each byte from the least
    significant one up: bit [i] is bit [i mod 8], counted from the low end,
    of byte [i / 8].  The index advances while bit [i] is set and [i] is
    below the bucket count; a bucket is appended exactly when the index
    reaches the bucket count. *)
Theorem bucket_index_scan
    (my_node_id : NodeID) (pong : bool) (routing_table routing_table' : list Bucket)
    (node : Node) :
  add_to_routing_table my_node_id pong routing_table node = Some routing_table' ->
  let d := xor_distance my_node_id (id node) in
  (forall j, (j < NODE_ID_SIZE)%nat ->
     N_of_ascii (nth j d zero)
     = N.lxor (N_of_ascii (nth j my_node_id zero)) (N_of_ascii (nth j (id node) zero)))
  /\ exists bucket_index,
      bucket_scan (length routing_table) d 0 = Some bucket_index
      /\ (bucket_index <= length routing_table)%nat
      /\ (forall j, (j < bucket_index)%nat -> bit_lsb_first d j = Some true)
      /\ ((bucket_index < length routing_table)%nat ->
          bit_lsb_first d bucket_index = Some false)
      /\ length routing_table'
         = if (bucket_index =? length routing_table)%nat
           then S (length routing_table) else length routing_table.
Proof.
  intros Hadd d. split.
  - intros j Hj. unfold d, xor_distance.
    rewrite nth_indep with (d' := byte_xor (nth 0 my_node_id zero) (nth 0 (id node) zero))
      by (rewrite length_map, length_seq; exact Hj).
    rewrite (map_nth (fun i => byte_xor (nth i my_node_id zero) (nth i (id node) zero))
                     (seq 0 NODE_ID_SIZE) 0%nat j).
    rewrite seq_nth by exact Hj. cbn [Nat.add]. unfold byte_xor.
    apply N_ascii_embedding.
    set (a := N_of_ascii (nth j my_node_id zero)).
    set (b := N_of_ascii (nth j (id node) zero)).
    assert (Ha : (a < 256)%N) by apply N_ascii_bounded.
    assert (Hb : (b < 256)%N) by apply N_ascii_bounded.
    destruct (N.eq_dec (N.lxor a b) 0) as [->|Hnz]; [reflexivity|].
    change 256%N with (2 ^ 8)%N. apply N.log2_lt_pow2; [lia|].
    eapply N.le_lt_trans; [apply N.log2_lxor|].
    apply N.max_lub_lt.
    + destruct (N.eq_dec a 0) as [->|Ha0]; [reflexivity|].
      apply N.log2_lt_pow2; [lia | exact Ha].
    + destruct (N.eq_dec b 0) as [->|Hb0]; [reflexivity|].
      apply N.log2_lt_pow2; [lia | exact Hb].
  - unfold add_to_routing_table in Hadd. fold d in Hadd.
    destruct (bucket_scan (length routing_table) d 0) as [bucket_index|] eqn:Hscan;
      [|discriminate].
    exists bucket_index. destruct (bucket_scan_spec _ _ _ _ Hscan) as (Hr & Hones & Hstop).
    repeat split; try lia.
    + intros j Hj. apply Hones. lia.
    + intros Hlt. apply Hstop. lia.
    + destruct (bucket_insert pong node _) as [bucket|]; [|discriminate].
      injection Hadd as <-. rewrite set_nth_length.
      destruct (Nat.leb_spec (length routing_table) bucket_index) as [Hge|Hlt].
      * rewrite length_app. cbn [length].
        replace (bucket_index =? length routing_table)%nat with true
          by (symmetry; apply Nat.eqb_eq; lia). lia.
      * replace (bucket_index =? length routing_table)%nat with false
          by (symmetry; apply Nat.eqb_neq; lia). reflexivity.
Qed.

Lemma bucket_index_scan_witness :
  let d := xor_distance zero_id (id (sample_node 1)) in
  exists bucket_index,
    bucket_scan 1 d 0 = Some bucket_index
    /\ (bucket_index <= 1)%nat
    /\ (forall j, (j < bucket_index)%nat -> bit_lsb_first d j = Some true)
    /\ ((bucket_index < 1)%nat -> bit_lsb_first d bucket_index = Some false)
    /\ 2%nat = if (bucket_index =? 1)%nat then 2%nat else 1%nat.
Proof.
  exact (proj2 (bucket_index_scan zero_id true initial_table
                  [[]; [sample_node 1]] (sample_node 1) eq_refl)).
Defined.

(** C4 as stated fails: with the local identifier all zero and one bucket,
    a node whose first byte is [0x80] has the most significant bit of the
    distance set, yet its index stays [0]; a node whose first byte is
    [0x01] has that bit clear, yet its index advances to [1]. *)
Lemma msb_first_scan_differs :
  bucket_scan 1 (xor_distance zero_id (id (sample_node 128))) 0 = Some 0%nat
  /\ msb_first_scan 1 (xor_distance zero_id (id (sample_node 128))) 0 = Some 1%nat
  /\ bucket_scan 1 (xor_distance zero_id (id (sample_node 1))) 0 = Some 1%nat
  /\ msb_first_scan 1 (xor_distance zero_id (id (sample_node 1))) 0 = Some 0%nat.
Proof. repeat split; reflexivity. Qed.

(** ** The bucket bound *)

Lemma std_find_split (node : Node) (bucket before after : Bucket) (it : Node) :
  std_find node bucket = Some (before, it, after) ->
  bucket = before ++ it :: after
  /\ node_eqb it node = true
  /\ Forall (fun x => node_eqb x node = false) before.
Proof.
  revert before it after; induction bucket as [|x bucket IH];
    intros before it after Hf; cbn [std_find] in Hf; [discriminate|].
  destruct (node_eqb x node) eqn:E.
  - injection Hf as <- <- <-. repeat split; [assumption | constructor].
  - destruct (std_find node bucket) as [[[b1 y] b2]|]; [|discriminate].
    injection Hf as <- <- <-. destruct (IH _ _ _ eq_refl) as (-> & Hy & Hb).
    repeat split; [assumption | now constructor].
Qed.

Lemma std_find_none (node : Node) (bucket : Bucket) :
  std_find node bucket = None -> Forall (fun x => node_eqb x node = false) bucket.
Proof.
  induction bucket as [|x bucket IH]; cbn [std_find]; intros H; [constructor|].
  destruct (node_eqb x node) eqn:E; [discriminate|].
  destruct (std_find node bucket) as [[[b1 y] b2]|]; [discriminate|].
  constructor; auto.
Qed.

Lemma bucket_insert_bound (pong : bool) (node : Node) (bucket bucket' : Bucket) :
  (length bucket <= K)%nat ->
  bucket_insert pong node bucket = Some bucket' ->
  (length bucket' <= K)%nat.
Proof.
  intros Hb. unfold bucket_insert.
  destruct (std_find node bucket) as [[[before it] after]|] eqn:E.
  - apply std_find_split in E as (-> & _ & _). intros [= <-].
    rewrite !length_app in *. cbn [length] in *. rewrite ?length_app. cbn [length]. lia.
  - destruct (Nat.ltb_spec (length bucket) K).
    + intros [= <-]. rewrite length_app. cbn [length]. lia.
    + destruct bucket as [|oldest rest]; [discriminate|].
      destruct pong; intros [= <-]; [rewrite length_app|]; cbn [length] in *; lia.
Qed.

Lemma bucket_insert_defined (pong : bool) (node : Node) (bucket : Bucket) :
  bucket_insert pong node bucket <> None.
Proof.
  unfold bucket_insert.
  destruct (std_find node bucket) as [[[before it] after]|]; [discriminate|].
  destruct (Nat.ltb_spec (length bucket) K); [discriminate|].
  destruct bucket as [|oldest rest]; [cbn in *; unfold K in *; lia|].
  destruct pong; discriminate.
Qed.

Lemma set_nth_Forall {A : Type} (P : A -> Prop) (i : nat) (x : A) (v : list A) :
  Forall P v -> P x -> Forall P (set_nth i x v).
Proof.
  intros Hv Hx. revert i; induction Hv as [|y v Hy Hv IH]; intros [|i];
    cbn [set_nth]; constructor; auto.
Qed.

Lemma nth_bounded (routing_table : list Bucket) (i : nat) :
  bounded routing_table -> (length (nth i routing_table []) <= K)%nat.
Proof.
  intros H. destruct (Nat.lt_ge_cases i (length routing_table)) as [Hlt|Hge].
  - unfold bounded in H. rewrite Forall_forall in H. apply H, nth_In, Hlt.
  - rewrite nth_overflow by exact Hge. cbn. unfold K. lia.
Qed.

Lemma add_to_routing_table_bounded
    (my_node_id : NodeID) (pong : bool) (routing_table routing_table' : list Bucket)
    (node : Node) :
  bounded routing_table ->
  add_to_routing_table my_node_id pong routing_table node = Some routing_table' ->
  bounded routing_table' /\ (length routing_table' <= S (length routing_table))%nat.
Proof.
  intros Hb. unfold add_to_routing_table.
  destruct (bucket_scan _ _ _) as [bucket_index|]; [|discriminate].
  set (rt1 := if (length routing_table <=? bucket_index)%nat
              then routing_table ++ [[]] else routing_table).
  assert (Hb1 : bounded rt1).
  { unfold rt1. destruct (length routing_table <=? bucket_index)%nat; [|assumption].
    apply Forall_app. split; [assumption|]. constructor; [|constructor].
    cbn. unfold K. lia. }
  assert (Hl1 : (length rt1 <= S (length routing_table))%nat).
  { unfold rt1. destruct (length routing_table <=? bucket_index)%nat;
      [rewrite length_app; cbn [length]|]; lia. }
  destruct (bucket_insert pong node (nth bucket_index rt1 [])) as [bucket|] eqn:E;
    [|discriminate].
  intros [= <-]. split.
  - apply set_nth_Forall; [assumption|].
    eapply bucket_insert_bound; [|exact E]. now apply nth_bounded.
  - now rewrite set_nth_length.
Qed.

Lemma xor_distance_length (a b : NodeID) : length (xor_distance a b) = NODE_ID_SIZE.
Proof. unfold xor_distance. now rewrite length_map, length_seq. Qed.

(** The scan stays inside the distance array as long as the table has at
    most [8 * NODE_ID_SIZE] buckets. *)
Lemma bucket_scan_defined (distance : NodeID) (remaining i : nat) :
  (i + remaining <= 8 * length distance)%nat ->
  bucket_scan remaining distance i <> None.
Proof.
  revert i; induction remaining as [|remaining IH]; intros i H; cbn [bucket_scan];
    [discriminate|].
  unfold distance_bit.
  destruct (nth_error distance (i / 8)) as [byte|] eqn:E.
  - destruct (negb _); [apply IH; lia | discriminate].
  - exfalso. apply nth_error_None in E.
    assert (i / 8 < length distance)%nat
      by (apply Nat.Div0.div_lt_upper_bound; lia).
    lia.
Qed.

Lemma add_to_routing_table_defined
    (my_node_id : NodeID) (pong : bool) (routing_table : list Bucket) (node : Node) :
  (length routing_table <= 8 * NODE_ID_SIZE)%nat ->
  add_to_routing_table my_node_id pong routing_table node <> None.
Proof.
  intros H. unfold add_to_routing_table.
  destruct (bucket_scan _ _ _) as [bucket_index|] eqn:E.
  - destruct (bucket_insert pong node _) eqn:E2; [discriminate|].
    now apply bucket_insert_defined in E2.
  - exfalso. revert E. apply bucket_scan_defined.
    rewrite xor_distance_length. lia.
Qed.

Lemma add_all_bounded (my_node_id : NodeID) (arrivals : list (Node * bool)) :
  forall routing_table,
    bounded routing_table ->
    match add_all my_node_id routing_table arrivals with
    | Some routing_table' => bounded routing_table'
    | None => (8 * NODE_ID_SIZE < length routing_table + length arrivals)%nat
    end.
Proof.
  induction arrivals as [|[node pong] arrivals IH]; intros routing_table Hb;
    cbn [add_all]; [assumption|].
  destruct (add_to_routing_table my_node_id pong routing_table node)
    as [routing_table'|] eqn:E.
  - destruct (add_to_routing_table_bounded _ _ _ _ _ Hb E) as [Hb' Hl].
    specialize (IH routing_table' Hb').
    destruct (add_all my_node_id routing_table' arrivals); [assumption|].
    cbn [length]. lia.
  - destruct (Nat.le_gt_cases (length routing_table) (8 * NODE_ID_SIZE)) as [Hle|Hgt].
    + exfalso. revert E. now apply add_to_routing_table_defined.
    + cbn [length]. lia.
Qed.

(** C5.  For every local identifier and every run of insertions into the
    table the constructor leaves, whatever the pings answer, every bucket
    holds at most [K = 8] nodes afterwards -- hence after each insertion,
    a prefix of a run being a run.  The one way for a run not to end with
    a table is the read past the end of the distance array, which takes a
    table of more than 160 buckets and so at least 160 insertions. *)
Theorem bucket_size_bound (my_node_id : NodeID) (arrivals : list (Node * bool)) :
  match add_all my_node_id initial_table arrivals with
  | Some routing_table =>
      Forall (fun bucket => (length bucket <= K)%nat) routing_table
  | None => (8 * NODE_ID_SIZE <= length arrivals)%nat
  end.
Proof.
  pose proof (add_all_bounded my_node_id arrivals initial_table) as H.
  assert (Hb : bounded initial_table).
  { constructor; [cbn; unfold K; lia | constructor]. }
  specialize (H Hb).
  destruct (add_all my_node_id initial_table arrivals); [exact H|].
  cbn [initial_table length] in H. lia.
Qed.

(** ** Inserting a node again *)

Lemma node_eqb_eq (a b : Node) : node_eqb a b = true <-> a = b.
Proof.
  unfold node_eqb. rewrite !andb_true_iff, !eqb_eq, Z.eqb_eq.
  destruct a, b; cbn [id ip port]. split.
  - intros [[-> ->] ->]. reflexivity.
  - intros [= -> -> ->]. repeat split.
Qed.

(** The path the source takes when the node is found in the bucket its
    index selects: the entry moves to the tail, nothing else changes. *)
Lemma reinsert_in_selected_bucket
    (my_node_id : NodeID) (pong : bool) (routing_table : list Bucket) (node : Node)
    (bucket_index : nat) (before after : Bucket) :
  bucket_scan (length routing_table) (xor_distance my_node_id (id node)) 0
    = Some bucket_index ->
  (bucket_index < length routing_table)%nat ->
  nth bucket_index routing_table [] = before ++ node :: after ->
  ~ In node before ->
  add_to_routing_table my_node_id pong routing_table node
  = Some (set_nth bucket_index (before ++ after ++ [node]) routing_table).
Proof.
  intros Hscan Hlt Hnth Hbefore. unfold add_to_routing_table. rewrite Hscan.
  replace (length routing_table <=? bucket_index)%nat with false
    by (symmetry; apply Nat.leb_gt; exact Hlt).
  rewrite Hnth. unfold bucket_insert.
  assert (Hfind : std_find node (before ++ node :: after) = Some (before, node, after)).
  { clear Hnth. induction before as [|x before IH]; cbn [app std_find].
    - replace (node_eqb node node) with true by (symmetry; now apply node_eqb_eq).
      reflexivity.
    - destruct (node_eqb x node) eqn:E.
      + apply node_eqb_eq in E. subst x. exfalso. apply Hbefore. now left.
      + rewrite IH; [reflexivity|]. intros HIn. apply Hbefore. now right. }
  now rewrite Hfind.
Qed.

(** Whatever the local identifier, a node whose distance has its bits [0]
    and [1] set is filed twice by two insertions into the table the
    constructor leaves: each insertion finds the index at the bucket count
    and opens a bucket of its own. *)
Lemma reinsert_after_growth
    (my_node_id : NodeID) (node : Node) (pong1 pong2 : bool) :
  bit_lsb_first (xor_distance my_node_id (id node)) 0 = Some true ->
  bit_lsb_first (xor_distance my_node_id (id node)) 1 = Some true ->
  add_all my_node_id initial_table [(node, pong1); (node, pong2)]
  = Some [[]; [node]; [node]].
Proof.
  intros H0 H1. cbn [add_all]. unfold initial_table.
  unfold add_to_routing_table at 1. cbn [length bucket_scan].
  rewrite distance_bit_lsb, H0. cbn [Nat.leb app nth bucket_insert std_find length].
  change (0 <? K)%nat with true. cbv iota. cbn [app set_nth].
  unfold add_to_routing_table. cbn [length bucket_scan].
  rewrite !distance_bit_lsb, H0, H1.
  cbn [Nat.leb app nth bucket_insert std_find length].
  change (0 <? K)%nat with true. reflexivity.
Qed.

(** C8 fails on the code.  With the local identifier all zero, a node whose
    first identifier byte is [0x03] is filed under a new bucket [1] by its
    first insertion; the second insertion then scans one bit further,
    creates bucket [2] and files the node there as well: the table holds
    two copies of the node. *)
Theorem reinsert_leaves_two_copies (pong1 pong2 : bool) :
  add_all zero_id initial_table [(sample_node 3, pong1); (sample_node 3, pong2)]
  = Some [[]; [sample_node 3]; [sample_node 3]].
Proof. reflexivity. Qed.

(** ** The closest nodes *)

Section SortFacts.
Variable A : Type.
Variable lt : A -> A -> bool.
Hypothesis lt_irrefl : forall x, lt x x = false.
Hypothesis lt_trans : forall x y z, lt x y = true -> lt y z = true -> lt x z = true.

Lemma sort_insert_perm (x : A) (l : list A) : Permutation (sort_insert lt x l) (x :: l).
Proof.
  induction l as [|y l IH]; cbn [sort_insert]; [reflexivity|].
  destruct (lt x y); [reflexivity|].
  rewrite IH. apply perm_swap.
Qed.

Lemma std_sort_perm (l : list A) : Permutation (std_sort lt l) l.
Proof.
  induction l as [|x l IH]; cbn [std_sort fold_right]; [reflexivity|].
  fold (std_sort lt l). rewrite sort_insert_perm. now constructor.
Qed.

Lemma lt_asym (x y : A) : lt x y = true -> lt y x = false.
Proof.
  intros H. destruct (lt y x) eqn:E; [|reflexivity].
  pose proof (lt_trans _ _ _ H E) as C. now rewrite lt_irrefl in C.
Qed.

Lemma sort_insert_sorted (x : A) (l : list A) :
  StronglySorted (not_after lt) l -> StronglySorted (not_after lt) (sort_insert lt x l).
Proof.
  induction 1 as [|y l Hl IH Hy]; cbn [sort_insert].
  - repeat constructor.
  - destruct (lt x y) eqn:E.
    + constructor; [now constructor|].
      constructor; [now apply lt_asym|].
      rewrite Forall_forall in Hy |- *. intros z Hz. specialize (Hy z Hz).
      unfold not_after in *. destruct (lt z x) eqn:Ezx; [|reflexivity].
      now rewrite (lt_trans _ _ _ Ezx E) in Hy.
    + constructor; [assumption|].
      rewrite Forall_forall in Hy |- *. intros z Hz.
      apply (Permutation_in _ (sort_insert_perm x l)) in Hz.
      destruct Hz as [<-|Hz]; [exact E | now apply Hy].
Qed.

Lemma std_sort_sorted (l : list A) : StronglySorted (not_after lt) (std_sort lt l).
Proof.
  induction l as [|x l IH]; cbn [std_sort fold_right]; [constructor|].
  now apply sort_insert_sorted.
Qed.
End SortFacts.

Lemma closer_irrefl (target_id : NodeID) (x : Node) : closer target_id x x = false.
Proof. apply ltb_irrefl. Qed.

Lemma closer_trans (target_id : NodeID) (x y z : Node) :
  closer target_id x y = true -> closer target_id y z = true ->
  closer target_id x z = true.
Proof. apply ltb_trans. Qed.

Lemma byte_xor_cancel (a b t : ascii) : byte_xor a t = byte_xor b t -> a = b.
Proof.
  unfold byte_xor. intros H. apply N_of_ascii_inj.
  assert (Hbound : forall x y : ascii,
             (N.lxor (N_of_ascii x) (N_of_ascii y) < 256)%N).
  { intros x y.
    pose proof (N_ascii_bounded x) as Hx. pose proof (N_ascii_bounded y) as Hy.
    destruct (N.eq_dec (N.lxor (N_of_ascii x) (N_of_ascii y)) 0) as [->|Hnz];
      [reflexivity|].
    change 256%N with (2 ^ 8)%N. apply N.log2_lt_pow2; [lia|].
    eapply N.le_lt_trans; [apply N.log2_lxor|].
    apply N.max_lub_lt.
    - destruct (N.eq_dec (N_of_ascii x) 0) as [->|H0]; [reflexivity|].
      apply N.log2_lt_pow2; [lia | exact Hx].
    - destruct (N.eq_dec (N_of_ascii y) 0) as [->|H0]; [reflexivity|].
      apply N.log2_lt_pow2; [lia | exact Hy]. }
  apply (f_equal N_of_ascii) in H.
  rewrite !N_ascii_embedding in H by apply Hbound.
  apply (f_equal (fun n => N.lxor n (N_of_ascii t))) in H.
  now rewrite !N.lxor_assoc, !N.lxor_nilpotent, !N.lxor_0_r in H.
Qed.

(** Two identifiers at the same distance from a target are the same. *)
Lemma xor_distance_inj (a b target_id : NodeID) :
  valid_id a = true -> valid_id b = true ->
  xor_distance a target_id = xor_distance b target_id -> a = b.
Proof.
  unfold valid_id. rewrite !Nat.eqb_eq. intros Ha Hb H.
  apply nth_ext with (d := zero) (d' := zero); [congruence|].
  intros i Hi. unfold xor_distance in H.
  assert (Hin : In i (seq 0 NODE_ID_SIZE)) by (apply in_seq; lia).
  pose proof (proj1 map_ext_in_iff H i Hin) as Hx. cbn beta in Hx.
  now apply byte_xor_cancel in Hx.
Qed.

(** C6, as the code has it.  For every table whose nodes carry 20-byte
    identifiers, every target and every [k], the answer is the first
    [min(k, total)] nodes of an arrangement of all the nodes of the table
    that ascends by XOR distance to the target, nodes at equal distance
    having equal identifiers; the answer has no duplicates when no node is
    held twice in the table. *)
Theorem closest_nodes_sorted
    (routing_table : list Bucket) (target_id : NodeID) (k : nat) :
  Forall (fun n => valid_id (id n) = true) (concat routing_table) ->
  let answer := find_closest_nodes routing_table target_id k in
  length answer = Nat.min k (length (concat routing_table))
  /\ (exists rest,
        Permutation (answer ++ rest) (concat routing_table)
        /\ StronglySorted (in_order target_id) (answer ++ rest))
  /\ (NoDup (concat routing_table) -> NoDup answer).
Proof.
  intros Hvalid answer.
  set (all := concat routing_table) in *.
  set (sorted := std_sort (closer target_id) all).
  assert (Hperm : Permutation sorted all) by apply std_sort_perm.
  assert (Hanswer : answer = firstn k sorted).
  { unfold answer, find_closest_nodes. fold all. fold sorted.
    destruct (Nat.ltb_spec k (length sorted)); [reflexivity|].
    symmetry. now apply firstn_all2. }
  assert (Hsplit : answer ++ skipn k sorted = sorted).
  { rewrite Hanswer. apply firstn_skipn. }
  split; [|split].
  - rewrite Hanswer, length_firstn, (Permutation_length Hperm). reflexivity.
  - exists (skipn k sorted). rewrite Hsplit. split; [exact Hperm|].
    assert (Hs : StronglySorted (not_after (closer target_id)) sorted).
    { apply std_sort_sorted; [apply closer_irrefl | apply closer_trans]. }
    assert (Hv : Forall (fun n => valid_id (id n) = true) sorted).
    { rewrite Forall_forall in Hvalid |- *. intros n Hn.
      apply Hvalid. eapply Permutation_in; eassumption. }
    clearbody sorted. clear -Hs Hv.
    induction Hs as [|a l Hl IH Ha]; [constructor|].
    inversion Hv as [|? ? Hva Hvl]; subst.
    constructor; [now apply IH|].
    rewrite Forall_forall in Ha, Hvl |- *. intros b Hb. split.
    + now apply Ha.
    + intros Heq. apply xor_distance_inj in Heq; [|assumption|now apply Hvl].
      rewrite Heq. apply ltb_irrefl.
  - intros Hnd. apply (Permutation_NoDup (Permutation_sym Hperm)) in Hnd.
    rewrite <- Hsplit in Hnd. now apply NoDup_app_remove_r in Hnd.
Qed.

Lemma closest_nodes_sorted_witness :
  let routing_table := [[sample_node 5]; [sample_node 1; sample_node 3]] in
  find_closest_nodes routing_table zero_id 2 = [sample_node 1; sample_node 3]
  /\ (NoDup (concat routing_table) ->
      NoDup (find_closest_nodes routing_table zero_id 2)).
Proof.
  split; [reflexivity|].
  apply (closest_nodes_sorted [[sample_node 5]; [sample_node 1; sample_node 3]]
                              zero_id 2).
  repeat constructor.
Defined.

(** C6 as stated fails: the table that two insertions of one node leave
    answers with that node twice. *)
Lemma closest_nodes_repeat_a_node :
  add_all zero_id initial_table [(sample_node 3, true); (sample_node 3, true)]
  = Some [[]; [sample_node 3]; [sample_node 3]]
  /\ find_closest_nodes [[]; [sample_node 3]; [sample_node 3]] zero_id K
     = [sample_node 3; sample_node 3]
  /\ ~ NoDup (find_closest_nodes [[]; [sample_node 3]; [sample_node 3]] zero_id K).
Proof.
  split; [reflexivity|]. split; [reflexivity|].
  change (find_closest_nodes [[]; [sample_node 3]; [sample_node 3]] zero_id K)
    with [sample_node 3; sample_node 3].
  intros H. inversion H as [|? ? Hn _]; subst. apply Hn. now left.
Qed.

(* ================================================================== *)
(** * The peer store and the query handlers *)

(** ** Addresses in text and in bytes *)

Lemma byte_of_code (a : ascii) : byte_of (code a) = a.
Proof.
  unfold byte_of, code. pose proof (N_ascii_bounded a) as Hb.
  rewrite Z.mod_small by lia. rewrite N2Z.id. apply ascii_N_embedding.
Qed.

Lemma code_range (a : ascii) : 0 <= code a < 256.
Proof. unfold code. pose proof (N_ascii_bounded a). lia. Qed.

Lemma htons_ntohs (p : ascii * ascii) : htons (ntohs p) = p.
Proof.
  destruct p as [hi lo]. unfold htons, ntohs. cbn [fst snd].
  pose proof (code_range hi). pose proof (code_range lo).
  assert (Hq : (256 * code hi + code lo) / 256 = code hi).
  { symmetry. apply Z.div_unique with (r := code lo); lia. }
  rewrite Hq, byte_of_code. f_equal.
  unfold byte_of.
  assert (Hm : (256 * code hi + code lo) mod 256 = code lo).
  { symmetry. apply Z.mod_unique with (q := code hi); lia. }
  rewrite Hm. unfold code. rewrite N2Z.id. apply ascii_N_embedding.
Qed.

(** One octet, as [inet_ntoa] writes it, is read back by [inet_pton]. *)
Lemma inet_pton_octet (a : ascii) (rest : cstring) (octets : list Z) :
  inet_pton_loop (to_string (code a) ++ rest) octets 0 false
  = inet_pton_loop rest octets (code a) true.
Proof.
  destruct a as [[|] [|] [|] [|] [|] [|] [|] [|]]; reflexivity.
Qed.

Lemma inet_pton_ntoa (a : ascii * ascii * ascii * ascii) :
  inet_pton (inet_ntoa a) = Some a.
Proof.
  destruct a as [[[a0 a1] a2] a3]. unfold inet_pton, inet_ntoa.
  rewrite inet_pton_octet. cbn [app lit list_ascii_of_string inet_pton_loop].
  change (isdigit ".") with false. cbv iota.
  change (Ascii.eqb "." ".") with true. cbn [andb length Nat.leb app].
  rewrite inet_pton_octet. cbn [app inet_pton_loop].
  change (isdigit ".") with false. cbv iota.
  change (Ascii.eqb "." ".") with true. cbn [andb length Nat.leb app].
  rewrite inet_pton_octet. cbn [app inet_pton_loop].
  change (isdigit ".") with false. cbv iota.
  change (Ascii.eqb "." ".") with true. cbn [andb length Nat.leb app].
  rewrite <- (app_nil_r (to_string (code a3))), inet_pton_octet.
  cbn [inet_pton_loop andb length Nat.eqb app].
  now rewrite !byte_of_code.
Qed.

(** ** Announce, then ask *)

Lemma find_in {V : Type} (k : cstring) (v : V) (m : StdMap.t V) :
  StdMap.find k m = Some v -> exists k', In (k', v) m.
Proof.
  induction m as [|[k0 v0] m IH]; cbn [StdMap.find]; [discriminate|].
  destruct (Str.compare k k0).
  - intros [= ->]. exists k0. now left.
  - intros H. destruct (IH H) as [k' Hk']. exists k'. now right.
  - intros H. destruct (IH H) as [k' Hk']. exists k'. now right.
Qed.

Lemma store_ok_find (k : cstring) (peers : list Node) (peer_store : StdMap.t (list Node)) :
  store_ok peer_store -> StdMap.find k peer_store = Some peers -> peers_ok peers.
Proof.
  intros Hok Hf. destruct (find_in k peers peer_store Hf) as [k' Hin].
  unfold store_ok in Hok. rewrite Forall_forall in Hok. exact (Hok _ Hin).
Qed.

Lemma encode_peers_app (peers : list Node) (peer : Node) (values : cstring)
    (ip_binary : ascii * ascii * ascii * ascii) :
  encode_peers peers = Some values ->
  inet_pton (ip peer) = Some ip_binary ->
  encode_peers (peers ++ [peer])
  = Some (values ++ addr_bytes ip_binary ++ port_bytes (htons (port peer))).
Proof.
  revert values; induction peers as [|p peers IH]; intros values Hv Hp;
    cbn [app encode_peers] in *.
  - injection Hv as <-. rewrite Hp. cbn [app]. now rewrite app_nil_r.
  - destruct (inet_pton (ip p)) as [b|]; [|discriminate].
    destruct (encode_peers peers) as [tail|]; [|discriminate].
    injection Hv as <-. rewrite (IH tail eq_refl Hp).
    now rewrite <- !app_assoc.
Qed.

Lemma encode_peers_ok (peers : list Node) :
  peers_ok peers ->
  exists values, encode_peers peers = Some values
                 /\ length values = (6 * length peers)%nat.
Proof.
  induction 1 as [|p peers Hp _ IH]; cbn [encode_peers].
  - now exists [].
  - destruct IH as (tail & -> & Hlen).
    destruct (inet_pton (ip p)) as [[[[a0 a1] a2] a3]|]; [|contradiction].
    eexists. split; [reflexivity|].
    cbn [addr_bytes port_bytes app length]. rewrite Hlen. lia.
Qed.

Lemma find_store_peer (infohash : cstring) (peer : Node)
    (peer_store : StdMap.t (list Node)) :
  StdMap.find infohash (store_peer infohash peer peer_store)
  = Some (match StdMap.find infohash peer_store with
          | Some peers => peers ++ [peer]
          | None => [peer]
          end).
Proof.
  unfold store_peer.
  destruct (StdMap.find infohash peer_store); now rewrite find_assign, eqb_refl.
Qed.

(** The reply every handler sends is the dictionary [{r, t, y}]. *)
Lemma response_str_shape (transaction_id : cstring) (r : list (cstring * BencodedValue)) :
  response_str transaction_id r
  = encode (BDict [(lit "r", BDict (StdMap.of_range r));
                   (lit "t", BString transaction_id);
                   (lit "y", BString (lit "r"))]).
Proof. reflexivity. Qed.

(** C7.  Take an engine whose stored peers all have dotted-decimal
    addresses (which holds from the constructor on).  Dispatching an
    [announce_peer] query for a 20-byte infohash [H] that arrives from
    [sender] answers [{t, y:"r", r:{id}}] to [sender]; dispatching, in the
    engine it leaves, a [get_peers] query for the same [H] answers
    [{t, y:"r", r:{id, values}}], where [values] is a sequence of 6-byte
    records that ends with the compact form of [sender]: its four address
    bytes and its two port bytes. *)
Theorem announce_then_get_peers
    (peer_id peer_id' : NodeID) (st : DHTBootstrap)
    (announce query : BencodedValue) (sender sender' : sockaddr_in)
    (H tid tid' : cstring) :
  store_ok (peer_store_ st) ->
  message_type_of announce = Ret (lit "q") ->
  query_type_of announce = Ret (lit "announce_peer") ->
  argument_of (lit "info_hash") announce = Ret H ->
  transaction_of announce = Ret tid ->
  length H = NODE_ID_SIZE ->
  message_type_of query = Ret (lit "q") ->
  query_type_of query = Ret (lit "get_peers") ->
  argument_of (lit "info_hash") query = Ret H ->
  transaction_of query = Ret tid' ->
  exists st1 peers earlier,
    dispatch peer_id st announce sender
    = Some (st1,
            [(encode (BDict [(lit "r", BDict [(lit "id", BString (id_string (my_node_id_ st)))]);
                             (lit "t", BString tid);
                             (lit "y", BString (lit "r"))]),
              sender)])
    /\ StdMap.find H (peer_store_ st1)
       = Some (peers ++ [mkNode peer_id (inet_ntoa (sin_addr sender))
                                (ntohs (sin_port sender))])
    /\ encode_peers peers = Some earlier
    /\ dispatch peer_id' st1 query sender'
       = Some (st1,
               [(encode (BDict [(lit "r",
                                 BDict [(lit "id", BString (id_string (my_node_id_ st)));
                                        (lit "values",
                                         BString (earlier ++ compact_peer sender))]);
                                (lit "t", BString tid');
                                (lit "y", BString (lit "r"))]),
                 sender')]).
Proof.
  intros Hok Hy Hq Harg Htid Hlen Hy' Hq' Harg' Htid'.
  set (peer := mkNode peer_id (inet_ntoa (sin_addr sender)) (ntohs (sin_port sender))).
  set (old := match StdMap.find H (peer_store_ st) with
              | Some peers => peers | None => [] end).
  assert (Hold : peers_ok old).
  { unfold old. destruct (StdMap.find H (peer_store_ st)) as [peers|] eqn:E.
    - eapply store_ok_find; eassumption.
    - constructor. }
  destruct (encode_peers_ok old Hold) as (earlier & Hearlier & Hel).
  assert (Hnew : match StdMap.find H (peer_store_ st) with
                 | Some peers => peers ++ [peer]
                 | None => [peer]
                 end = old ++ [peer]).
  { unfold old. now destruct (StdMap.find H (peer_store_ st)). }
  exists (mkDHT (my_node_id_ st) (routing_table_ st) (bootstrap_nodes_ st)
                (store_peer H peer (peer_store_ st))), old, earlier.
  split; [|split; [|split]].
  - unfold dispatch. rewrite Hy.
    change (Str.eqb (lit "q") (lit "q")) with true. cbv iota.
    rewrite Hq.
    change (Str.eqb (lit "announce_peer") (lit "ping")) with false.
    change (Str.eqb (lit "announce_peer") (lit "find_node")) with false.
    change (Str.eqb (lit "announce_peer") (lit "get_peers")) with false.
    change (Str.eqb (lit "announce_peer") (lit "announce_peer")) with true.
    cbv iota.
    unfold handle_announce_peer. rewrite Harg.
    unfold string_to_node_id. rewrite Hlen, Nat.eqb_refl. cbn [negb bind].
    rewrite Htid. cbn [my_node_id_]. reflexivity.
  - cbn [peer_store_]. now rewrite find_store_peer, Hnew.
  - exact Hearlier.
  - unfold dispatch. rewrite Hy'.
    change (Str.eqb (lit "q") (lit "q")) with true. cbv iota.
    rewrite Hq'.
    change (Str.eqb (lit "get_peers") (lit "ping")) with false.
    change (Str.eqb (lit "get_peers") (lit "find_node")) with false.
    change (Str.eqb (lit "get_peers") (lit "get_peers")) with true.
    cbv iota.
    unfold handle_get_peers. rewrite Htid', Harg'. cbn [bind peer_store_].
    rewrite find_store_peer, Hnew.
    rewrite (encode_peers_app old peer earlier (sin_addr sender) Hearlier)
      by apply inet_pton_ntoa.
    unfold compact_peer, peer. cbn [port my_node_id_]. now rewrite htons_ntohs.
Qed.

Lemma announce_then_get_peers_witness :
  inet_ntoa (sin_addr sample_sender) = lit "9.9.9.9"
  /\ ntohs (sin_port sample_sender) = 1234
  /\ exists st1 peers earlier,
       dispatch zero_id (new_engine zero_id) sample_announce sample_sender
       = Some (st1,
               [(encode (BDict [(lit "r", BDict [(lit "id", BString (id_string zero_id))]);
                                (lit "t", BString (lit "aa"));
                                (lit "y", BString (lit "r"))]),
                 sample_sender)])
       /\ StdMap.find sample_infohash (peer_store_ st1)
          = Some (peers ++ [mkNode zero_id (inet_ntoa (sin_addr sample_sender))
                                   (ntohs (sin_port sample_sender))])
       /\ encode_peers peers = Some earlier
       /\ dispatch zero_id st1 sample_get_peers sample_sender
          = Some (st1,
                  [(encode (BDict [(lit "r",
                                    BDict [(lit "id", BString (id_string zero_id));
                                           (lit "values",
                                            BString (earlier ++ compact_peer sample_sender))]);
                                   (lit "t", BString (lit "bb"));
                                   (lit "y", BString (lit "r"))]),
                    sample_sender)]).
Proof.
  split; [reflexivity|]. split; [reflexivity|].
  apply (announce_then_get_peers zero_id zero_id (new_engine zero_id)
           sample_announce sample_get_peers sample_sender sample_sender
           sample_infohash (lit "aa") (lit "bb")); try reflexivity.
  constructor.
Defined.

(** The invariant of the theorem holds from the constructor on, and every
    dispatch keeps it. *)
Lemma store_ok_new (my_node_id : NodeID) : store_ok (peer_store_ (new_engine my_node_id)).
Proof. constructor. Qed.

Lemma assign_Forall {V : Type} (P : cstring * V -> Prop) (k : cstring) (v : V)
    (m : StdMap.t V) :
  (forall k', P (k', v)) -> Forall P m -> Forall P (StdMap.assign k v m).
Proof.
  intros Hv. induction 1 as [|[k0 v0] m H0 Hm IH]; cbn [StdMap.assign].
  - repeat constructor. apply Hv.
  - destruct (Str.compare k k0); repeat constructor; auto.
Qed.

Lemma store_peer_ok (infohash : cstring) (peer : Node) (peer_store : StdMap.t (list Node)) :
  inet_pton (ip peer) <> None -> store_ok peer_store ->
  store_ok (store_peer infohash peer peer_store).
Proof.
  intros Hp Hok. unfold store_peer.
  destruct (StdMap.find infohash peer_store) as [peers|] eqn:E.
  - apply assign_Forall; [|exact Hok]. intros k'. cbn [snd].
    apply Forall_app. split; [eapply store_ok_find; eassumption|].
    now repeat constructor.
  - apply assign_Forall; [|exact Hok]. intros k'. cbn [snd]. now repeat constructor.
Qed.

Ltac unchanged :=
  let E := fresh "E" in intros E; injection E as ? ?; subst; assumption.

Lemma dispatch_store_ok (peer_id : NodeID) (st st' : DHTBootstrap)
    (message : BencodedValue) (sender : sockaddr_in) (sent : list datagram) :
  store_ok (peer_store_ st) ->
  dispatch peer_id st message sender = Some (st', sent) ->
  store_ok (peer_store_ st').
Proof.
  intros Hok. unfold dispatch.
  destruct (message_type_of message) as [message_type| |]; try discriminate;
    [|unchanged].
  destruct (Str.eqb message_type (lit "q")); [|unchanged].
  destruct (query_type_of message) as [query_type| |]; try discriminate;
    [|unchanged].
  destruct (Str.eqb query_type (lit "ping")).
  { unfold handle_ping. destruct (transaction_of message); try discriminate;
      unchanged. }
  destruct (Str.eqb query_type (lit "find_node")).
  { unfold handle_find_node.
    destruct (bind _ _) as [[tid target]| |]; try discriminate;
      [|unchanged].
    destruct (memcpy_node_id target); [|discriminate].
    destruct (encode_nodes _); [|discriminate]. unchanged. }
  destruct (Str.eqb query_type (lit "get_peers")).
  { unfold handle_get_peers.
    destruct (bind _ _) as [[tid infohash]| |]; try discriminate;
      [|unchanged].
    destruct (StdMap.find infohash (peer_store_ st)).
    - destruct (encode_peers _); [|discriminate]. unchanged.
    - destruct (memcpy_node_id infohash); [|discriminate].
      destruct (encode_nodes _); [|discriminate]. unchanged. }
  destruct (Str.eqb query_type (lit "announce_peer")); [|unchanged].
  unfold handle_announce_peer.
  destruct (argument_of (lit "info_hash") message) as [infohash| |];
    try discriminate; [|unchanged].
  assert (Hs : store_ok (store_peer infohash
                 (mkNode peer_id (inet_ntoa (sin_addr sender)) (ntohs (sin_port sender)))
                 (peer_store_ st))).
  { apply store_peer_ok; [|exact Hok]. cbn [ip]. now rewrite inet_pton_ntoa. }
  destruct (bind _ _); try discriminate;
    intros E; injection E as ? ?; subst; exact Hs.
Qed.

(** ** The keys of the peer store *)

(** C9 fails on the code.  An [announce_peer] datagram whose [info_hash]
    has three bytes is stored under that three-byte key: the handler
    appends to [peer_store_[infohash]] first, and the length check of
    [string_to_node_id] throws only afterwards, in the log line, which
    merely keeps the reply from being sent. *)
Theorem short_infohash_is_stored :
  exists st',
    run_once 10 zero_id (new_engine zero_id) short_announce sample_sender
    = Some (st', [])
    /\ StdMap.keys (peer_store_ st') = [lit "abc"]
    /\ ~ Forall (fun key => length key = NODE_ID_SIZE) (StdMap.keys (peer_store_ st')).
Proof.
  exists (mkDHT zero_id initial_table []
                [(lit "abc", [mkNode zero_id (lit "9.9.9.9") 1234])]).
  split; [vm_compute; reflexivity|]. split; [reflexivity|].
  cbn. intros H. inversion H as [|? ? Hlen _]; subst. discriminate Hlen.
Qed.

(* ================================================================== *)
(** * Further properties of the codec *)

(** ** What the parser gives back *)

(** X1.  The top-level parse reads one value and leaves whatever follows
    it unread: a well-formed input followed by any bytes decodes to the
    value of the well-formed part. *)
Theorem parse_ignores_trailing (w : wire) (rest : cstring) (fuel : nat) :
  wire_ok w = true ->
  fits (render w ++ rest) ->
  (weight w <= fuel)%nat ->
  parse fuel (render w ++ rest) = Ret (denote w).
Proof.
  intros Hok Hfit Hfuel. unfold parse.
  pose proof (parseValue_render w Hok fuel Hfuel [] rest) as H.
  cbn [app] in H. change (size []) with 0 in H.
  rewrite H by assumption. reflexivity.
Qed.

Lemma parse_ignores_trailing_witness :
  parse 10 (lit "li1ei2ee" ++ lit "trailing bytes") = Ret (BList [BInt 1; BInt 2]).
Proof.
  apply (parse_ignores_trailing (WList [WInt 1; WInt 2]) (lit "trailing bytes") 10).
  - reflexivity.
  - unfold fits. vm_compute. reflexivity.
  - vm_compute. lia.
Defined.

Lemma stoll_range (s : cstring) (n : Z) :
  stoll s = Ret n -> INT64_MIN <= n <= INT64_MAX.
Proof.
  unfold stoll.
  destruct (match skip_spaces s with
            | [] => (false, skip_spaces s)
            | c :: s' => if Ascii.eqb c "-" then (true, s')
                         else if Ascii.eqb c "+" then (false, s')
                         else (false, skip_spaces s)
            end) as [negative s2].
  destruct (read_digits s2 0 0) as [magnitude [|count]]; [discriminate|].
  set (v := if negative then - magnitude else magnitude).
  destruct (Z.ltb_spec v INT64_MIN); [discriminate|].
  destruct (Z.ltb_spec INT64_MAX v); [discriminate|].
  cbn [orb]. intros [= <-]. lia.
Qed.

Lemma parseInt_range (data : cstring) (pos n pos' : Z) :
  parseInt data pos = Ret (n, pos') -> INT64_MIN <= n <= INT64_MAX.
Proof.
  unfold parseInt.
  destruct (_ =? npos); [discriminate|].
  destruct (substr _ _ _) as [numberStr| |]; cbn [bind]; try discriminate.
  destruct (stoll numberStr) as [m| |] eqn:E; try discriminate.
  intros [= <- _]. eapply stoll_range, E.
Qed.

Section LoopValues.
Variable pv : cstring -> Z -> result (BencodedValue * Z).
Hypothesis Hpv : forall data pos, result_ok (pv data pos).

Lemma parseList_loop_ok (iters : nat) data pos acc l pos' :
  forallb value_ok acc = true ->
  parseList_loop pv iters data pos acc = Ret (l, pos') ->
  forallb value_ok l = true.
Proof.
  revert pos acc; induction iters as [|iters IH]; intros pos acc Hacc H;
    cbn [parseList_loop] in H; [discriminate|].
  destruct ((pos <? size data) && negb (Ascii.eqb (at_ data pos) "e")).
  - destruct (pv data pos) as [[v p]| |] eqn:E; cbn [bind] in H; try discriminate.
    eapply IH; [|exact H].
    rewrite forallb_app, Hacc. cbn [forallb andb].
    now rewrite (Hpv data pos v p E).
  - destruct (_ || _); [discriminate|]. now injection H as <- _.
Qed.

Lemma parseDict_loop_ok (iters : nat) data pos (acc d : BencodedDict) pos' :
  StdMap.ordered acc = true ->
  Forall (fun kv => value_ok (snd kv) = true) acc ->
  parseDict_loop pv iters data pos acc = Ret (d, pos') ->
  StdMap.ordered d = true /\ Forall (fun kv => value_ok (snd kv) = true) d.
Proof.
  revert pos acc; induction iters as [|iters IH]; intros pos acc Ho Hacc H;
    cbn [parseDict_loop] in H; [discriminate|].
  destruct ((pos <? size data) && negb (Ascii.eqb (at_ data pos) "e")).
  - destruct (parseString data pos) as [[key pos1]| |]; cbn [bind] in H;
      try discriminate.
    destruct (pv data pos1) as [[v p]| |] eqn:E; cbn [bind] in H; try discriminate.
    eapply IH; [| |exact H].
    + now apply assign_ordered.
    + apply assign_Forall; [|exact Hacc]. intros k'. cbn [snd].
      exact (Hpv data pos1 v p E).
  - destruct (_ || _); [discriminate|]. injection H as <- _. now split.
Qed.
End LoopValues.

Lemma parseValue_ok (fuel : nat) (data : cstring) (pos : Z) :
  result_ok (parseValue fuel data pos).
Proof.
  revert data pos; induction fuel as [|fuel IH]; intros data pos v pos' H;
    cbn [parseValue] in H; [discriminate|].
  destruct (size data <=? pos); [discriminate|].
  destruct (Ascii.eqb (at_ data pos) "i").
  { destruct (parseInt data pos) as [[n p]| |] eqn:E; cbn [bind] in H;
      try discriminate.
    injection H as <- _. apply parseInt_range in E. cbn [value_ok].
    apply andb_true_iff. rewrite !Z.leb_le. lia. }
  destruct (Ascii.eqb (at_ data pos) "l").
  { unfold parseList in H.
    destruct (parseList_loop _ _ _ _ _) as [[l p]| |] eqn:E; cbn [bind] in H;
      try discriminate.
    injection H as <- _. cbn [value_ok].
    eapply (parseList_loop_ok (parseValue fuel) IH); [|exact E]. reflexivity. }
  destruct (Ascii.eqb (at_ data pos) "d").
  { unfold parseDict in H.
    destruct (parseDict_loop _ _ _ _ _) as [[d p]| |] eqn:E; cbn [bind] in H;
      try discriminate.
    injection H as <- _. cbn [value_ok].
    destruct (parseDict_loop_ok (parseValue fuel) IH fuel data _ [] d p eq_refl
                                (Forall_nil _) E) as [Ho Hv].
    unfold StdMap.ordered, StdMap.keys in Ho. rewrite Ho. cbn [andb].
    apply forallb_forall. rewrite Forall_forall in Hv. exact Hv. }
  destruct (isdigit (at_ data pos)); [|discriminate].
  destruct (parseString data pos) as [[s p]| |]; cbn [bind] in H; try discriminate.
  now injection H as <- _.
Qed.

(** The same of the top-level [parse]. *)
Lemma parse_ret_ok (fuel : nat) (data : cstring) (v : BencodedValue) :
  parse fuel data = Ret v -> value_ok v = true.
Proof.
  unfold parse. intros H.
  destruct (parseValue fuel data 0) as [[v' p]| |] eqn:E; cbn [bind] in H;
    try discriminate.
  injection H as <-. exact (parseValue_ok fuel data 0 v' p E).
Qed.

(** X2.  Whatever bytes it is given, a value that [parse] returns is a
    value of the C++ type: every integer in it fits [int64_t] and the keys
    of every dictionary in it, at every level, are distinct and in
    ascending order. *)
Theorem parse_value_ok (fuel : nat) (data : cstring) (v : BencodedValue) :
  parse fuel data = Ret v -> value_ok v = true.
Proof. exact (parse_ret_ok fuel data v). Qed.

Lemma parse_value_ok_witness :
  value_ok (BDict [(lit "a", BInt 2); (lit "b", BString [])]) = true.
Proof.
  apply (parse_value_ok 5 (lit "d1:b0:1:ai1e1:ai2ee")). reflexivity.
Defined.

(** Decoding an encoding, from the lemmas on values and syntax trees. *)
Lemma parse_encode_value (v : BencodedValue) (fuel : nat) :
  value_ok v = true -> fits (encode v) -> (weight (wire_of v) <= fuel)%nat ->
  parse fuel (encode v) = Ret v.
Proof.
  intros Hok Hfit Hfuel. rewrite encode_render in * by assumption.
  rewrite parse_render by auto using wire_of_ok. now rewrite denote_wire_of.
Qed.

(** X3.  Encoding puts a decoded value into a form that decodes to the
    same value: if an input, well-formed or not, decodes to [v], then the
    encoding of [v] decodes to [v] again. *)
Theorem reencode_decodes_same
    (fuel fuel' : nat) (data : cstring) (v : BencodedValue) :
  parse fuel data = Ret v ->
  fits (encode v) ->
  (weight (wire_of v) <= fuel')%nat ->
  parse fuel' (encode v) = Ret v.
Proof.
  intros Hp Hfit Hfuel. apply parse_encode_value; try assumption.
  eapply parse_ret_ok, Hp.
Qed.

Lemma reencode_decodes_same_witness :
  encode (BDict [(lit "a", BInt 2); (lit "b", BInt 1)]) = lit "d1:ai2e1:bi1ee"
  /\ parse 10 (encode (BDict [(lit "a", BInt 2); (lit "b", BInt 1)]))
     = Ret (BDict [(lit "a", BInt 2); (lit "b", BInt 1)]).
Proof.
  split; [reflexivity|].
  apply (reencode_decodes_same 5 10 (lit "d1:bi01e1:a0:1:ai+2 ee")).
  - reflexivity.
  - unfold fits. vm_compute. reflexivity.
  - vm_compute. lia.
Defined.

(** X4.  Two values of the C++ type with the same encoding are the same
    value. *)
Theorem encode_injective (v1 v2 : BencodedValue) :
  value_ok v1 = true -> value_ok v2 = true ->
  fits (encode v1) ->
  encode v1 = encode v2 -> v1 = v2.
Proof.
  intros H1 H2 Hfit Heq.
  set (fuel := Nat.max (weight (wire_of v1)) (weight (wire_of v2))).
  pose proof (parse_encode_value v1 fuel H1 Hfit (Nat.le_max_l _ _)) as P1.
  rewrite Heq in Hfit, P1.
  pose proof (parse_encode_value v2 fuel H2 Hfit (Nat.le_max_r _ _)) as P2.
  congruence.
Qed.

Lemma encode_injective_witness :
  encode (BDict [(lit "a", BInt 1)]) <> encode (BDict [(lit "a", BString (lit "1"))]).
Proof.
  intros Heq.
  apply (encode_injective (BDict [(lit "a", BInt 1)])
                          (BDict [(lit "a", BString (lit "1"))])) in Heq.
  - discriminate Heq.
  - reflexivity.
  - reflexivity.
  - unfold fits. vm_compute. reflexivity.
Defined.

(** ** Integers as [std::stoll] reads them *)

Lemma skip_spaces_app (ws s : cstring) :
  Forall (fun c => isspace c = true) ws -> skip_spaces (ws ++ s) = skip_spaces s.
Proof.
  induction 1 as [|c ws Hc _ IH]; cbn [app skip_spaces]; [reflexivity|].
  now rewrite Hc.
Qed.

Lemma read_digits_stop (junk : cstring) (acc : Z) (count : nat) :
  match junk with c :: _ => isdigit c = false | [] => True end ->
  read_digits junk acc count = (acc, count).
Proof. destruct junk as [|c junk]; cbn [read_digits]; [reflexivity|]. now intros ->. Qed.

(** [stoll] skips leading white space and stops at the first character
    that is no digit. *)
Lemma stoll_padded (ws junk : cstring) (z : Z) :
  INT64_MIN <= z <= INT64_MAX ->
  Forall (fun c => isspace c = true) ws ->
  match junk with c :: _ => isdigit c = false | [] => True end ->
  stoll (ws ++ to_string z ++ junk) = Ret z.
Proof.
  intros Hr Hws Hjunk. unfold stoll. rewrite skip_spaces_app by assumption.
  assert (Hrange : (z <? INT64_MIN) || (INT64_MAX <? z) = false).
  { apply orb_false_iff. split; apply Z.ltb_ge; lia. }
  destruct (Z.ltb_spec z 0) as [Hneg|Hpos].
  - rewrite to_string_neg by assumption.
    cbn [app skip_spaces]. change (isspace "-") with false. cbv iota.
    change (Ascii.eqb "-" "-") with true. cbv iota.
    rewrite <- to_digits_app.
    destruct (to_digits_read (Z.to_nat (Z.log2 (- z))) (- z) junk O) as [k Hk].
    { split; [lia|]. apply (digits_fuel_enough (- z)). lia. }
    unfold digits_fuel. rewrite Hk, read_digits_stop by assumption.
    now rewrite Z.opp_involutive, Hrange.
  - destruct (to_string_head_nonneg z Hpos) as (c & r & E & Hd).
    pose proof (to_string_nonneg z Hpos) as E'.
    rewrite E. cbn [app skip_spaces]. rewrite (isdigit_not_space _ Hd).
    rewrite (isdigit_neq c "-" Hd eq_refl), (isdigit_neq c "+" Hd eq_refl).
    change (c :: r ++ junk) with ((c :: r) ++ junk).
    rewrite <- E, E', <- to_digits_app.
    destruct (to_digits_read (Z.to_nat (Z.log2 z)) z junk O) as [k Hk].
    { split; [lia|]. now apply digits_fuel_enough. }
    unfold digits_fuel. rewrite Hk, read_digits_stop by assumption.
    now rewrite Hrange.
Qed.

(** [parseInt] on any text without ['e'] between the tag and the
    terminator: the text goes to [stoll] as it is. *)
Lemma parseInt_text (pre mid rest : cstring) :
  ~ In "e"%char mid ->
  fits (pre ++ "i"%char :: mid ++ "e"%char :: rest) ->
  parseInt (pre ++ "i"%char :: mid ++ "e"%char :: rest) (size pre)
  = match stoll mid with
    | Ret n => Ret (n, size pre + size mid + 2)
    | Throw _ => Throw (runtime_error "Invalid integer value")
    | Diverge => Diverge
    end.
Proof.
  intros Hmid Hfit. apply fits_size_mod in Hfit.
  assert (Hsz : size (pre ++ "i"%char :: mid ++ "e"%char :: rest)
                = size pre + 1 + size mid + 1 + size rest).
  { rewrite size_app, size_cons, size_app, size_cons. lia. }
  rewrite Hsz in Hfit.
  assert (Hdata : pre ++ "i"%char :: mid ++ "e"%char :: rest
                  = (pre ++ ["i"%char]) ++ mid ++ "e"%char :: rest).
  { now rewrite <- app_assoc. }
  rewrite Hdata.
  pose proof (size_nonneg pre). pose proof (size_nonneg mid).
  pose proof (size_nonneg rest).
  assert (Hp : size (pre ++ ["i"%char]) = size pre + 1).
  { rewrite size_app. reflexivity. }
  unfold parseInt.
  rewrite (to_size_t_small (size pre + 1)) by lia.
  rewrite <- Hp, find_app by assumption.
  rewrite Hp.
  destruct (Z.eqb_spec (size pre + 1 + size mid) npos) as [E|_];
    [unfold npos in E; lia|].
  replace (size pre + 1 + size mid - (size pre + 1)) with (size mid) by lia.
  rewrite (to_size_t_small (size mid)) by lia.
  rewrite <- Hp, substr_app. cbn [bind]. rewrite Hp.
  destruct (stoll mid); try reflexivity.
  rewrite to_size_t_small by lia. do 2 f_equal. lia.
Qed.

Lemma isspace_not_e (c : ascii) : isspace c = true -> c <> "e"%char.
Proof. intros H ->. discriminate H. Qed.

(** X5.  An integer is whatever [std::stoll] makes of the text between
    ['i'] and the next ['e']: white space in front of the numeral and any
    text behind it that does not begin with a digit are skipped, so such
    an input decodes to the integer of the numeral. *)
Theorem integer_padding_is_skipped
    (ws junk rest : cstring) (z : Z) (fuel : nat) :
  INT64_MIN <= z <= INT64_MAX ->
  Forall (fun c => isspace c = true) ws ->
  match junk with c :: _ => isdigit c = false | [] => True end ->
  ~ In "e"%char junk ->
  fits (lit "i" ++ ws ++ to_string z ++ junk ++ lit "e" ++ rest) ->
  (1 <= fuel)%nat ->
  parse fuel (lit "i" ++ ws ++ to_string z ++ junk ++ lit "e" ++ rest) = Ret (BInt z).
Proof.
  intros Hz Hws Hhead Hjunk Hfit Hfuel.
  destruct fuel as [|fuel]; [lia|].
  assert (Hmid : ~ In "e"%char (ws ++ to_string z ++ junk)).
  { intros HIn. apply in_app_or in HIn as [HIn|HIn].
    - rewrite Forall_forall in Hws. now apply (isspace_not_e _ (Hws _ HIn)).
    - apply in_app_or in HIn as [HIn|HIn]; [|contradiction].
      revert HIn. apply to_string_avoids; [reflexivity | discriminate]. }
  assert (Hdata : lit "i" ++ ws ++ to_string z ++ junk ++ lit "e" ++ rest
                  = [] ++ "i"%char :: (ws ++ to_string z ++ junk) ++ "e"%char :: rest).
  { cbn [app lit list_ascii_of_string]. now rewrite <- !app_assoc. }
  rewrite Hdata in *.
  pose proof (parseInt_text [] _ rest Hmid Hfit) as HP.
  change (size []) with 0 in HP. rewrite stoll_padded in HP by assumption.
  cbn [app] in *. unfold parse. cbn [parseValue].
  rewrite size_cons.
  pose proof (size_nonneg ((ws ++ to_string z ++ junk) ++ "e"%char :: rest)).
  destruct (Z.leb_spec (1 + size ((ws ++ to_string z ++ junk) ++ "e"%char :: rest)) 0);
    [lia|].
  change (at_ ("i"%char :: (ws ++ to_string z ++ junk) ++ "e"%char :: rest) 0)
    with "i"%char.
  cbn [Ascii.eqb Bool.eqb]. cbv iota. rewrite HP. reflexivity.
Qed.

Lemma integer_padding_is_skipped_witness :
  parse 1 (lit "i" ++ lit "  " ++ to_string (-42) ++ lit ".5 units" ++ lit "e" ++ [])
  = Ret (BInt (-42)).
Proof.
  apply (integer_padding_is_skipped (lit "  ") (lit ".5 units") [] (-42) 1).
  - vm_compute. split; discriminate.
  - repeat constructor.
  - reflexivity.
  - vm_compute. intuition discriminate.
  - unfold fits. vm_compute. reflexivity.
  - lia.
Defined.

(* ================================================================== *)
(** * Further properties of the routing table *)

(** ** No node twice in a bucket *)

Lemma std_find_none_not_in (node : Node) (bucket : Bucket) :
  std_find node bucket = None -> ~ In node bucket.
Proof.
  intros H HIn. apply std_find_none in H. rewrite Forall_forall in H.
  specialize (H node HIn).
  assert (node_eqb node node = true) by now apply node_eqb_eq. congruence.
Qed.

Lemma bucket_insert_perm_or_new (pong : bool) (node : Node) (bucket bucket' : Bucket) :
  bucket_insert pong node bucket = Some bucket' ->
  Permutation bucket' bucket
  \/ (~ In node bucket /\ bucket' = bucket ++ [node] /\ (length bucket < K)%nat)
  \/ (~ In node bucket /\ pong = false /\ (K <= length bucket)%nat
      /\ exists oldest rest, bucket = oldest :: rest /\ bucket' = node :: rest).
Proof.
  unfold bucket_insert.
  destruct (std_find node bucket) as [[[before it] after]|] eqn:E.
  - apply std_find_split in E as (-> & _ & _). intros [= <-]. left.
    apply Permutation_app_head. symmetry. apply Permutation_cons_append.
  - apply std_find_none_not_in in E.
    destruct (Nat.ltb_spec (length bucket) K).
    + intros [= <-]. right. left. now repeat split.
    + destruct bucket as [|oldest rest]; [discriminate|].
      destruct pong; intros [= <-].
      * left. symmetry. apply Permutation_cons_append.
      * right. right. repeat split; try assumption. now exists oldest, rest.
Qed.

Lemma bucket_insert_nodup (pong : bool) (node : Node) (bucket bucket' : Bucket) :
  NoDup bucket -> bucket_insert pong node bucket = Some bucket' -> NoDup bucket'.
Proof.
  intros Hnd H.
  destruct (bucket_insert_perm_or_new _ _ _ _ H)
    as [Hp | [(Hn & -> & _) | (Hn & _ & _ & oldest & rest & -> & ->)]].
  - eapply Permutation_NoDup; [symmetry; exact Hp | exact Hnd].
  - apply NoDup_app; [exact Hnd | repeat constructor; intros [] |].
    intros x Hx [<-|[]]. contradiction.
  - inversion Hnd; subst. constructor; [|assumption].
    intros HIn. apply Hn. now right.
Qed.

(** The buckets of a table after the possible [emplace_back]. *)
Lemma grown_Forall (P : Bucket -> Prop) (routing_table : list Bucket) (i : nat) :
  P [] -> Forall P routing_table ->
  Forall P (if (length routing_table <=? i)%nat
            then routing_table ++ [[]] else routing_table).
Proof.
  intros H0 H. destruct (length routing_table <=? i)%nat; [|assumption].
  apply Forall_app. split; [assumption | now repeat constructor].
Qed.

Lemma nth_Forall {A : Type} (P : A -> Prop) (l : list A) (i : nat) (d : A) :
  P d -> Forall P l -> P (nth i l d).
Proof.
  intros Hd H. destruct (Nat.lt_ge_cases i (length l)) as [Hlt|Hge].
  - rewrite Forall_forall in H. apply H, nth_In, Hlt.
  - now rewrite nth_overflow.
Qed.

Lemma add_to_routing_table_nodup
    (my_node_id : NodeID) (pong : bool) (routing_table routing_table' : list Bucket)
    (node : Node) :
  Forall (@NoDup Node) routing_table ->
  add_to_routing_table my_node_id pong routing_table node = Some routing_table' ->
  Forall (@NoDup Node) routing_table'.
Proof.
  intros Hnd. unfold add_to_routing_table.
  destruct (bucket_scan _ _ _) as [bucket_index|]; [|discriminate].
  pose proof (grown_Forall _ routing_table bucket_index (NoDup_nil _) Hnd) as H1.
  destruct (bucket_insert pong node _) as [bucket|] eqn:E; [|discriminate].
  intros [= <-]. apply set_nth_Forall; [assumption|].
  eapply bucket_insert_nodup; [|exact E].
  apply nth_Forall; [constructor | assumption].
Qed.

Lemma add_all_nodup (my_node_id : NodeID) (arrivals : list (Node * bool)) :
  forall routing_table routing_table',
    Forall (@NoDup Node) routing_table ->
    add_all my_node_id routing_table arrivals = Some routing_table' ->
    Forall (@NoDup Node) routing_table'.
Proof.
  induction arrivals as [|[node pong] arrivals IH]; intros rt rt' Hnd;
    cbn [add_all]; [now intros [= <-]|].
  destruct (add_to_routing_table my_node_id pong rt node) as [rt1|] eqn:E;
    [|discriminate].
  apply IH. eapply add_to_routing_table_nodup; eassumption.
Qed.

(** X6.  Whatever the local identifier, the arrivals and the answers to
    the pings, no bucket of the table ever holds a node twice: after every
    run of insertions from the constructor's table each bucket is free of
    duplicates.  (A run ends without a table only through the read past
    the distance array, after at least 160 insertions.) *)
Theorem buckets_hold_no_duplicates
    (my_node_id : NodeID) (arrivals : list (Node * bool)) :
  match add_all my_node_id initial_table arrivals with
  | Some routing_table => Forall (@NoDup Node) routing_table
  | None => (8 * NODE_ID_SIZE <= length arrivals)%nat
  end.
Proof.
  destruct (add_all my_node_id initial_table arrivals) as [rt|] eqn:E.
  - eapply add_all_nodup; [|exact E]. repeat constructor.
  - pose proof (add_all_bounded my_node_id arrivals initial_table) as H.
    rewrite E in H. cbn [initial_table length] in H.
    assert (Hb : bounded [[]]) by (constructor; [cbn; unfold K; lia | constructor]).
    specialize (H Hb). lia.
Qed.

(** ** What an insertion changes *)

Lemma nth_set_nth {A : Type} (i j : nat) (x d : A) (v : list A) :
  nth j (set_nth i x v) d
  = if (j =? i)%nat && (i <? length v)%nat then x else nth j v d.
Proof.
  revert i j; induction v as [|y v IH]; intros i j.
  - cbn [set_nth length]. destruct i, j; cbn; rewrite ?andb_false_r; reflexivity.
  - destruct i as [|i], j as [|j]; cbn [set_nth nth length]; try reflexivity.
    rewrite IH. cbn [Nat.eqb]. reflexivity.
Qed.

Lemma bucket_scan_le (distance : NodeID) (remaining i idx : nat) :
  bucket_scan remaining distance i = Some idx -> (idx <= i + remaining)%nat.
Proof. intros H. apply bucket_scan_spec in H. lia. Qed.

(** The shape of every successful insertion. *)
Lemma add_to_routing_table_shape
    (my_node_id : NodeID) (pong : bool) (routing_table routing_table' : list Bucket)
    (node : Node) :
  add_to_routing_table my_node_id pong routing_table node = Some routing_table' ->
  exists bucket_index bucket',
    (bucket_index <= length routing_table)%nat
    /\ bucket_insert pong node (nth bucket_index routing_table []) = Some bucket'
    /\ nth bucket_index routing_table' [] = bucket'
    /\ length routing_table' = Nat.max (length routing_table) (S bucket_index)
    /\ forall j, j <> bucket_index -> nth j routing_table' [] = nth j routing_table [].
Proof.
  unfold add_to_routing_table.
  destruct (bucket_scan _ _ _) as [bucket_index|] eqn:Hscan; [|discriminate].
  apply bucket_scan_le in Hscan. rewrite Nat.add_0_l in Hscan.
  set (rt1 := if (length routing_table <=? bucket_index)%nat
              then routing_table ++ [[]] else routing_table).
  assert (Hnth : forall j, nth j rt1 [] = nth j routing_table []).
  { intros j. unfold rt1.
    destruct (Nat.leb_spec (length routing_table) bucket_index); [|reflexivity].
    destruct (Nat.lt_ge_cases j (length routing_table)) as [Hj|Hj].
    - now apply app_nth1.
    - rewrite app_nth2 by exact Hj. rewrite (nth_overflow routing_table) by exact Hj.
      destruct (j - length routing_table)%nat as [|[|n]]; reflexivity. }
  assert (Hlen : length rt1 = Nat.max (length routing_table) (S bucket_index)).
  { unfold rt1. destruct (Nat.leb_spec (length routing_table) bucket_index);
      [rewrite length_app; cbn [length]|]; lia. }
  rewrite Hnth.
  destruct (bucket_insert pong node (nth bucket_index routing_table []))
    as [bucket'|] eqn:E; [|discriminate].
  intros [= <-]. exists bucket_index, bucket'.
  split; [exact Hscan|]. split; [exact E|]. split; [|split].
  - rewrite nth_set_nth, Nat.eqb_refl.
    replace (bucket_index <? length rt1)%nat with true; [reflexivity|].
    symmetry. apply Nat.ltb_lt. lia.
  - now rewrite set_nth_length.
  - intros j Hj. rewrite nth_set_nth.
    replace (j =? bucket_index)%nat with false by (symmetry; now apply Nat.eqb_neq).
    apply Hnth.
Qed.

(** X7.  An insertion works on one bucket only: every other bucket of
    the table is as it was, no bucket is removed, and at most one bucket,
    the one the node goes to, is added. *)
Theorem insertion_touches_one_bucket
    (my_node_id : NodeID) (pong : bool) (routing_table routing_table' : list Bucket)
    (node : Node) :
  add_to_routing_table my_node_id pong routing_table node = Some routing_table' ->
  exists bucket_index,
    (bucket_index <= length routing_table)%nat
    /\ length routing_table' = Nat.max (length routing_table) (S bucket_index)
    /\ forall j, j <> bucket_index -> nth j routing_table' [] = nth j routing_table [].
Proof.
  intros H. destruct (add_to_routing_table_shape _ _ _ _ _ H)
    as (i & b & Hi & _ & _ & Hlen & Hrest).
  exists i. now repeat split.
Qed.

Lemma insertion_touches_one_bucket_witness :
  exists bucket_index,
    (bucket_index <= 2)%nat
    /\ 3%nat = Nat.max 2 (S bucket_index)
    /\ forall j, j <> bucket_index ->
         nth j [[]; [sample_node 3]; [sample_node 3]] []
         = nth j [[]; [sample_node 3]] [].
Proof.
  exact (insertion_touches_one_bucket zero_id true [[]; [sample_node 3]]
           [[]; [sample_node 3]; [sample_node 3]] (sample_node 3) eq_refl).
Defined.

Lemma in_table (x : Node) (routing_table : list Bucket) :
  In x (concat routing_table)
  <-> exists j, (j < length routing_table)%nat /\ In x (nth j routing_table []).
Proof.
  rewrite in_concat. split.
  - intros (b & Hb & Hx). apply (In_nth _ _ []) in Hb as (j & Hj & <-). eauto.
  - intros (j & Hj & Hx). exists (nth j routing_table []). split; [|assumption].
    now apply nth_In.
Qed.

(** X8.  When no ping is answered, the inserted node is in the table
    afterwards: it is found and moved, or appended, or put in the place of
    the oldest node of its full bucket. *)
Theorem unanswered_ping_admits_node
    (my_node_id : NodeID) (routing_table routing_table' : list Bucket) (node : Node) :
  add_to_routing_table my_node_id false routing_table node = Some routing_table' ->
  In node (concat routing_table').
Proof.
  intros H. destruct (add_to_routing_table_shape _ _ _ _ _ H)
    as (i & b & Hi & Hins & Hnth & Hlen & _).
  apply in_table. exists i. split; [lia|]. rewrite Hnth.
  unfold bucket_insert in Hins.
  destruct (std_find node (nth i routing_table [])) as [[[before it] after]|] eqn:E.
  - apply std_find_split in E as (_ & Heq & _). apply node_eqb_eq in Heq. subst it.
    injection Hins as <-. apply in_or_app. right. apply in_or_app. right. now left.
  - destruct (length (nth i routing_table []) <? K)%nat.
    + injection Hins as <-. apply in_or_app. right. now left.
    + destruct (nth i routing_table []); [discriminate|].
      injection Hins as <-. now left.
Qed.

Lemma unanswered_ping_admits_node_witness :
  In (sample_node 1) (concat [[]; [sample_node 1]]).
Proof.
  exact (unanswered_ping_admits_node zero_id initial_table [[]; [sample_node 1]]
           (sample_node 1) eq_refl).
Defined.

(** X9.  An insertion drops at most one node, and only under the eviction
    rule: every node of the table is still in it afterwards, the oldest
    node of a full bucket excepted, which leaves the table when its ping
    is not answered and the new node takes its place. *)
Theorem insertion_drops_only_evicted
    (my_node_id : NodeID) (pong : bool) (routing_table routing_table' : list Bucket)
    (node x : Node) :
  add_to_routing_table my_node_id pong routing_table node = Some routing_table' ->
  In x (concat routing_table) ->
  In x (concat routing_table')
  \/ (pong = false
      /\ exists rest, In (x :: rest) routing_table
                      /\ (K <= length (x :: rest))%nat
                      /\ In (node :: rest) routing_table').
Proof.
  intros H Hx. destruct (add_to_routing_table_shape _ _ _ _ _ H)
    as (i & b & Hi & Hins & Hnth & Hlen & Hrest).
  apply in_table in Hx as (j & Hj & Hx).
  destruct (Nat.eq_dec j i) as [->|Hne].
  - destruct (bucket_insert_perm_or_new _ _ _ _ Hins)
      as [Hp | [(_ & Hb & _) | (_ & Hpong & Hfull & oldest & rest & Hold & Hb)]].
    + left. apply in_table. exists i. split; [lia|]. rewrite Hnth.
      eapply Permutation_in; [symmetry; exact Hp | exact Hx].
    + left. apply in_table. exists i. split; [lia|]. rewrite Hnth, Hb.
      apply in_or_app. now left.
    + rewrite Hold in Hx. destruct Hx as [<-|Hx].
      * right. split; [exact Hpong|]. exists rest. repeat split.
        -- rewrite <- Hold. apply nth_In. lia.
        -- rewrite <- Hold. exact Hfull.
        -- rewrite <- Hb, <- Hnth. apply nth_In. lia.
      * left. apply in_table. exists i. split; [lia|]. rewrite Hnth, Hb. now right.
  - left. apply in_table. exists j. split; [lia|]. now rewrite Hrest.
Qed.

Lemma insertion_drops_only_evicted_witness :
  In (sample_node 2) (concat [sample_node 18 :: tl full_bucket])
  \/ (false = false
      /\ exists rest, In (sample_node 2 :: rest) [full_bucket]
                      /\ (K <= length (sample_node 2 :: rest))%nat
                      /\ In (sample_node 18 :: rest) [sample_node 18 :: tl full_bucket]).
Proof.
  apply (insertion_drops_only_evicted zero_id false [full_bucket]
           [sample_node 18 :: tl full_bucket] (sample_node 18) (sample_node 2)).
  - reflexivity.
  - now left.
Defined.

(* ================================================================== *)
(** * The compact node list *)

Lemma code_byte_of (z : Z) : code (byte_of z) = z mod 256.
Proof.
  unfold code, byte_of. pose proof (Z.mod_pos_bound z 256 ltac:(lia)).
  rewrite N_ascii_embedding by lia. lia.
Qed.

Lemma ntohs_htons (p : Z) : 0 <= p < 65536 -> ntohs (htons p) = p.
Proof.
  intros Hp. unfold ntohs, htons. cbn [fst snd]. rewrite !code_byte_of.
  assert (0 <= p / 256 < 256).
  { split; [apply Z.div_pos; lia | apply Z.div_lt_upper_bound; lia]. }
  rewrite (Z.mod_small (p / 256)) by lia.
  pose proof (Z.div_mod p 256 ltac:(lia)). lia.
Qed.

Lemma ntohs_range (p : ascii * ascii) : 0 <= ntohs p < 65536.
Proof.
  unfold ntohs. pose proof (code_range (fst p)). pose proof (code_range (snd p)). lia.
Qed.

Lemma parse_compact_short (s : cstring) :
  (length s < 26)%nat -> parse_compact_nodes s [] = [].
Proof.
  intros H. unfold parse_compact_nodes. now rewrite Nat.div_small.
Qed.

Lemma parse_compact_step (s : cstring) :
  (26 <= length s)%nat ->
  parse_compact_nodes s [] = compact_entry s :: parse_compact_nodes (skipn 26 s) []
  /\ (length s / 26 = S (length (skipn 26 s) / 26))%nat.
Proof.
  intros H.
  assert (Hdiv : (length s / 26 = S (length (skipn 26 s) / 26))%nat).
  { rewrite length_skipn.
    replace (length s) with (1 * 26 + (length s - 26))%nat at 1 by lia.
    rewrite Nat.div_add_l by lia. reflexivity. }
  split; [|exact Hdiv].
  unfold parse_compact_nodes. rewrite Hdiv. cbn [app seq map].
  change (skipn (0 * 26) s) with s.
  f_equal. rewrite <- seq_shift, map_map. apply map_ext. intros i.
  f_equal. rewrite skipn_skipn. f_equal. lia.
Qed.

(** An entry, written out, is read back as the node it was written for. *)
Lemma compact_entry_written (n : Node) (a : ascii * ascii * ascii * ascii)
    (tail : cstring) :
  length (id n) = NODE_ID_SIZE -> ip n = inet_ntoa a -> 0 <= port n < 65536 ->
  compact_entry (id_string (id n) ++ addr_bytes a ++ port_bytes (htons (port n)) ++ tail)
  = n
  /\ skipn 26 (id_string (id n) ++ addr_bytes a ++ port_bytes (htons (port n)) ++ tail)
     = tail
  /\ (26 <= length (id_string (id n) ++ addr_bytes a
                    ++ port_bytes (htons (port n)) ++ tail))%nat.
Proof.
  destruct n as [i ip_ p]. destruct a as [[[a0 a1] a2] a3]. cbn [id ip port].
  intros Hlen -> Hp.
  pose proof (ntohs_htons p Hp) as Hport.
  destruct (htons p) as [p0 p1].
  unfold id_string. rewrite firstn_all2 by (rewrite Hlen; apply Nat.le_refl).
  do 20 (destruct i as [|? i]; [discriminate Hlen|]).
  destruct i; [|discriminate Hlen].
  cbn [addr_bytes port_bytes fst snd app]. unfold compact_entry, inet_ntop.
  cbn [firstn NODE_ID_SIZE nth skipn length]. rewrite Hport.
  repeat split. lia.
Qed.

(** [parse_compact_nodes] after [encode_nodes], on nodes as a compact entry
    holds them. *)
Lemma encode_nodes_parse (nodes : list Node) :
  Forall wire_node nodes ->
  exists compact,
    encode_nodes nodes = Some compact
    /\ length compact = (26 * length nodes)%nat
    /\ parse_compact_nodes compact [] = nodes.
Proof.
  induction 1 as [|n nodes (Hlen & (a & Hip) & Hport) _ IH]; cbn [encode_nodes].
  - exists []. repeat split.
  - destruct IH as (tail & -> & Htl & Hparse).
    assert (Hpt : inet_pton (ip n) = Some a) by (rewrite Hip; apply inet_pton_ntoa).
    rewrite Hpt. eexists. split; [reflexivity|].
    destruct (compact_entry_written n a tail Hlen Hip Hport) as (He & Hs & Hge).
    split.
    + unfold id_string.
      rewrite firstn_all2 by (rewrite Hlen; apply Nat.le_refl).
      rewrite !length_app, Htl, Hlen.
      destruct a as [[[a0 a1] a2] a3].
      cbn [addr_bytes port_bytes length]. unfold NODE_ID_SIZE. lia.
    + destruct (parse_compact_step _ Hge) as [-> _]. now rewrite He, Hs, Hparse.
Qed.

(** X10.  Reading a compact node list that [encode_nodes] wrote gives the
    nodes back: for nodes with 20-byte identifiers, dotted-decimal
    addresses and 16-bit ports, [parse_compact_nodes] after [encode_nodes]
    is the identity. *)
Theorem compact_nodes_read_back (nodes : list Node) :
  Forall wire_node nodes ->
  exists compact,
    encode_nodes nodes = Some compact
    /\ length compact = (26 * length nodes)%nat
    /\ parse_compact_nodes compact [] = nodes.
Proof. exact (encode_nodes_parse nodes). Qed.

Lemma compact_nodes_read_back_witness :
  exists compact,
    encode_nodes [sample_node 1; sample_node 3] = Some compact
    /\ length compact = (26 * 2)%nat
    /\ parse_compact_nodes compact [] = [sample_node 1; sample_node 3].
Proof.
  apply (compact_nodes_read_back [sample_node 1; sample_node 3]).
  constructor; [|constructor; [|constructor]];
    (split; [reflexivity|]; split;
     [exists ("010"%char, "000"%char, "000"%char, "001"%char); reflexivity
     | cbn [port sample_node]; lia]).
Defined.

Lemma firstn_plus {A : Type} (n m : nat) (l : list A) :
  firstn (n + m) l = firstn n l ++ firstn m (skipn n l).
Proof.
  revert l; induction n as [|n IH]; intros l; [reflexivity|].
  destruct l as [|x l]; cbn [Nat.add firstn skipn app].
  - now rewrite firstn_nil.
  - now rewrite IH.
Qed.

Lemma first_entry_bytes (s : cstring) :
  (26 <= length s)%nat ->
  firstn NODE_ID_SIZE s
  ++ [nth 20 s zero; nth 21 s zero; nth 22 s zero; nth 23 s zero]
  ++ [nth 24 s zero; nth 25 s zero]
  = firstn 26 s.
Proof.
  intros H. do 26 (destruct s as [|? s]; [cbn [length] in H; lia|]). reflexivity.
Qed.

(** X11.  Writing out the nodes that [parse_compact_nodes] read gives the
    bytes back: for every byte string, [encode_nodes] after
    [parse_compact_nodes] is defined and yields the whole 26-byte entries
    of the string, a partial entry at the end being left out. *)
Theorem compact_nodes_written_back (compact : cstring) :
  encode_nodes (parse_compact_nodes compact [])
  = Some (firstn (26 * (length compact / 26)) compact).
Proof.
  remember (length compact / 26)%nat as n eqn:Hn.
  revert compact Hn; induction n as [|n IH]; intros compact Hn.
  - rewrite parse_compact_short; [reflexivity|].
    destruct (Nat.lt_ge_cases (length compact) 26) as [Hlt|Hge]; [exact Hlt|].
    destruct (parse_compact_step compact Hge) as [_ Hdiv]. lia.
  - assert (Hge : (26 <= length compact)%nat).
    { destruct (Nat.lt_ge_cases (length compact) 26) as [Hlt|Hge]; [|exact Hge].
      rewrite Nat.div_small in Hn by exact Hlt. discriminate. }
    destruct (parse_compact_step compact Hge) as [-> Hdiv].
    cbn [encode_nodes].
    rewrite (IH (skipn 26 compact)) by lia.
    unfold compact_entry at 1. cbn [ip]. unfold inet_ntop. rewrite inet_pton_ntoa.
    unfold compact_entry. cbn [id port]. rewrite htons_ntohs.
    f_equal. unfold id_string. rewrite firstn_firstn, Nat.min_id.
    cbn [addr_bytes port_bytes fst snd].
    replace (26 * S n)%nat with (26 + 26 * n)%nat by lia.
    rewrite firstn_plus, <- (first_entry_bytes compact Hge).
    now rewrite <- !app_assoc.
Qed.

(** What [parse_compact_nodes] reads: one node for every whole entry, each
    as a compact entry holds it. *)
Lemma parse_compact_wire (compact : cstring) :
  length (parse_compact_nodes compact []) = (length compact / 26)%nat
  /\ Forall wire_node (parse_compact_nodes compact []).
Proof.
  remember (length compact / 26)%nat as n eqn:Hn.
  revert compact Hn; induction n as [|n IH]; intros compact Hn.
  - unfold parse_compact_nodes. rewrite <- Hn. split; [reflexivity | constructor].
  - assert (Hge : (26 <= length compact)%nat).
    { destruct (Nat.lt_ge_cases (length compact) 26) as [Hlt|Hge]; [|exact Hge].
      rewrite Nat.div_small in Hn by exact Hlt. discriminate. }
    destruct (parse_compact_step compact Hge) as [-> Hdiv].
    destruct (IH (skipn 26 compact)) as [Hl Hw]; [lia|].
    split; [cbn [length]; now rewrite Hl|].
    constructor; [|exact Hw].
    unfold wire_node, compact_entry. cbn [id ip port]. repeat split.
    + rewrite length_firstn. unfold NODE_ID_SIZE. lia.
    + eexists. reflexivity.
    + apply ntohs_range.
    + apply ntohs_range.
Qed.

(** X12.  [parse_compact_nodes] appends one node for every whole 26-byte
    entry and none for a partial entry at the end, and every node it
    appends has a 20-byte identifier, a dotted-decimal address and a
    16-bit port. *)
Theorem compact_nodes_are_wire_nodes (compact : cstring) (nodes : list Node) :
  exists parsed,
    parse_compact_nodes compact nodes = nodes ++ parsed
    /\ length parsed = (length compact / 26)%nat
    /\ Forall wire_node parsed.
Proof.
  exists (parse_compact_nodes compact []). split; [reflexivity|].
  apply parse_compact_wire.
Qed.

(* ================================================================== *)
(** * Further properties of the query handlers *)

Lemma bind_ret {A B : Type} (m : result A) (k : A -> result B) (b : B) :
  bind m k = Ret b -> exists a, m = Ret a /\ k a = Ret b.
Proof. destruct m as [a| |]; cbn [bind]; try discriminate. eauto. Qed.

(** What a dispatch can come to: the engine is as before, or has one more
    peer under the infohash of an [announce_peer]; nothing is sent, or one
    datagram, to the sender, that [response_str] built on the transaction
    identifier of a query. *)
Lemma dispatch_shape (peer_id : NodeID) (st st' : DHTBootstrap)
    (message : BencodedValue) (sender : sockaddr_in) (sent : list datagram) :
  dispatch peer_id st message sender = Some (st', sent) ->
  (st' = st
   \/ exists infohash,
        query_type_of message = Ret (lit "announce_peer")
        /\ argument_of (lit "info_hash") message = Ret infohash
        /\ st' = mkDHT (my_node_id_ st) (routing_table_ st) (bootstrap_nodes_ st)
                       (store_peer infohash (announced_peer peer_id sender)
                                   (peer_store_ st)))
  /\ (sent = []
      \/ exists transaction_id r,
           message_type_of message = Ret (lit "q")
           /\ transaction_of message = Ret transaction_id
           /\ sent = [(response_str transaction_id r, sender)]).
Proof.
  unfold dispatch.
  destruct (message_type_of message) as [message_type| |] eqn:Hy; try discriminate;
    [|intros [= <- <-]; auto].
  destruct (Str.eqb message_type (lit "q")) eqn:Hq; [|intros [= <- <-]; auto].
  apply eqb_eq in Hq. subst message_type.
  destruct (query_type_of message) as [query_type| |] eqn:Hqt; try discriminate;
    [|intros [= <- <-]; auto].
  destruct (Str.eqb query_type (lit "ping")).
  { unfold handle_ping.
    destruct (transaction_of message) as [tid| |] eqn:Ht; try discriminate;
      intros [= <- <-]; split; auto. right. eauto. }
  destruct (Str.eqb query_type (lit "find_node")).
  { unfold handle_find_node.
    destruct (bind _ _) as [[tid target]| |] eqn:Hb; try discriminate;
      [|intros [= <- <-]; auto].
    apply bind_ret in Hb as (tid' & Ht & Hb).
    apply bind_ret in Hb as (target' & _ & Hb). injection Hb as -> ->.
    destruct (memcpy_node_id target); [|discriminate].
    destruct (encode_nodes _); [|discriminate].
    intros [= <- <-]. split; auto. right. eauto. }
  destruct (Str.eqb query_type (lit "get_peers")).
  { unfold handle_get_peers.
    destruct (bind _ _) as [[tid infohash]| |] eqn:Hb; try discriminate;
      [|intros [= <- <-]; auto].
    apply bind_ret in Hb as (tid' & Ht & Hb).
    apply bind_ret in Hb as (infohash' & _ & Hb). injection Hb as -> ->.
    destruct (StdMap.find infohash (peer_store_ st)).
    - destruct (encode_peers _); [|discriminate].
      intros [= <- <-]. split; auto. right. eauto.
    - destruct (memcpy_node_id infohash); [|discriminate].
      destruct (encode_nodes _); [|discriminate].
      intros [= <- <-]. split; auto. right. eauto. }
  destruct (Str.eqb query_type (lit "announce_peer")) eqn:Ha;
    [|intros [= <- <-]; auto].
  apply eqb_eq in Ha. subst query_type.
  unfold handle_announce_peer.
  destruct (argument_of (lit "info_hash") message) as [infohash| |] eqn:Harg;
    try discriminate; [|intros [= <- <-]; auto].
  destruct (bind _ _) as [tid| |] eqn:Hb; try discriminate; intros [= <- <-].
  - apply bind_ret in Hb as (? & _ & Ht).
    split; [right; eauto | right; eauto].
  - split; [right; eauto | auto].
Qed.

(** X13.  Handling an inbound message never touches the routing table:
    whatever the message and its sender, the engine after the dispatch has
    the identifier, the buckets and the seed list it had before.  Nodes
    enter the table through [bootstrap] only. *)
Theorem dispatch_keeps_routing_table (peer_id : NodeID) (st st' : DHTBootstrap)
    (message : BencodedValue) (sender : sockaddr_in) (sent : list datagram) :
  dispatch peer_id st message sender = Some (st', sent) ->
  my_node_id_ st' = my_node_id_ st
  /\ routing_table_ st' = routing_table_ st
  /\ bootstrap_nodes_ st' = bootstrap_nodes_ st.
Proof.
  intros H. destruct (dispatch_shape _ _ _ _ _ _ H) as [[->|(? & _ & _ & ->)] _];
    repeat split.
Qed.

Lemma dispatch_keeps_routing_table_witness :
  exists st' sent,
    dispatch zero_id (new_engine zero_id) sample_announce sample_sender
    = Some (st', sent)
    /\ my_node_id_ st' = zero_id
    /\ routing_table_ st' = initial_table
    /\ bootstrap_nodes_ st' = [].
Proof.
  eexists _, _. split; [reflexivity|].
  eapply (dispatch_keeps_routing_table zero_id (new_engine zero_id) _
            sample_announce sample_sender). reflexivity.
Defined.

Lemma find_store_peer_other (k infohash : cstring) (peer : Node)
    (peer_store : StdMap.t (list Node)) :
  Str.eqb k infohash = false ->
  StdMap.find k (store_peer infohash peer peer_store) = StdMap.find k peer_store.
Proof.
  intros Hne. unfold store_peer.
  destruct (StdMap.find infohash peer_store); now rewrite find_assign, Hne.
Qed.

(** X14.  The peer store only grows: a dispatch removes no key and no
    peer.  The list stored under a key is afterwards the list it was,
    with at most one peer appended. *)
Theorem dispatch_keeps_peers (peer_id : NodeID) (st st' : DHTBootstrap)
    (message : BencodedValue) (sender : sockaddr_in) (sent : list datagram)
    (key : cstring) (peers : list Node) :
  dispatch peer_id st message sender = Some (st', sent) ->
  StdMap.find key (peer_store_ st) = Some peers ->
  StdMap.find key (peer_store_ st') = Some peers
  \/ StdMap.find key (peer_store_ st')
     = Some (peers ++ [announced_peer peer_id sender]).
Proof.
  intros H Hf. destruct (dispatch_shape _ _ _ _ _ _ H) as [[->|(ih & _ & _ & ->)] _];
    [now left|].
  cbn [peer_store_]. destruct (Str.eqb key ih) eqn:E.
  - apply eqb_eq in E. subst ih. right. now rewrite find_store_peer, Hf.
  - left. now rewrite find_store_peer_other.
Qed.

Lemma dispatch_keeps_peers_witness :
  StdMap.find sample_infohash
    [(sample_infohash, [announced_peer zero_id sample_sender;
                        announced_peer zero_id sample_sender])]
  = Some [announced_peer zero_id sample_sender]
  \/ StdMap.find sample_infohash
       [(sample_infohash, [announced_peer zero_id sample_sender;
                           announced_peer zero_id sample_sender])]
     = Some ([announced_peer zero_id sample_sender]
             ++ [announced_peer zero_id sample_sender]).
Proof.
  apply (dispatch_keeps_peers zero_id
           (mkDHT zero_id initial_table []
                  [(sample_infohash, [announced_peer zero_id sample_sender])])
           (mkDHT zero_id initial_table []
                  [(sample_infohash, [announced_peer zero_id sample_sender;
                                      announced_peer zero_id sample_sender])])
           sample_announce sample_sender
           [(response_str (lit "aa") [(lit "id", BString (id_string zero_id))],
             sample_sender)]
           sample_infohash [announced_peer zero_id sample_sender]).
  - vm_compute. reflexivity.
  - reflexivity.
Defined.

(** X15.  A dispatch sends at most one datagram, and only in answer to a
    query: what is sent goes to the sender of the message, the message has
    ["y"] equal to ["q"], and the datagram is the encoding of a dictionary
    [{r, t, y:"r"}] whose ["t"] is the transaction identifier of the
    message.  Responses, errors and messages without ["t"] get no reply. *)
Theorem dispatch_replies_once_to_sender (peer_id : NodeID) (st st' : DHTBootstrap)
    (message : BencodedValue) (sender : sockaddr_in) (sent : list datagram) :
  dispatch peer_id st message sender = Some (st', sent) ->
  sent = []
  \/ exists transaction_id r,
       message_type_of message = Ret (lit "q")
       /\ transaction_of message = Ret transaction_id
       /\ sent = [(encode (BDict [(lit "r", BDict r);
                                  (lit "t", BString transaction_id);
                                  (lit "y", BString (lit "r"))]),
                   sender)].
Proof.
  intros H. destruct (dispatch_shape _ _ _ _ _ _ H) as [_ [->|(tid & r & Hy & Ht & ->)]];
    [now left|].
  right. exists tid, (StdMap.of_range r). now rewrite response_str_shape.
Qed.

Lemma dispatch_replies_once_to_sender_witness :
  [] = ([] : list datagram)
  \/ exists transaction_id r,
       message_type_of (BDict [(lit "y", BString (lit "r"))]) = Ret (lit "q")
       /\ transaction_of (BDict [(lit "y", BString (lit "r"))]) = Ret transaction_id
       /\ [] = [(encode (BDict [(lit "r", BDict r);
                                (lit "t", BString transaction_id);
                                (lit "y", BString (lit "r"))]),
                 sample_sender)].
Proof.
  apply (dispatch_replies_once_to_sender zero_id (new_engine zero_id)
           (new_engine zero_id) (BDict [(lit "y", BString (lit "r"))])
           sample_sender []).
  reflexivity.
Defined.

(* ================================================================== *)
(** * The client side and the invariants of the engine *)

Lemma to_digits_length (f : nat) (n : Z) (acc : cstring) :
  (length (to_digits f n acc) <= f + length acc)%nat.
Proof.
  revert n acc; induction f as [|f IH]; intros n acc; cbn [to_digits]; [lia|].
  destruct (n <? 10); [cbn [length]; lia|].
  specialize (IH (n / 10) (digit_char (n mod 10) :: acc)). cbn [length] in IH. lia.
Qed.

Lemma encodeString_length (s : cstring) :
  (length s < 1024)%nat -> (length (encodeString s) <= length s + 12)%nat.
Proof.
  intros H. unfold encodeString. rewrite !length_app. cbn [lit length list_ascii_of_string].
  assert (Hs : 0 <= size s < 1024) by (unfold size; lia).
  unfold to_string. destruct (Z.ltb_spec (size s) 0) as [Hneg|_]; [lia|].
  pose proof (to_digits_length (digits_fuel (size s)) (size s) []) as Hd.
  cbn [length] in Hd. unfold digits_fuel in *.
  assert (Z.log2 (size s) <= 9).
  { destruct (Z.eq_dec (size s) 0) as [->|Hz]; [cbn; lia|].
    assert (Z.log2 (size s) < 10); [|lia]. apply Z.log2_lt_pow2; lia. }
  lia.
Qed.

Lemma id_string_length (i : NodeID) : (length (id_string i) <= 20)%nat.
Proof. unfold id_string. rewrite length_firstn. unfold NODE_ID_SIZE. lia. Qed.

Lemma fits_short (s : cstring) : (length s <= 4096)%nat -> fits s.
Proof. unfold fits, size. intros H. change (2 ^ 63) with 9223372036854775808. lia. Qed.


Ltac encoded_length :=
  rewrite ?of_range_ascending by reflexivity;
  cbn [map concat fst snd]; rewrite !length_app;
  repeat match goal with
  | |- context [length (encodeString (lit ?s))] =>
      let n := eval vm_compute in (length (encodeString (lit s))) in
      change (length (encodeString (lit s))) with n
  end;
  cbn [lit list_ascii_of_string length].

Lemma find_node_request_parses (my_node_id target_id : NodeID) (fuel : nat) :
  (16 <= fuel)%nat ->
  parse fuel (find_node_request my_node_id target_id)
  = Ret (find_node_query my_node_id target_id).
Proof.
  intros Hfuel.
  change (find_node_request my_node_id target_id)
    with (encode (find_node_query my_node_id target_id)).
  apply parse_encode_value.
  - reflexivity.
  - apply fits_short.
    pose proof (id_string_length my_node_id) as H1.
    pose proof (id_string_length target_id) as H2.
    pose proof (encodeString_length (id_string my_node_id)) as E1.
    pose proof (encodeString_length (id_string target_id)) as E2.
    cbn [encode find_node_query map fst snd]. encoded_length. lia.
  - cbn. lia.
Qed.

Lemma in_firstn {A : Type} (x : A) (n : nat) (l : list A) :
  In x (firstn n l) -> In x l.
Proof. intros H. rewrite <- (firstn_skipn n l). apply in_or_app. now left. Qed.

Lemma find_closest_in_table (routing_table : list Bucket) (target_id : NodeID)
    (k : nat) (x : Node) :
  In x (find_closest_nodes routing_table target_id k) -> In x (concat routing_table).
Proof.
  unfold find_closest_nodes. intros H.
  apply (Permutation_in x (std_sort_perm _ (closer target_id) (concat routing_table))).
  destruct (_ <? _)%nat; [eapply in_firstn, H | exact H].
Qed.

Lemma find_closest_length (routing_table : list Bucket) (target_id : NodeID) (k : nat) :
  (length (find_closest_nodes routing_table target_id k) <= k)%nat.
Proof.
  unfold find_closest_nodes.
  destruct (Nat.ltb_spec k (length (std_sort (closer target_id) (concat routing_table)))).
  - rewrite length_firstn. lia.
  - assumption.
Qed.

Lemma nodes_reply_length (transaction_id : cstring) (my_node_id : NodeID)
    (nodes : cstring) :
  (length transaction_id <= 20)%nat -> (length nodes <= 26 * K)%nat ->
  (length (encode (nodes_reply transaction_id my_node_id nodes)) <= 1024)%nat.
Proof.
  unfold K. intros Ht Hn.
  pose proof (id_string_length my_node_id) as H1.
  pose proof (encodeString_length (id_string my_node_id)) as E1.
  pose proof (encodeString_length transaction_id) as E2.
  pose proof (encodeString_length nodes) as E3.
  cbn [encode nodes_reply map fst snd]. encoded_length. lia.
Qed.


Lemma in_bucket_in_table (x : Node) (j : nat) (routing_table : list Bucket) :
  In x (nth j routing_table []) -> In x (concat routing_table).
Proof.
  intros H. destruct (Nat.lt_ge_cases j (length routing_table)) as [Hj|Hj].
  - apply in_table. eauto.
  - rewrite nth_overflow in H by exact Hj. destruct H.
Qed.

(** The nodes of the table after an insertion: the inserted node and nodes
    that were there. *)
Lemma add_to_routing_table_members
    (my_node_id : NodeID) (pong : bool) (routing_table routing_table' : list Bucket)
    (node x : Node) :
  add_to_routing_table my_node_id pong routing_table node = Some routing_table' ->
  In x (concat routing_table') -> x = node \/ In x (concat routing_table).
Proof.
  intros Hadd Hx.
  destruct (add_to_routing_table_shape _ _ _ _ _ Hadd)
    as (i & b' & Hi & Hins & Hnth & Hlen & Hrest).
  apply in_table in Hx as (j & Hj & Hx).
  destruct (Nat.eq_dec j i) as [->|Hne].
  - rewrite Hnth in Hx.
    destruct (bucket_insert_perm_or_new _ _ _ _ Hins)
      as [Hp | [(_ & -> & _) | (_ & _ & _ & oldest & rest & Hb & ->)]].
    + right. eapply in_bucket_in_table, Permutation_in; eassumption.
    + apply in_app_or in Hx as [Hx|[Hx|[]]]; [right | left; now symmetry].
      eapply in_bucket_in_table, Hx.
    + destruct Hx as [Hx|Hx]; [left; now symmetry | right].
      apply (in_bucket_in_table x i). rewrite Hb. now right.
  - right. rewrite (Hrest j Hne) in Hx. eapply in_bucket_in_table, Hx.
Qed.

Lemma add_all_members (my_node_id : NodeID) (arrivals : list (Node * bool)) (x : Node) :
  forall routing_table routing_table',
    add_all my_node_id routing_table arrivals = Some routing_table' ->
    In x (concat routing_table') ->
    In x (map fst arrivals) \/ In x (concat routing_table).
Proof.
  induction arrivals as [|[node pong] arrivals IH]; intros rt rt'; cbn [add_all].
  - intros [= <-]. now right.
  - destruct (add_to_routing_table my_node_id pong rt node) as [rt1|] eqn:E;
      [|discriminate].
    intros Hall Hx. destruct (IH _ _ Hall Hx) as [Hin|Hin].
    + left. now right.
    + destruct (add_to_routing_table_members _ _ _ _ _ _ E Hin) as [->|Hin'];
        [left; now left | now right].
Qed.

Lemma with_pongs_nodes (pong : nat -> bool) (nodes : list Node) (x : Node) :
  In x (map fst (with_pongs pong nodes)) -> In x nodes.
Proof.
  intros H. apply in_map_iff in H as ([n b] & <- & Hin).
  eapply in_combine_l, Hin.
Qed.

(** What [send_find_node_request] returns was read from a compact list. *)
Lemma find_node_response_wire (fuel : nat) (received : option cstring)
    (nodes : list Node) :
  find_node_response fuel received = Some nodes -> Forall wire_node nodes.
Proof.
  unfold find_node_response.
  destruct received as [[|c data]|]; try (intros [= <-]; constructor).
  destruct (parse fuel (c :: data)) as [response| |]; try discriminate;
    [|intros [= <-]; constructor].
  destruct (nodes_of_response response) as [found| |] eqn:E; try discriminate;
    [|intros [= <-]; constructor].
  intros [= <-]. unfold nodes_of_response in E.
  apply bind_ret in E as (d & _ & E). apply bind_ret in E as (y & _ & E).
  apply bind_ret in E as (message_type & _ & E).
  destruct (Str.eqb message_type (lit "r")); [|injection E as <-; constructor].
  apply bind_ret in E as (r & _ & E). apply bind_ret in E as (rd & _ & E).
  apply bind_ret in E as (n & _ & E). apply bind_ret in E as (s & _ & E).
  injection E as <-. apply parse_compact_wire.
Qed.

Lemma table_ok_add_all (my_node_id : NodeID) (arrivals : list (Node * bool))
    (routing_table routing_table' : list Bucket) :
  bounded routing_table -> Forall (@NoDup Node) routing_table ->
  Forall wire_node (concat routing_table) ->
  Forall wire_node (map fst arrivals) ->
  add_all my_node_id routing_table arrivals = Some routing_table' ->
  bounded routing_table' /\ Forall (@NoDup Node) routing_table'
  /\ Forall wire_node (concat routing_table').
Proof.
  intros Hb Hnd Hw Ha Hall. repeat split.
  - pose proof (add_all_bounded my_node_id arrivals routing_table Hb) as H.
    now rewrite Hall in H.
  - eapply add_all_nodup; eassumption.
  - apply Forall_forall. intros x Hx.
    destruct (add_all_members _ _ _ _ _ Hall Hx) as [Hin|Hin].
    + exact (proj1 (Forall_forall _ _) Ha x Hin).
    + exact (proj1 (Forall_forall _ _) Hw x Hin).
Qed.

Lemma bootstrap_from_ok (fuel : nat) (answer : nat -> option cstring)
    (pong : nat -> nat -> bool) (my_node_id : NodeID) (seeds : list Node) :
  forall i routing_table routing_table',
    bounded routing_table -> Forall (@NoDup Node) routing_table ->
    Forall wire_node (concat routing_table) ->
    bootstrap_from fuel answer pong my_node_id i seeds routing_table
    = Some routing_table' ->
    bounded routing_table' /\ Forall (@NoDup Node) routing_table'
    /\ Forall wire_node (concat routing_table').
Proof.
  induction seeds as [|seed seeds IH]; intros i rt rt' Hb Hnd Hw;
    cbn [bootstrap_from].
  - intros [= <-]. auto.
  - destruct (find_node_response fuel (answer i)) as [nodes|] eqn:E; [|discriminate].
    destruct (add_all my_node_id rt (with_pongs (pong i) nodes)) as [rt1|] eqn:E1;
      [|discriminate].
    assert (Ha : Forall wire_node (map fst (with_pongs (pong i) nodes))).
    { apply Forall_forall. intros x Hx. apply with_pongs_nodes in Hx.
      exact (proj1 (Forall_forall _ _) (find_node_response_wire _ _ _ E) x Hx). }
    destruct (table_ok_add_all _ _ _ _ Hb Hnd Hw Ha E1) as (Hb1 & Hnd1 & Hw1).
    now apply IH.
Qed.

Lemma inet_pton_ntoa_defined (a : ascii * ascii * ascii * ascii) :
  inet_pton (inet_ntoa a) <> None.
Proof. now rewrite inet_pton_ntoa. Qed.

Lemma reachable_ok (st : DHTBootstrap) : reachable st -> engine_ok st.
Proof.
  induction 1 as [my_node_id | st random_id ip_ port_ _ IH
                  | st st' fuel answer pong _ IH Hboot
                  | st st' fuel peer_id message_str sender sent _ IH Hrun].
  - split; [|split; [|split]].
    + constructor; [cbn [length]; unfold K; lia | constructor].
    + constructor; constructor.
    + constructor.
    + constructor.
  - exact IH.
  - destruct IH as (Hb & Hnd & Hw & Hs). unfold bootstrap in Hboot.
    destruct (bootstrap_from _ _ _ _ _ _ _) as [rt|] eqn:E; [|discriminate].
    injection Hboot as <-. cbn [routing_table_ peer_store_].
    destruct (bootstrap_from_ok _ _ _ _ _ _ _ _ Hb Hnd Hw E) as (? & ? & ?).
    repeat split; assumption.
  - destruct IH as (Hb & Hnd & Hw & Hs). unfold run_once in Hrun.
    destruct (parse fuel message_str) as [message| |]; try discriminate;
      [|injection Hrun as <- _; repeat split; assumption].
    pose proof (dispatch_store_ok _ _ _ _ _ _ Hs Hrun) as Hs'.
    destruct (dispatch_shape _ _ _ _ _ _ Hrun) as [[->|(? & _ & _ & ->)] _];
      repeat split; assumption.
Qed.

(** X16.  Every engine that the public interface can produce, from the
    constructor through [add_bootstrap_node], [bootstrap] and the turns of
    [run], has at most [K] nodes in each bucket, no node twice in a bucket,
    only nodes that [encode_nodes] can write (20-byte identifier,
    dotted-decimal address, 16-bit port), and only peers whose address
    [encode_peers] can write. *)
Theorem reachable_engine_invariants (st : DHTBootstrap) :
  reachable st ->
  bounded (routing_table_ st)
  /\ Forall (@NoDup Node) (routing_table_ st)
  /\ Forall wire_node (concat (routing_table_ st))
  /\ store_ok (peer_store_ st).
Proof. exact (reachable_ok st). Qed.

Lemma reachable_engine_invariants_witness :
  bounded (routing_table_ sample_engine)
  /\ Forall (@NoDup Node) (routing_table_ sample_engine)
  /\ Forall wire_node (concat (routing_table_ sample_engine))
  /\ store_ok (peer_store_ sample_engine).
Proof.
  apply (reachable_engine_invariants sample_engine).
  apply (reachable_bootstrap
           (add_bootstrap_node zero_id (lit "67.215.246.10") 6881 (new_engine zero_id))
           sample_engine 16
           (fun _ => Some (recvfrom 1024 sample_seed_answer)) (fun _ _ => false)).
  - apply reachable_seed, reachable_new.
  - vm_compute. reflexivity.
Defined.

(** The accessors of a message throw or return. *)
Lemma at_key_total {V : Type} (k : cstring) (m : StdMap.t V) :
  StdMap.at_key k m <> Diverge.
Proof. unfold StdMap.at_key. destruct (StdMap.find k m); discriminate. Qed.

Lemma field_total (field : cstring) (message : BencodedValue) :
  (d <- asDict message ;; x <- StdMap.at_key field d ;; asString x) <> Diverge.
Proof.
  destruct message as [n|s|l|d]; cbn [asDict bind]; try discriminate.
  destruct (StdMap.at_key field d) as [x| |] eqn:E; cbn [bind]; try discriminate.
  - destruct x; discriminate.
  - now apply at_key_total in E.
Qed.







(* ================================================================== *)
(** * Exchanges between two engines *)

(** X18.  A [find_node] exchange between two engines: the request that
    [send_find_node_request] sends for a 20-byte target is answered by one
    turn of [run] of any engine that the public interface can produce, with
    one datagram to the sender, and the engine is left as it was; what the
    requester reads from its 1024-byte buffer and returns is the list
    [find_closest_nodes(target, K)] of the engine that answered, node for
    node and in its order. *)
Theorem find_node_exchange (fuel fuel' : nat) (peer_id my_node_id target_id : NodeID)
    (responder : DHTBootstrap) (sender : sockaddr_in) :
  length target_id = NODE_ID_SIZE ->
  reachable responder ->
  (16 <= fuel)%nat -> (16 <= fuel')%nat ->
  exists reply,
    run_once fuel peer_id responder (find_node_request my_node_id target_id) sender
    = Some (responder, [(reply, sender)])
    /\ find_node_response fuel' (Some (recvfrom 1024 reply))
       = Some (find_closest_nodes (routing_table_ responder) target_id K).
Proof.
  intros Htarget Hreach Hfuel Hfuel'.
  destruct (reachable_ok responder Hreach) as (_ & _ & Hwire & _).
  unfold run_once. rewrite find_node_request_parses by exact Hfuel.
  unfold dispatch, find_node_query.
  change (message_type_of _) with (Ret (lit "q")).
  change (Str.eqb (lit "q") (lit "q")) with true. cbv iota.
  change (query_type_of _) with (Ret (lit "find_node")).
  change (Str.eqb (lit "find_node") (lit "ping")) with false.
  change (Str.eqb (lit "find_node") (lit "find_node")) with true. cbv iota.
  unfold handle_find_node.
  change (transaction_of _) with (Ret (lit "aa")).
  change (argument_of (lit "target") _) with (Ret (id_string target_id)).
  cbn [bind].
  assert (Hid : id_string target_id = target_id).
  { unfold id_string. apply firstn_all2. rewrite Htarget. apply Nat.le_refl. }
  rewrite Hid. unfold memcpy_node_id. rewrite firstn_all2 by (rewrite Htarget; apply Nat.le_refl).
  rewrite Htarget, Nat.ltb_irrefl.
  set (closest := find_closest_nodes (routing_table_ responder) target_id K).
  assert (Hc : Forall wire_node closest).
  { apply Forall_forall. intros x Hx. apply find_closest_in_table in Hx.
    exact (proj1 (Forall_forall _ _) Hwire x Hx). }
  destruct (encode_nodes_parse closest Hc) as (compact & -> & Hlen & Hparse).
  eexists. split; [reflexivity|].
  rewrite response_str_shape.
  change (StdMap.of_range _) with [(lit "id", BString (id_string (my_node_id_ responder)));
                                   (lit "nodes", BString compact)].
  fold (nodes_reply (lit "aa") (my_node_id_ responder) compact).
  assert (Hk : (length compact <= 26 * K)%nat).
  { rewrite Hlen. pose proof (find_closest_length (routing_table_ responder) target_id K).
    fold closest in H. lia. }
  pose proof (nodes_reply_length (lit "aa") (my_node_id_ responder) compact) as Hr.
  unfold recvfrom. rewrite firstn_all2 by (apply Hr; [cbn; lia | exact Hk]).
  unfold find_node_response.
  rewrite parse_encode_value;
    [|reflexivity | apply fits_short; etransitivity; [apply Hr; [cbn; lia | exact Hk] | lia]
     | cbn; lia].
  destruct (encode _) eqn:E; [discriminate E|].
  unfold nodes_reply.
  change (nodes_of_response _) with (Ret (parse_compact_nodes compact [])).
  now rewrite Hparse.
Qed.

Lemma find_node_exchange_witness :
  exists reply,
    run_once 16 zero_id sample_engine (find_node_request zero_id zero_id) sample_sender
    = Some (sample_engine, [(reply, sample_sender)])
    /\ find_node_response 16 (Some (recvfrom 1024 reply))
       = Some (find_closest_nodes (routing_table_ sample_engine) zero_id K).
Proof.
  apply (find_node_exchange 16 16 zero_id zero_id zero_id sample_engine sample_sender).
  - reflexivity.
  - apply (reachable_bootstrap
             (add_bootstrap_node zero_id (lit "67.215.246.10") 6881 (new_engine zero_id))
             sample_engine 16
             (fun _ => Some (recvfrom 1024 sample_seed_answer)) (fun _ _ => false)).
    + apply reachable_seed, reachable_new.
    + vm_compute. reflexivity.
  - lia.
  - lia.
Defined.

Lemma ping_request_parses (my_node_id : NodeID) (fuel : nat) :
  (16 <= fuel)%nat ->
  parse fuel (ping_request my_node_id) = Ret (ping_query my_node_id).
Proof.
  intros Hfuel.
  change (ping_request my_node_id) with (encode (ping_query my_node_id)).
  apply parse_encode_value.
  - reflexivity.
  - apply fits_short.
    pose proof (id_string_length my_node_id) as H1.
    pose proof (encodeString_length (id_string my_node_id)) as E1.
    cbn [encode ping_query map fst snd]. encoded_length. lia.
  - cbn. lia.
Qed.

(** X19.  A ping between two engines succeeds: the message that [ping]
    sends is answered by one turn of [run] of any engine, to the sender,
    with [{r:{id}, t:"pp", y:"r"}] carrying the identifier of the engine
    that answers; the engine is left as it was, and [ping] returns true on
    what its 1023-byte receive yields. *)
Theorem ping_exchange (fuel : nat) (peer_id my_node_id : NodeID)
    (responder : DHTBootstrap) (sender : sockaddr_in) :
  exists reply,
    run_once (16 + fuel) peer_id responder (ping_request my_node_id) sender
    = Some (responder, [(reply, sender)])
    /\ reply = encode (BDict [(lit "r", BDict [(lit "id",
                                 BString (id_string (my_node_id_ responder)))]);
                              (lit "t", BString (lit "pp"));
                              (lit "y", BString (lit "r"))])
    /\ ping_result (Some (recvfrom 1023 reply)) = true.
Proof.
  eexists. split; [|split; [reflexivity|]].
  - unfold run_once. rewrite ping_request_parses by lia. reflexivity.
  - destruct (encode _) eqn:E; [discriminate E | reflexivity].
Qed.

(** X20.  A [get_peers] query for an infohash of at least 20 bytes that
    has no stored peers is answered, by an engine that the public interface
    can produce, with [{r:{id, nodes}, t, y:"r"}], where [nodes] is the
    compact form of the [K] nodes closest to the first 20 bytes of the
    infohash, which [parse_compact_nodes] reads back as these nodes. *)
Theorem get_peers_without_peers (peer_id : NodeID) (st : DHTBootstrap)
    (query : BencodedValue) (sender : sockaddr_in) (H tid : cstring) :
  reachable st ->
  message_type_of query = Ret (lit "q") ->
  query_type_of query = Ret (lit "get_peers") ->
  argument_of (lit "info_hash") query = Ret H ->
  transaction_of query = Ret tid ->
  StdMap.find H (peer_store_ st) = None ->
  (NODE_ID_SIZE <= length H)%nat ->
  exists nodes,
    encode_nodes (find_closest_nodes (routing_table_ st) (firstn NODE_ID_SIZE H) K)
    = Some nodes
    /\ parse_compact_nodes nodes []
       = find_closest_nodes (routing_table_ st) (firstn NODE_ID_SIZE H) K
    /\ dispatch peer_id st query sender
       = Some (st, [(encode (nodes_reply tid (my_node_id_ st) nodes), sender)]).
Proof.
  intros Hreach Hy Hq Harg Htid Hfind Hlen.
  destruct (reachable_ok st Hreach) as (_ & _ & Hwire & _).
  set (closest := find_closest_nodes (routing_table_ st) (firstn NODE_ID_SIZE H) K).
  assert (Hc : Forall wire_node closest).
  { apply Forall_forall. intros x Hx. apply find_closest_in_table in Hx.
    exact (proj1 (Forall_forall _ _) Hwire x Hx). }
  destruct (encode_nodes_parse closest Hc) as (compact & Henc & _ & Hparse).
  exists compact. split; [exact Henc|]. split; [exact Hparse|].
  unfold dispatch. rewrite Hy. change (Str.eqb (lit "q") (lit "q")) with true.
  cbv iota. rewrite Hq.
  change (Str.eqb (lit "get_peers") (lit "ping")) with false.
  change (Str.eqb (lit "get_peers") (lit "find_node")) with false.
  change (Str.eqb (lit "get_peers") (lit "get_peers")) with true. cbv iota.
  unfold handle_get_peers. rewrite Htid, Harg. cbn [bind]. rewrite Hfind.
  unfold memcpy_node_id.
  destruct (Nat.ltb_spec (length H) NODE_ID_SIZE) as [Hlt|_]; [lia|].
  fold closest. rewrite Henc. reflexivity.
Qed.

Lemma get_peers_without_peers_witness :
  exists nodes,
    encode_nodes (find_closest_nodes (routing_table_ sample_engine)
                                     (firstn NODE_ID_SIZE sample_infohash) K)
    = Some nodes
    /\ parse_compact_nodes nodes []
       = find_closest_nodes (routing_table_ sample_engine)
                            (firstn NODE_ID_SIZE sample_infohash) K
    /\ dispatch zero_id sample_engine sample_get_peers sample_sender
       = Some (sample_engine,
               [(encode (nodes_reply (lit "bb") (my_node_id_ sample_engine) nodes),
                 sample_sender)]).
Proof.
  apply (get_peers_without_peers zero_id sample_engine sample_get_peers sample_sender
           sample_infohash (lit "bb")).
  - apply (reachable_bootstrap
             (add_bootstrap_node zero_id (lit "67.215.246.10") 6881 (new_engine zero_id))
             sample_engine 16
             (fun _ => Some (recvfrom 1024 sample_seed_answer)) (fun _ _ => false)).
    + apply reachable_seed, reachable_new.
    + vm_compute. reflexivity.
  - reflexivity.
  - reflexivity.
  - reflexivity.
  - reflexivity.
  - reflexivity.
  - vm_compute. lia.
Defined.

(* ================================================================== *)
(** * The torrent file parser *)

Lemma split_pieces_spec (fuel : nat) (piecesStr : cstring) :
  forall (i : nat) (pieces : list cstring),
    ((length piecesStr - i) / 20 <= fuel)%nat ->
    Torrent.split_pieces fuel piecesStr i pieces
    = pieces ++ map (fun j => firstn 20 (skipn (i + 20 * j) piecesStr))
                    (seq 0 ((length piecesStr - i) / 20)).
Proof.
  induction fuel as [|fuel IH]; intros i pieces Hfuel; cbn [Torrent.split_pieces].
  - replace ((length piecesStr - i) / 20)%nat with 0%nat by lia.
    cbn [seq map]. now rewrite app_nil_r.
  - destruct (Nat.leb_spec (i + 20) (length piecesStr)) as [Hle|Hgt].
    + assert (Hk : ((length piecesStr - i) / 20
                    = S ((length piecesStr - (i + 20)) / 20))%nat).
      { replace (length piecesStr - i)%nat
          with (1 * 20 + (length piecesStr - (i + 20)))%nat by lia.
        now rewrite Nat.div_add_l by lia. }
      rewrite IH by lia. rewrite Hk. cbn [seq map].
      rewrite <- app_assoc. cbn [app]. rewrite Nat.mul_0_r, Nat.add_0_r.
      do 2 f_equal. rewrite <- seq_shift, map_map. apply map_ext. intros j.
      do 2 f_equal. lia.
    + rewrite Nat.div_small by lia. cbn [seq map]. now rewrite app_nil_r.
Qed.

Lemma chunks_concat (s : cstring) (k : nat) :
  concat (map (fun j => firstn 20 (skipn (0 + 20 * j) s)) (seq 0 k))
  = firstn (20 * k) s.
Proof.
  induction k as [|k IH]; [reflexivity|].
  rewrite seq_S, map_app, concat_app, IH. cbn [map concat Nat.add].
  rewrite app_nil_r. replace (20 * S k)%nat with (20 * k + 20)%nat by lia.
  now rewrite firstn_plus.
Qed.

(** X21.  [extractPieces] cuts the ["pieces"] string into its whole
    20-byte pieces, in order: there are [size / 20] of them, each of 20
    bytes, and together they are the first [20 * (size / 20)] bytes of the
    string; up to 19 bytes at the end are left out without an error. *)
Theorem pieces_are_the_whole_blocks
    (map : StdMap.t BencodedValue) (piecesStr : cstring) :
  StdMap.find (lit "pieces") map = Some (BString piecesStr) ->
  exists pieces,
    Torrent.extractPieces (BDict map) = Ret pieces
    /\ length pieces = (length piecesStr / 20)%nat
    /\ Forall (fun piece => length piece = 20%nat) pieces
    /\ concat pieces = firstn (20 * (length piecesStr / 20)) piecesStr.
Proof.
  intros Hfind. unfold Torrent.extractPieces. rewrite Hfind.
  eexists. split; [reflexivity|].
  rewrite split_pieces_spec by (rewrite Nat.sub_0_r; apply Nat.Div0.div_le_upper_bound; lia).
  rewrite Nat.sub_0_r. cbn [app]. repeat split.
  - now rewrite length_map, length_seq.
  - apply Forall_forall. intros piece Hin.
    apply in_map_iff in Hin as (j & <- & Hj). apply in_seq in Hj.
    rewrite length_firstn, length_skipn.
    pose proof (Nat.Div0.mul_div_le (length piecesStr) 20). nia.
  - apply chunks_concat.
Qed.

Lemma pieces_are_the_whole_blocks_witness :
  exists pieces,
    Torrent.extractPieces
      (BDict [(lit "pieces", BString (lit "0123456789abcdefghij0123456789ABCDEFGHIJxyz"))])
    = Ret pieces
    /\ length pieces = (length (lit "0123456789abcdefghij0123456789ABCDEFGHIJxyz") / 20)%nat
    /\ Forall (fun piece => length piece = 20%nat) pieces
    /\ concat pieces
       = firstn (20 * (length (lit "0123456789abcdefghij0123456789ABCDEFGHIJxyz") / 20))
                (lit "0123456789abcdefghij0123456789ABCDEFGHIJxyz").
Proof.
  apply (pieces_are_the_whole_blocks
           [(lit "pieces", BString (lit "0123456789abcdefghij0123456789ABCDEFGHIJxyz"))]
           (lit "0123456789abcdefghij0123456789ABCDEFGHIJxyz")).
  reflexivity.
Defined.

(** X22.  The piece count is the ceiling of the total size over the piece
    length: for a total size that is not negative, a positive piece length
    and a count that fits an [int], [numPieces] is the least number of
    pieces of [pieceLength] bytes that hold [totalFileSize] bytes. *)
Theorem piece_count_is_ceiling (totalFileSize pieceLength : Z) :
  0 <= totalFileSize -> 0 < pieceLength ->
  totalFileSize <= (2 ^ 31 - 1) * pieceLength ->
  exists numPieces,
    Torrent.count_pieces totalFileSize pieceLength = Some numPieces
    /\ (numPieces - 1) * pieceLength < totalFileSize <= numPieces * pieceLength.
Proof.
  intros Ht Hp Hmax. unfold Torrent.count_pieces.
  destruct (Z.eqb_spec pieceLength 0) as [->|_]; [lia|].
  destruct (Z.eqb_spec pieceLength (-1)) as [->|_]; [lia|].
  rewrite andb_false_r. eexists. split; [reflexivity|].
  rewrite Z.quot_div_nonneg, Z.rem_mod_nonneg by lia.
  pose proof (Z.div_mod totalFileSize pieceLength ltac:(lia)) as Hdm.
  pose proof (Z.mod_pos_bound totalFileSize pieceLength Hp) as Hm.
  set (q := totalFileSize / pieceLength) in *.
  set (r := totalFileSize mod pieceLength) in *.
  change (2 ^ 31) with 2147483648 in *.
  assert (Hq : 0 <= q) by (apply Z.div_pos; lia).
  assert (Hn : q + (if 0 <? r then 1 else 0) <= 2147483647).
  { destruct (Z.ltb_spec 0 r); nia. }
  unfold Torrent.to_int. change (2 ^ 31) with 2147483648. change (2 ^ 32) with 4294967296.
  rewrite Z.mod_small by (destruct (0 <? r); lia).
  destruct (Z.ltb_spec 0 r); nia.
Qed.

Lemma piece_count_is_ceiling_witness :
  exists numPieces,
    Torrent.count_pieces 50 16 = Some numPieces
    /\ (numPieces - 1) * 16 < 50 <= numPieces * 16.
Proof.
  apply (piece_count_is_ceiling 50 16); [lia | lia | vm_compute; discriminate].
Defined.

(** The path of a file, from a non-empty [path] on and from the start. *)
Lemma join_path_from (components : list cstring) (path : cstring) :
  path <> [] ->
  Torrent.join_path (map BString components) path
  = Ret (path ++ concat (map (fun component => lit "/" ++ component) components)).
Proof.
  revert path; induction components as [|c components IH]; intros path Hne;
    cbn [map Torrent.join_path concat].
  - now rewrite app_nil_r.
  - destruct path as [|x path]; [contradiction|].
    rewrite IH by (destruct path; discriminate).
    now rewrite <- !app_assoc.
Qed.

Lemma joined_cons (c : cstring) (components : list cstring) :
  joined (c :: components)
  = c ++ concat (map (fun component => lit "/" ++ component) components).
Proof.
  revert c; induction components as [|c' components IH]; intros c.
  - cbn. now rewrite app_nil_r.
  - change (joined (c :: c' :: components)) with (c ++ lit "/" ++ joined (c' :: components)).
    rewrite IH. cbn [map concat]. now rewrite <- !app_assoc.
Qed.

(** X23.  The path of a file entry is the components of its ["path"] list
    joined by ["/"], after the empty components at the front of the list
    are dropped: no separator is written while the path is still empty, so
    lists that differ in leading empty components give the same path. *)
Theorem path_is_joined_components (components : list cstring) :
  Torrent.join_path (map BString components) []
  = Ret (joined (without_leading_empty components)).
Proof.
  induction components as [|c components IH]; [reflexivity|].
  destruct c as [|x c].
  - cbn [map Torrent.join_path app without_leading_empty]. exact IH.
  - cbn [map Torrent.join_path app without_leading_empty].
    rewrite join_path_from by discriminate. now rewrite joined_cons.
Qed.

Lemma sum_sizes_total (files : list (cstring * Z)) :
  forall totalFileSize total,
    Torrent.sum_sizes files totalFileSize = Some total ->
    total = totalFileSize + total_size files.
Proof.
  induction files as [|file files IH]; intros acc total; cbn [Torrent.sum_sizes total_size fold_right].
  - intros [= <-]. lia.
  - destruct (_ || _); [discriminate|]. intros H. apply IH in H.
    fold (total_size files). lia.
Qed.

(** What a returned [TorrentFile] was made from. *)
Lemma torrent_parse_ret (computeSHA1 : cstring -> list ascii) (fuel : nat)
    (file : option cstring) (t : Torrent.TorrentFile) :
  Torrent.parse computeSHA1 fuel file = Some (Ret t) ->
  exists data rootDict infoDict,
    file = Some data
    /\ parse fuel data = Ret (BDict rootDict)
    /\ StdMap.find (lit "info") rootDict = Some (BDict infoDict)
    /\ Torrent.infoHash t = computeSHA1 (encode (BDict infoDict))
    /\ Torrent.extractInt (BDict infoDict) (lit "piece length")
       = Ret (Torrent.pieceLength t)
    /\ Torrent.extractPieces (BDict infoDict) = Ret (Torrent.pieces t)
    /\ Torrent.count_pieces (total_size (Torrent.files t)) (Torrent.pieceLength t)
       = Some (Torrent.numPieces t).
Proof.
  unfold Torrent.parse. destruct file as [data|]; [|discriminate].
  destruct (bind _ _) as [x| |] eqn:E; try discriminate.
  apply bind_ret in E as (parsedData & Hparse & E).
  destruct (Torrent.x_total x) as [total|] eqn:Htotal; [|discriminate].
  destruct (Torrent.count_pieces total (Torrent.x_pieceLength x)) as [n|] eqn:Hn;
    [|discriminate].
  intros [= <-]. cbn [Torrent.infoHash Torrent.pieceLength Torrent.pieces
                      Torrent.files Torrent.numPieces].
  unfold Torrent.extract in E.
  destruct parsedData as [?|?|?|rootDict]; try discriminate.
  destruct (StdMap.find (lit "info") rootDict) as [[?|?|?|infoDict]|] eqn:Hinfo;
    try discriminate.
  apply bind_ret in E as (announce & _ & E). apply bind_ret in E as (comment & _ & E).
  apply bind_ret in E as (creationDate & _ & E). apply bind_ret in E as (name & _ & E).
  apply bind_ret in E as (pieceLength & Hpl & E).
  apply bind_ret in E as (pieces & Hpieces & E).
  exists data, rootDict, infoDict.
  destruct (StdMap.find (lit "length") infoDict).
  - apply bind_ret in E as (totalFileSize & _ & E). injection E as <-.
    cbn [Torrent.x_total Torrent.x_pieceLength Torrent.x_info Torrent.x_pieces
         Torrent.x_files] in *.
    injection Htotal as ->.
    repeat split; try assumption; try reflexivity.
    cbn [total_size fold_right snd]. now rewrite Z.add_0_r.
  - apply bind_ret in E as (files & _ & E). injection E as <-.
    cbn [Torrent.x_total Torrent.x_pieceLength Torrent.x_info Torrent.x_pieces
         Torrent.x_files] in *.
    apply sum_sizes_total in Htotal. rewrite Z.add_0_l in Htotal. subst total.
    repeat split; try assumption; reflexivity.
Qed.

Lemma in_find {V : Type} (k : cstring) (v : V) (m : StdMap.t V) :
  StdMap.ascending (map fst m) = true -> In (k, v) m -> StdMap.find k m = Some v.
Proof.
  induction m as [|[k0 v0] m IH]; intros Hasc Hin; [destruct Hin|].
  cbn [StdMap.find]. destruct Hin as [[= -> ->]|Hin].
  - now rewrite compare_refl.
  - cbn [map fst] in Hasc.
    assert (Hlt : Str.ltb k0 k = true).
    { pose proof (ascending_all_lt _ _ Hasc) as Hall. rewrite Forall_forall in Hall.
      apply Hall. apply in_map_iff. now exists (k, v). }
    assert (Htl : StdMap.ascending (map fst m) = true).
    { destruct m as [|[k1 v1] m]; [reflexivity|].
      cbn [map fst StdMap.ascending] in Hasc. now apply andb_true_iff in Hasc as [_ ?]. }
    destruct (Str.compare k k0) eqn:E; auto.
    apply compare_eq in E. subst k0. now rewrite ltb_irrefl in Hlt.
Qed.

(** X24.  For a torrent file in canonical form (the keys of every
    dictionary strictly ascending, integers as [std::to_string] prints
    them), the info hash is the digest of the bytes of the ["info"]
    dictionary as they stand in the file: re-encoding the parsed dictionary
    reproduces them. *)
Theorem info_hash_of_canonical_file
    (computeSHA1 : cstring -> list ascii) (fuel : nat)
    (entries info : list (cstring * wire)) (t : Torrent.TorrentFile) :
  wire_ok (WDict entries) = true ->
  wire_sorted (WDict entries) = true ->
  fits (render (WDict entries)) ->
  (weight (WDict entries) <= fuel)%nat ->
  In (lit "info", WDict info) entries ->
  Torrent.parse computeSHA1 fuel (Some (render (WDict entries))) = Some (Ret t) ->
  Torrent.infoHash t = computeSHA1 (render (WDict info)).
Proof.
  intros Hok Hs Hfit Hfuel Hin Hparse.
  apply torrent_parse_ret in Hparse
    as (data & rootDict & infoDict & [= <-] & Hp & Hinfo & -> & _).
  change (parse fuel (render (WDict entries)) = Ret (BDict rootDict)) in Hp.
  rewrite parse_render in Hp by assumption.
  cbn [denote] in Hp. injection Hp as <-.
  pose proof Hs as Hs'. cbn [wire_sorted] in Hs'.
  apply andb_true_iff in Hs' as [Hasc Hsub].
  rewrite (fold_assign_ascending BencodedValue) in Hinfo
    by (cbn [app]; now rewrite map_map).
  cbn [app] in Hinfo.
  assert (Hd : denote (WDict info) = BDict infoDict).
  { assert (Hf : StdMap.find (lit "info")
                   (map (fun kv => (fst kv, denote (snd kv))) entries)
                 = Some (denote (WDict info))).
    { apply in_find.
      - rewrite map_map. exact Hasc.
      - apply in_map_iff. exists (lit "info", WDict info).
        split; [reflexivity | exact Hin]. }
    rewrite Hf in Hinfo.
    exact (f_equal (fun o => match o with Some v => v | None => BInt 0 end) Hinfo). }
  rewrite <- Hd.
  rewrite forallb_forall in Hsub. specialize (Hsub _ Hin). cbn [snd] in Hsub.
  cbn [wire_ok] in Hok. rewrite forallb_forall in Hok. specialize (Hok _ Hin).
  cbn [snd] in Hok.
  rewrite encode_render by now apply denote_ok.
  now rewrite wire_of_denote.
Qed.

Lemma info_hash_of_canonical_file_witness :
  exists t,
    Torrent.parse (fun data => data) 20 (Some (render sample_torrent)) = Some (Ret t)
    /\ Torrent.infoHash t = render sample_info.
Proof.
  eexists. split; [vm_compute; reflexivity|].
  apply (info_hash_of_canonical_file (fun data => data) 20
           [(lit "announce", WStr (lit "http://t/a")); (lit "info", sample_info)]
           [(lit "length", WInt 50); (lit "name", WStr (lit "a.txt"));
            (lit "piece length", WInt 16);
            (lit "pieces", WStr (lit "0123456789abcdefghij0123456789ABCDEFGHIJ"))]).
  - reflexivity.
  - reflexivity.
  - vm_compute. reflexivity.
  - vm_compute. lia.
  - right. left. reflexivity.
  - vm_compute. reflexivity.
Defined.

(** X25.  What [parse] returns hangs together: the piece length is not
    zero, the piece count is the count for the sum of the sizes of the
    listed files, and every piece hash has 20 bytes. *)
Theorem parsed_torrent_is_consistent
    (computeSHA1 : cstring -> list ascii) (fuel : nat) (file : option cstring)
    (t : Torrent.TorrentFile) :
  Torrent.parse computeSHA1 fuel file = Some (Ret t) ->
  Torrent.pieceLength t <> 0
  /\ Torrent.count_pieces (total_size (Torrent.files t)) (Torrent.pieceLength t)
     = Some (Torrent.numPieces t)
  /\ Forall (fun piece => length piece = 20%nat) (Torrent.pieces t).
Proof.
  intros H. apply torrent_parse_ret in H
    as (data & rootDict & infoDict & _ & _ & _ & _ & _ & Hpieces & Hcount).
  repeat split.
  - intros Hz. rewrite Hz in Hcount. discriminate Hcount.
  - exact Hcount.
  - unfold Torrent.extractPieces in Hpieces.
    destruct (StdMap.find (lit "pieces") infoDict) as [[?|piecesStr|?|?]|];
      try discriminate.
    injection Hpieces as <-.
    rewrite split_pieces_spec
      by (rewrite Nat.sub_0_r; apply Nat.Div0.div_le_upper_bound; lia).
    rewrite Nat.sub_0_r. cbn [app].
    apply Forall_forall. intros piece Hin.
    apply in_map_iff in Hin as (j & <- & Hj). apply in_seq in Hj.
    rewrite length_firstn, length_skipn.
    pose proof (Nat.Div0.mul_div_le (length piecesStr) 20). nia.
Qed.

Lemma parsed_torrent_is_consistent_witness :
  exists t,
    Torrent.parse (fun data => data) 20 (Some (render sample_torrent)) = Some (Ret t)
    /\ Torrent.pieceLength t <> 0
    /\ Torrent.count_pieces (total_size (Torrent.files t)) (Torrent.pieceLength t)
       = Some (Torrent.numPieces t)
    /\ Forall (fun piece => length piece = 20%nat) (Torrent.pieces t).
Proof.
  eexists. split; [vm_compute; reflexivity|].
  apply (parsed_torrent_is_consistent (fun data => data) 20
           (Some (render sample_torrent))).
  vm_compute. reflexivity.
Defined.

Lemma bind_total {A B : Type} (m : result A) (k : A -> result B) :
  m <> Diverge -> (forall a, k a <> Diverge) -> bind m k <> Diverge.
Proof. destruct m; cbn [bind]; auto; discriminate. Qed.

Lemma extractString_total (dict : BencodedValue) (key : cstring) :
  Torrent.extractString dict key <> Diverge.
Proof.
  destruct dict as [?|?|?|d]; cbn [Torrent.extractString]; try discriminate.
  destruct (StdMap.find key d) as [[?|?|?|?]|]; discriminate.
Qed.

Lemma extractInt_total (dict : BencodedValue) (key : cstring) :
  Torrent.extractInt dict key <> Diverge.
Proof.
  destruct dict as [?|?|?|d]; cbn [Torrent.extractInt]; try discriminate.
  destruct (StdMap.find key d) as [[?|?|?|?]|]; discriminate.
Qed.

Lemma extractPieces_total (dict : BencodedValue) :
  Torrent.extractPieces dict <> Diverge.
Proof.
  destruct dict as [?|?|?|d]; cbn [Torrent.extractPieces]; try discriminate.
  destruct (StdMap.find (lit "pieces") d) as [[?|?|?|?]|]; discriminate.
Qed.

Lemma join_path_total (pathList : list BencodedValue) :
  forall path, Torrent.join_path pathList path <> Diverge.
Proof.
  induction pathList as [|c pathList IH]; intros path; cbn [Torrent.join_path];
    [discriminate|].
  destruct c; try discriminate. apply IH.
Qed.

Lemma file_entry_total (fileDict : BencodedValue) :
  Torrent.file_entry fileDict <> Diverge.
Proof.
  destruct fileDict as [?|?|?|fileMap]; cbn [Torrent.file_entry]; try discriminate.
  apply bind_total; [apply extractInt_total|]. intros len.
  destruct (StdMap.find (lit "path") fileMap) as [[?|?|pathList|?]|]; try discriminate.
  apply bind_total; [apply join_path_total | discriminate].
Qed.

Lemma files_loop_total (filesList : list BencodedValue) :
  forall files, Torrent.files_loop filesList files <> Diverge.
Proof.
  induction filesList as [|fileDict filesList IH]; intros files;
    cbn [Torrent.files_loop]; [discriminate|].
  apply bind_total; [apply file_entry_total|]. intros entry. apply IH.
Qed.

Lemma extractFiles_total (dict : BencodedValue) :
  Torrent.extractFiles dict <> Diverge.
Proof.
  destruct dict as [?|?|?|d]; cbn [Torrent.extractFiles]; try discriminate.
  destruct (StdMap.find (lit "files") d) as [[?|?|?|?]|]; try discriminate.
  apply files_loop_total.
Qed.

(** The extraction throws or returns. *)
Lemma extract_total (parsedData : BencodedValue) :
  Torrent.extract parsedData <> Diverge.
Proof.
  destruct parsedData as [?|?|?|rootDict]; cbn [Torrent.extract]; try discriminate.
  destruct (StdMap.find (lit "info") rootDict) as [[?|?|?|infoDict]|];
    try discriminate.
  apply bind_total; [apply extractString_total|]. intros announce.
  apply bind_total; [apply extractString_total|]. intros comment.
  apply bind_total; [apply extractInt_total|]. intros creationDate.
  apply bind_total; [apply extractString_total|]. intros name.
  apply bind_total; [apply extractInt_total|]. intros pieceLength.
  apply bind_total; [apply extractPieces_total|]. intros pieces.
  destruct (StdMap.find (lit "length") infoDict).
  - apply bind_total; [apply extractInt_total | discriminate].
  - apply bind_total; [apply extractFiles_total | discriminate].
Qed.

(** X26.  A torrent file whose ["info"] dictionary has no ["piece length"]
    is never parsed: [extractInt] gives 0 for the missing key, and [parse]
    throws on some other field or else divides by zero. *)
Theorem missing_piece_length_is_undefined
    (computeSHA1 : cstring -> list ascii) (fuel : nat) (data : cstring)
    (rootDict infoDict : BencodedDict) :
  parse fuel data = Ret (BDict rootDict) ->
  StdMap.find (lit "info") rootDict = Some (BDict infoDict) ->
  StdMap.find (lit "piece length") infoDict = None ->
  Torrent.parse computeSHA1 fuel (Some data) = None
  \/ exists e, Torrent.parse computeSHA1 fuel (Some data) = Some (Throw e).
Proof.
  intros Hp Hinfo Hpl.
  destruct (Torrent.parse computeSHA1 fuel (Some data)) as [[t|e|]|] eqn:E.
  - apply torrent_parse_ret in E
      as (data' & rootDict' & infoDict' & [= <-] & Hp' & Hinfo' & _ & Hx & _ & Hcount).
    rewrite Hp in Hp'. injection Hp' as <-.
    rewrite Hinfo in Hinfo'. injection Hinfo' as <-.
    unfold Torrent.extractInt in Hx. rewrite Hpl in Hx. injection Hx as Hz.
    rewrite <- Hz in Hcount. discriminate Hcount.
  - right. now exists e.
  - unfold Torrent.parse in E. rewrite Hp in E. cbn [bind] in E.
    destruct (Torrent.extract (BDict rootDict)) as [x| |] eqn:Ex; try discriminate.
    + destruct (Torrent.x_total x); [|discriminate].
      destruct (Torrent.count_pieces _ _); discriminate.
    + now apply extract_total in Ex.
  - now left.
Qed.

Lemma missing_piece_length_is_undefined_witness :
  Torrent.parse (fun data => data) 20
                (Some (render sample_torrent_without_piece_length)) = None
  \/ exists e,
       Torrent.parse (fun data => data) 20
                     (Some (render sample_torrent_without_piece_length))
       = Some (Throw e).
Proof.
  apply (missing_piece_length_is_undefined (fun data => data) 20
           (render sample_torrent_without_piece_length)
           [(lit "announce", BString (lit "http://t/a"));
            (lit "info",
             BDict [(lit "length", BInt 50); (lit "name", BString (lit "a.txt"));
                    (lit "pieces", BString (lit "0123456789abcdefghij"))])]
           [(lit "length", BInt 50); (lit "name", BString (lit "a.txt"));
            (lit "pieces", BString (lit "0123456789abcdefghij"))]).
  - vm_compute. reflexivity.
  - reflexivity.
  - reflexivity.
Defined.


(** The hash of a file that lists the keys of ["info"] out of order is
    taken over the re-ordered bytes, not over the bytes of the file. *)
Example info_hash_ex_unsorted :
  exists t,
    Torrent.parse (fun data => data) 20
      (Some (lit "d4:infod4:name1:a6:lengthi5e12:piece lengthi4e6:pieces0:ee"))
    = Some (Ret t)
    /\ Torrent.infoHash t = lit "d6:lengthi5e4:name1:a12:piece lengthi4e6:pieces0:e".
Proof. eexists. split; vm_compute; reflexivity. Qed.

(* ================================================================== *)
(** * Identifiers in hexadecimal *)

Lemma hex_value_digit (n : N) : (n < 16)%N -> hex_value (hex_digit n) = n.
Proof.
  intros H.
  assert (Hn : (N.to_nat n < 16)%nat) by lia.
  rewrite <- (N2Nat.id n). generalize dependent (N.to_nat n). clear. intros k Hk.
  do 16 (destruct k as [|k]; [reflexivity|]). lia.
Qed.

(** X27.  [node_id_to_hex] writes two hexadecimal digits for every byte,
    high digit first, and loses nothing: reading the digits back two by
    two gives the identifier. *)
Theorem node_id_to_hex_reads_back (i : NodeID) :
  length (node_id_to_hex i) = (2 * length i)%nat
  /\ from_hex (node_id_to_hex i) = i.
Proof.
  unfold node_id_to_hex. induction i as [|byte i [IHl IHr]]; [split; reflexivity|].
  cbn [map concat app length from_hex]. split.
  - rewrite IHl. lia.
  - rewrite IHr. f_equal.
    pose proof (N_ascii_bounded byte) as Hb.
    rewrite !hex_value_digit.
    + rewrite <- N.div_mod by lia. apply ascii_N_embedding.
    + apply N.mod_lt. lia.
    + apply N.Div0.div_lt_upper_bound. exact Hb.
Qed.

(* ================================================================== *)
(** * The XOR distance and repeated announcements *)

Lemma lxor_byte_bound (x y : ascii) : (N.lxor (N_of_ascii x) (N_of_ascii y) < 256)%N.
Proof.
  pose proof (N_ascii_bounded x) as Hx. pose proof (N_ascii_bounded y) as Hy.
  destruct (N.eq_dec (N.lxor (N_of_ascii x) (N_of_ascii y)) 0) as [->|Hnz];
    [reflexivity|].
  change 256%N with (2 ^ 8)%N. apply N.log2_lt_pow2; [lia|].
  eapply N.le_lt_trans; [apply N.log2_lxor|].
  apply N.max_lub_lt.
  - destruct (N.eq_dec (N_of_ascii x) 0) as [->|H0]; [reflexivity|].
    apply N.log2_lt_pow2; [lia | exact Hx].
  - destruct (N.eq_dec (N_of_ascii y) 0) as [->|H0]; [reflexivity|].
    apply N.log2_lt_pow2; [lia | exact Hy].
Qed.

Lemma byte_xor_comm (a b : ascii) : byte_xor a b = byte_xor b a.
Proof. unfold byte_xor. now rewrite N.lxor_comm. Qed.

Lemma byte_xor_zero (a b : ascii) : byte_xor a b = zero <-> a = b.
Proof.
  unfold byte_xor. split.
  - intros H. apply (f_equal N_of_ascii) in H.
    rewrite N_ascii_embedding in H by apply lxor_byte_bound.
    change (N_of_ascii zero) with 0%N in H.
    apply N.lxor_eq in H. now apply N_of_ascii_inj.
  - intros ->. now rewrite N.lxor_nilpotent.
Qed.

Lemma byte_xor_twice (a b : ascii) : byte_xor (byte_xor a b) b = a.
Proof.
  unfold byte_xor. rewrite N_ascii_embedding by apply lxor_byte_bound.
  rewrite N.lxor_assoc, N.lxor_nilpotent, N.lxor_0_r. apply ascii_N_embedding.
Qed.

Lemma nth_xor_distance (a b : NodeID) (i : nat) :
  (i < NODE_ID_SIZE)%nat ->
  nth i (xor_distance a b) zero = byte_xor (nth i a zero) (nth i b zero).
Proof.
  intros Hi. unfold xor_distance.
  rewrite (nth_indep _ zero (byte_xor (nth 0 a zero) (nth 0 b zero)))
    by now rewrite length_map, length_seq.
  rewrite (map_nth (fun i => byte_xor (nth i a zero) (nth i b zero)) (seq 0 NODE_ID_SIZE) 0%nat i).
  now rewrite seq_nth.
Qed.

(** X28.  The XOR distance of two 20-byte identifiers does not depend on
    their order, is the all-zero identifier exactly when the two are the
    same, and gives back the first identifier when it is combined with the
    second again. *)
Theorem xor_distance_laws (a b : NodeID) :
  length a = NODE_ID_SIZE -> length b = NODE_ID_SIZE ->
  xor_distance a b = xor_distance b a
  /\ (xor_distance a b = zero_id <-> a = b)
  /\ xor_distance (xor_distance a b) b = a.
Proof.
  intros Ha Hb. split; [|split].
  - unfold xor_distance. apply map_ext. intros i. apply byte_xor_comm.
  - split.
    + intros H. apply nth_ext with (d := zero) (d' := zero); [congruence|].
      intros i Hi. rewrite Ha in Hi.
      apply (f_equal (fun l => nth i l zero)) in H.
      rewrite nth_xor_distance in H by exact Hi.
      unfold zero_id in H. rewrite nth_repeat in H. now apply byte_xor_zero.
    + intros ->. apply nth_ext with (d := zero) (d' := zero).
      * now rewrite xor_distance_length.
      * intros i Hi. rewrite xor_distance_length in Hi.
        rewrite nth_xor_distance by exact Hi.
        unfold zero_id. rewrite nth_repeat. now apply byte_xor_zero.
  - apply nth_ext with (d := zero) (d' := zero).
    + now rewrite xor_distance_length.
    + intros i Hi. rewrite xor_distance_length in Hi.
      rewrite !nth_xor_distance by exact Hi. apply byte_xor_twice.
Qed.

Lemma xor_distance_laws_witness :
  xor_distance (id_with_first_byte 5) (id_with_first_byte 3)
  = xor_distance (id_with_first_byte 3) (id_with_first_byte 5)
  /\ (xor_distance (id_with_first_byte 5) (id_with_first_byte 3) = zero_id
      <-> id_with_first_byte 5 = id_with_first_byte 3)
  /\ xor_distance (xor_distance (id_with_first_byte 5) (id_with_first_byte 3))
                  (id_with_first_byte 3)
     = id_with_first_byte 5.
Proof.
  apply (xor_distance_laws (id_with_first_byte 5) (id_with_first_byte 3));
    reflexivity.
Defined.

(** An [announce_peer] query with an infohash is always handled, and
    stores the peer. *)
Lemma dispatch_announce (peer_id : NodeID) (st : DHTBootstrap)
    (announce : BencodedValue) (sender : sockaddr_in) (H : cstring) :
  message_type_of announce = Ret (lit "q") ->
  query_type_of announce = Ret (lit "announce_peer") ->
  argument_of (lit "info_hash") announce = Ret H ->
  exists sent,
    dispatch peer_id st announce sender
    = Some (mkDHT (my_node_id_ st) (routing_table_ st) (bootstrap_nodes_ st)
                  (store_peer H (announced_peer peer_id sender) (peer_store_ st)),
            sent).
Proof.
  intros Hy Hq Harg. unfold dispatch. rewrite Hy.
  change (Str.eqb (lit "q") (lit "q")) with true. cbv iota. rewrite Hq.
  change (Str.eqb (lit "announce_peer") (lit "ping")) with false.
  change (Str.eqb (lit "announce_peer") (lit "find_node")) with false.
  change (Str.eqb (lit "announce_peer") (lit "get_peers")) with false.
  change (Str.eqb (lit "announce_peer") (lit "announce_peer")) with true. cbv iota.
  unfold handle_announce_peer. rewrite Harg. fold (announced_peer peer_id sender).
  pose proof (field_total (lit "t") announce) as Ht.
  fold (transaction_of announce) in Ht.
  unfold string_to_node_id. destruct (negb _); cbn [bind]; [eauto|].
  destruct (transaction_of announce); [eauto | eauto | now contradiction Ht].
Qed.

(** X29.  Announcements are not deduplicated: when the same
    [announce_peer] query arrives twice from the same sender, both are
    handled and the peer stands twice at the end of the list stored under
    the infohash. *)
Theorem repeated_announce_is_stored_twice (peer_id : NodeID) (st : DHTBootstrap)
    (announce : BencodedValue) (sender : sockaddr_in) (H : cstring) :
  message_type_of announce = Ret (lit "q") ->
  query_type_of announce = Ret (lit "announce_peer") ->
  argument_of (lit "info_hash") announce = Ret H ->
  exists st1 sent1 st2 sent2,
    dispatch peer_id st announce sender = Some (st1, sent1)
    /\ dispatch peer_id st1 announce sender = Some (st2, sent2)
    /\ StdMap.find H (peer_store_ st2)
       = Some (match StdMap.find H (peer_store_ st) with
               | Some peers => peers
               | None => []
               end
               ++ [announced_peer peer_id sender; announced_peer peer_id sender]).
Proof.
  intros Hy Hq Harg.
  destruct (dispatch_announce peer_id st announce sender H Hy Hq Harg) as [sent1 H1].
  destruct (dispatch_announce peer_id
              (mkDHT (my_node_id_ st) (routing_table_ st) (bootstrap_nodes_ st)
                     (store_peer H (announced_peer peer_id sender) (peer_store_ st)))
              announce sender H Hy Hq Harg) as [sent2 H2].
  eexists _, sent1, _, sent2. split; [exact H1|]. split; [exact H2|].
  cbn [peer_store_]. rewrite !find_store_peer.
  destruct (StdMap.find H (peer_store_ st)) as [peers|]; [|reflexivity].
  now rewrite <- app_assoc.
Qed.

Lemma repeated_announce_is_stored_twice_witness :
  exists st1 sent1 st2 sent2,
    dispatch zero_id (new_engine zero_id) sample_announce sample_sender
    = Some (st1, sent1)
    /\ dispatch zero_id st1 sample_announce sample_sender = Some (st2, sent2)
    /\ StdMap.find sample_infohash (peer_store_ st2)
       = Some (match StdMap.find sample_infohash (peer_store_ (new_engine zero_id)) with
               | Some peers => peers
               | None => []
               end
               ++ [announced_peer zero_id sample_sender;
                   announced_peer zero_id sample_sender]).
Proof.
  apply (repeated_announce_is_stored_twice zero_id (new_engine zero_id)
           sample_announce sample_sender sample_infohash); reflexivity.
Defined.
